(** * GPU-based Ant Colony System: a shallow embedding of [gpu_ants.cu]

    The kernels of [src/gpu_ants.cu] are embedded as Rocq functions.

    Modelling conventions.
    - [float] values are exact rationals ([Q]); equality of computed
      values is [Qeq] ([==]) unless both sides are the same expression.
      Rounding, infinities and NaN are outside the model.
    - [uint32_t] node identifiers and array indices are [nat]; the
      instance dimension is capped by the visited bitmask
      ([MAX_VISITED_SIZE] words of 32 bits), so that a matrix index
      [u * dimension + v] stays below [2^32] (lemma [cell_index_fits]).
    - The 32-bit words of the visited bitmask are [Z], with the bit
      operations of the source; so are the thread identifiers of
      [get_global_id], with their wrap-around at [2^32].
    - The number of threads of a block is a parameter of every kernel
      ([block_dim]); where a definition follows the source for some block
      sizes only, its comment says for which.
    - Device arrays that are only read or written cell by cell (the
      matrices, the neighbour lists) are functions from index to value;
      buffers whose length matters (routes, the bitmask, per-ant values)
      are lists written by index.
    - A kernel is described thread by thread: a statement guarded by
      [tid == 0] is run by one thread, an unguarded one by every thread of
      the block; lanes of a warp run in lockstep. Threads that write
      different cells are taken in the order of their index.
    - A block is run in isolation: the other blocks act on the pheromone
      memory only, of which the route theorems use positivity alone.
    - A failed [assert] is the result [None].
    - Draws of the per-ant generator are an arbitrary stream [nat -> Q].
    - The headers [gpu_ants.h], [gpu_phmem.h] and [cuda_utils.h] are not
      part of the sources at hand; what the kernels use from them (warp
      primitives, pheromone memories, [is_valid_route], [NN_SIZE]) is
      modelled from the specification or taken as a parameter, and marked
      so. *)

From Stdlib Require Import List Arith ZArith QArith Lia Lqa Bool Permutation.
Import ListNotations.

Close Scope Q_scope.
Open Scope nat_scope.

(** ** Constants of the source *)

Definition WARP_SIZE : nat := 32.
Definition MAX_VISITED_SIZE : nat := 473.

(** ** Generic helpers *)

(** [a < b] on floats. *)
Definition Qltb (a b : Q) : bool :=
  match (a ?= b)%Q with Lt => true | _ => false end.

(** [a <= b] on floats. *)
Definition Qleb (a b : Q) : bool :=
  match (a ?= b)%Q with Gt => false | _ => true end.

(** [max(a, b)] as the source's [max] on floats. *)
Definition fmax (a b : Q) : Q := if Qltb a b then b else a.

(** [buf[i] = x] on a buffer of fixed length (a write past the end is
    dropped: the source never performs one within the supported sizes). *)
Fixpoint store {A : Type} (l : list A) (i : nat) (x : A) : list A :=
  match l, i with
  | [], _ => []
  | _ :: t, O => x :: t
  | h :: t, S j => h :: store t j x
  end.

(** [mem[k] = x] on a device array seen as a function. *)
Definition write {A : Type} (m : nat -> A) (k : nat) (x : A) : nat -> A :=
  fun j => if Nat.eqb j k then x else m j.

(** The indices visited by [for (i = start; i < bound; i += step)]; the
    fuel only bounds the number of iterations ([bound] always suffices when
    [step > 0]). *)
Fixpoint stride_loop (fuel i step bound : nat) : list nat :=
  match fuel with
  | O => []
  | S f => if i <? bound then i :: stride_loop f (i + step) step bound else []
  end.

Definition stride (start step bound : nat) : list nat :=
  stride_loop bound start step bound.

(** Sum of a list of floats, left to right. *)
Definition Qsum (l : list Q) : Q := fold_left Qplus l 0%Q.

(** ** Pheromone update rule *)

(** [(1 - decay) * old + decay * deposit], the expression of
    [acs_global_pheromone_update]. *)
Definition pheromone_rule (decay old deposit : Q) : Q :=
  ((1 - decay) * old + decay * deposit)%Q.

(** Index of cell [(u, v)] in a dense [dimension x dimension] matrix. *)
Definition cell (dimension u v : nat) : nat := u * dimension + v.

(** ** Global pheromone update on the raw matrix (lines 636-655) *)

Section GlobalUpdate.

Variable dimension : nat.
Variable rho : Q.
Variable best_route : list nat.

(** Body of the loop for one index [i]. *)
Definition global_update_edge (delta : Q) (pheromone_matrix : nat -> Q)
           (i : nat) : nat -> Q :=
  let u := nth i best_route O in
  let v := nth ((i + 1) mod dimension) best_route O in
  let val := pheromone_rule rho (pheromone_matrix (cell dimension u v)) delta in
  write (write pheromone_matrix (cell dimension u v) val)
        (cell dimension v u) val.

(** The loop of one thread: [i = threadIdx.x; i < dimension; i += num_threads]. *)
Definition global_update_thread (delta : Q) (num_threads : nat)
           (pheromone_matrix : nat -> Q) (tid : nat) : nat -> Q :=
  fold_left (global_update_edge delta) (stride tid num_threads dimension)
            pheromone_matrix.

(** The order in which a block of [block_dim] threads, taken one after the
    other, handles the edge indices. *)
Definition global_update_schedule (block_dim grid_dim : nat) : list nat :=
  flat_map (fun tid => stride tid (block_dim * grid_dim) dimension)
           (seq 0 block_dim).

(** The kernel for one block, the threads taken in the order of their
    [threadIdx.x]. Every loop starts at [threadIdx.x], so the blocks of a
    larger grid would all handle the same indices; the definition is the
    kernel for [gridDim.x = 1] (the launches of the file are [<<<1, 128>>>]),
    [grid_dim] entering the stride only. *)
Definition acs_global_pheromone_update (pheromone_matrix : nat -> Q)
           (best_value : Q) (block_dim grid_dim : nat) : nat -> Q :=
  let delta := (1 / best_value)%Q in
  let num_threads := block_dim * grid_dim in
  fold_left (global_update_thread delta num_threads) (seq 0 block_dim)
            pheromone_matrix.

End GlobalUpdate.

(** ** Validity of a route

    Modelled from the spec: [is_valid_route] is declared outside
    [gpu_ants.cu]; a route is valid when it is a permutation of [0,N), with
    no duplicate or missing node. *)
Definition is_valid_route (route : list nat) (dimension : nat) : bool :=
  (length route =? dimension) &&
  forallb (fun k => existsb (Nat.eqb k) route) (seq 0 dimension).

(** ** Run controller: best-so-far tracking (BaseGPUACS::run, lines 926-968) *)

(** [std::numeric_limits<float>::max()], the initial best value. *)
Definition FLT_MAX : Q := (340282346638528859811704183484516925440 # 1)%Q.

(** The host-side buffers of [RunContext] used by the best tracking,
    together with the local [best_found_iteration] of [run]. *)
Record RunContext : Type := mkRunContext {
  ant_values_ : list Q;
  ant_routes_ : list nat;
  best_value_ : Q;
  best_route_ : list nat;
  best_found_iteration : nat
}.

(** The context built by the constructor of [RunContext]. *)
Definition init_run_context (dimension ants_count : nat) : RunContext :=
  {| ant_values_ := repeat 0%Q ants_count;
     ant_routes_ := repeat 0 (ants_count * dimension);
     best_value_ := FLT_MAX;
     best_route_ := repeat 0 dimension;
     best_found_iteration := 0 |}.

(** The scan for the iteration's best ant:
    [if (ant_values_[i] < ant_values_[best_index]) best_index = i]. *)
Definition find_best_index (ant_values : list Q) (ants_count : nat) : nat :=
  fold_left
    (fun best_index i =>
       if Qltb (nth i ant_values 0%Q) (nth best_index ant_values 0%Q)
       then i else best_index)
    (seq 0 ants_count) 0.

(** [copy(v.begin() + from, v.begin() + from + len, ...)]. *)
Definition slice {A : Type} (l : list A) (from len : nat) : list A :=
  firstn len (skipn from l).

(** One pass of the loop body after the solutions were built: the ant values
    are copied back, the best ant is looked up and the record is replaced
    under the strict test. [validate_routes] is [false] in the source, so
    the routes are copied back only when a new best is found. The [assert]
    that the new best route is valid changes nothing in the record; it is
    the property of the routes proved below and is not repeated here. *)
Definition check_better_solution (dimension ants_count : nat)
           (dev_ant_values : list Q) (dev_ant_routes : list nat)
           (iteration : nat) (ctx : RunContext) : RunContext :=
  let ant_values := dev_ant_values in
  let best_index := find_best_index ant_values ants_count in
  if Qltb (nth best_index ant_values 0%Q) (best_value_ ctx) then
    {| ant_values_ := ant_values;
       ant_routes_ := dev_ant_routes;
       best_value_ := nth best_index ant_values 0%Q;
       best_route_ := slice dev_ant_routes (best_index * dimension) dimension;
       best_found_iteration := iteration |}
  else
    {| ant_values_ := ant_values;
       ant_routes_ := ant_routes_ ctx;
       best_value_ := best_value_ ctx;
       best_route_ := best_route_ ctx;
       best_found_iteration := best_found_iteration ctx |}.

(** The iterations of [run]: [results] lists, iteration after iteration, the
    values and routes left on the device by the construction (and the
    optional local search); the stop condition decides how many there are.
    The iteration counter starts at [first]. *)
Fixpoint run_iterations (dimension ants_count : nat)
         (results : list (list Q * list nat)) (first : nat)
         (ctx : RunContext) : RunContext :=
  match results with
  | [] => ctx
  | (dev_ant_values, dev_ant_routes) :: rest =>
      run_iterations dimension ants_count rest (S first)
        (check_better_solution dimension ants_count dev_ant_values
                               dev_ant_routes first ctx)
  end.

(** The recorded best length after each of the first iterations
    ([best_length[0]] is the initial value). *)
Definition best_length (dimension ants_count : nat)
           (results : list (list Q * list nat)) (ctx : RunContext)
           (i : nat) : Q :=
  best_value_ (run_iterations dimension ants_count (firstn i results) 0 ctx).

(** ** Group primitives and warp intrinsics

    Modelled from the spec: [warp_reduce], [warp_scan], [warp_bcast],
    [warp_reduce_arg_max] and [warp_reduce_arg_max_ext] are defined outside
    [gpu_ants.cu]. A value held by every lane of a group is the list of the
    lanes' values, lane 0 first. *)

(** [reduce(v)]: the sum of [v] across all lanes. *)
Definition warp_reduce (v : list Q) : Q := Qsum v.

Fixpoint scan_from (acc : Q) (v : list Q) : list Q :=
  match v with
  | [] => []
  | x :: t => (acc + x)%Q :: scan_from (acc + x)%Q t
  end.

(** [scan(v)]: lane [i] holds the sum of the values of lanes [0..i]. *)
Definition warp_scan (v : list Q) : list Q := scan_from 0%Q v.

(** [broadcast(v, src_lane)]: the value held by [src_lane]. *)
Definition warp_bcast {A : Type} (d : A) (v : list A) (src_lane : nat) : A :=
  nth src_lane v d.

(** One comparison of the arg-max reduction: a later lane replaces the
    current best only under the strict test [best < candidate]. *)
Definition arg_max_step (best cand : nat * Q) : nat * Q :=
  if Qltb (snd best) (snd cand) then cand else best.

(** [reduce_arg_max] in its extended form: the [(id, value)] pair of the
    lane with the maximum value, ties going to the lowest lane. [d] stands
    for the result over an empty group. *)
Definition warp_reduce_arg_max_ext (d : nat * Q) (lanes : list (nat * Q))
  : nat * Q :=
  fold_left arg_max_step (tl lanes) (hd d lanes).

Definition warp_reduce_arg_max (d : nat * Q) (lanes : list (nat * Q)) : nat :=
  fst (warp_reduce_arg_max_ext d lanes).

(** [__any(p)]. *)
Definition any_lane (p : list bool) : bool := existsb (fun b => b) p.

Fixpoint ballot_from (lane : Z) (p : list bool) : Z :=
  match p with
  | [] => 0%Z
  | b :: t => Z.lor (if b then Z.shiftl 1 lane else 0%Z)
                    (ballot_from (lane + 1) t)
  end.

(** [__ballot(p)]: bit [i] of the mask is the predicate of lane [i]. *)
Definition ballot (p : list bool) : Z := ballot_from 0 p.

(** [__popc(x)]: the number of bits set in a 32-bit word. *)
Definition popc (x : Z) : nat :=
  length (filter (fun i => Z.testbit x (Z.of_nat i)) (seq 0 32)).

(** [__ffs(x)]: the position, counted from 1, of the least significant bit
    set in a 32-bit word, and 0 when there is none. *)
Definition ffs (x : Z) : nat :=
  match find (fun i => Z.testbit x (Z.of_nat i)) (seq 0 32) with
  | Some i => S i
  | None => 0
  end.

(** ** Roulette-wheel selection (lines 173-181 and 511-519)

    [nn_know] holds the candidate scores of the 32 lanes and [draw] the
    value of [rng.rand_uniform()]. *)
Definition roulette_index (nn_know : list Q) (draw : Q) : nat :=
  let my_sum := warp_scan nn_know in
  let total_sum := warp_bcast 0%Q my_sum (WARP_SIZE - 1) in
  let t := (draw * total_sum)%Q in
  Nat.min (WARP_SIZE - 1) (popc (ballot (map (fun s => Qleb s t) my_sum))).

(** The selection rule in the words of the specification: the first index
    [i] whose inclusive prefix sum [S_i] is at least the scaled draw [r]
    (the number of candidates when there is none). *)
Fixpoint spec_first_prefix_geq (prefix_sums : list Q) (r : Q) : nat :=
  match prefix_sums with
  | [] => 0
  | s :: rest => if Qleb r s then 0 else S (spec_first_prefix_geq rest r)
  end.

Definition spec_roulette_index (nn_know : list Q) (draw : Q) : nat :=
  let prefix_sums := warp_scan nn_know in
  spec_first_prefix_geq prefix_sums
    (draw * nth (WARP_SIZE - 1) prefix_sums 0)%Q.

(** ** Pheromone memory

    The kernels are templates over the memory type [PhmemT]; the interface
    they use is [get(k)], [update(u, v, decay, deposit)] and, in the global
    update, [update_lockfree(u, v, decay, deposit)]. *)
Class PhmemT (M : Type) : Type := {
  ph_get : M -> nat -> Q;
  ph_update : M -> nat -> nat -> Q -> Q -> M;
  ph_update_lockfree : M -> nat -> nat -> Q -> Q -> M
}.

(** Modelled from the spec: the dense memories [MatrixPhmemDevice] and
    [MatrixPhmemAtomic] are declared in [gpu_phmem.h]. A full N x N array;
    [update] stores [(1-decay)*old + decay*deposit] in both [(u,v)] and
    [(v,u)], as the raw-matrix kernel above does. The two variants differ
    only in how concurrent callers are serialised. *)
Record MatrixPhmem : Type := mkMatrixPhmem {
  mp_dimension : nat;
  mp_cells : nat -> Q
}.

Definition matrix_update (m : MatrixPhmem) (u v : nat) (decay deposit : Q)
  : MatrixPhmem :=
  let d := mp_dimension m in
  let val := pheromone_rule decay (mp_cells m (cell d u v)) deposit in
  {| mp_dimension := d;
     mp_cells := write (write (mp_cells m) (cell d u v) val) (cell d v u) val |}.

#[export] Instance MatrixPhmem_PhmemT : PhmemT MatrixPhmem := {
  ph_get := mp_cells;
  ph_update := matrix_update;
  ph_update_lockfree := matrix_update
}.

(** One call of [update], as issued by a thread. *)
Record UpdateCall : Type := mkUpdateCall {
  call_u : nat;
  call_v : nat;
  call_decay : Q;
  call_deposit : Q
}.

(** A memory that also keeps the list of the [update] calls it received,
    oldest first. *)
Record Traced (M : Type) : Type := mkTraced {
  traced_mem : M;
  traced_calls : list UpdateCall
}.
Arguments mkTraced {M} _ _.
Arguments traced_mem {M} _.
Arguments traced_calls {M} _.

#[export] Instance Traced_PhmemT (M : Type) `{PhmemT M} : PhmemT (Traced M) := {
  ph_get := fun t k => ph_get (traced_mem t) k;
  ph_update := fun t u v decay deposit =>
    {| traced_mem := ph_update (traced_mem t) u v decay deposit;
       traced_calls := traced_calls t ++ [mkUpdateCall u v decay deposit] |};
  ph_update_lockfree := fun t u v decay deposit =>
    {| traced_mem := ph_update_lockfree (traced_mem t) u v decay deposit;
       traced_calls := traced_calls t ++ [mkUpdateCall u v decay deposit] |}
}.

(** ** Global pheromone update through the memory (lines 658-675)

    The template overload of [acs_global_pheromone_update]: the same loop,
    the edge being handed to [phmem.update_lockfree]. *)
Definition global_update_call {M : Type} `{PhmemT M} (dimension : nat) (rho : Q)
           (best_route : list nat) (delta : Q) (phmem : M) (i : nat) : M :=
  let u := nth i best_route 0 in
  let v := nth ((i + 1) mod dimension) best_route 0 in
  ph_update_lockfree phmem u v rho delta.

Definition acs_global_pheromone_update_phmem {M : Type} `{PhmemT M}
           (dimension : nat) (rho : Q) (phmem : M) (best_value : Q)
           (best_route : list nat) (block_dim grid_dim : nat) : M :=
  let delta := (1 / best_value)%Q in
  let num_threads := block_dim * grid_dim in
  fold_left
    (fun ph tid =>
       fold_left (global_update_call dimension rho best_route delta)
                 (stride tid num_threads dimension) ph)
    (seq 0 block_dim) phmem.

(** ** Visited bitmask (lines 96-103) *)

(** [visited[node >> 5] & (1 << (node & 31))] *)
Definition is_node_visited (visited : list Z) (node : nat) : bool :=
  let word := nth (Z.to_nat (Z.shiftr (Z.of_nat node) 5)) visited 0%Z in
  negb (Z.land word (Z.shiftl 1 (Z.land (Z.of_nat node) 31)) =? 0)%Z.

(** [visited[node >> 5] |= 1 << (node & 31)] *)
Definition set_node_visited (visited : list Z) (node : nat) : list Z :=
  let w := Z.to_nat (Z.shiftr (Z.of_nat node) 5) in
  store visited w
        (Z.lor (nth w visited 0%Z) (Z.shiftl 1 (Z.land (Z.of_nat node) 31))).

(** ** Node selection shared by [acs_calc_solution] and [acs_select_next_node]

    The two kernels contain the same selection code; they differ in how the
    visited set is stored, which is abstracted here by the test [visited]. *)
Section Selection.

Context {M : Type} `{PhmemT M}.

Variable q0 : Q.                       (* acs_params.q0_ *)
Variable dimension : nat.
Variable heuristic_matrix : nat -> Q.
Variable nn_lists : nat -> nat.
Variable NN_SIZE : nat.                (* defined outside gpu_ants.cu *)
Variable block_dim : nat.              (* blockDim.x *)
Variable draws : nat -> Q.             (* values of rng.rand_uniform() *)

Variable visited : nat -> bool.
Variable curr : nat.
Variable phmem : M.

Definition nn_id (tid : nat) : nat := nn_lists (curr * NN_SIZE + tid).

Definition nn_unvisited (tid : nat) : bool := negb (visited (nn_id tid)).

Definition nn_know (tid : nat) : Q :=
  let k := dimension * curr + nn_id tid in
  if nn_unvisited tid
  then (heuristic_matrix k * ph_get phmem k)%Q
  else 0%Q.

(** The first warp's choice among the nearest neighbours: the value
    left in [next_pos[0]] and the position reached in the random stream.
    [dimension] stands for "no selection". The vote and the reductions run
    over the 32 lanes of a complete first warp: the definition is the source
    for blocks of at least 32 threads, and for a smaller block when the
    neighbours of the current node are all visited (no lane votes). *)
Definition select_from_nn (rng : nat) : nat * nat :=
  let lanes := seq 0 WARP_SIZE in
  if any_lane (map nn_unvisited lanes) then
    let q := draws rng in
    if Qltb q q0 then
      (warp_reduce_arg_max (dimension, 0%Q)
         (map (fun tid => (nn_id tid, nn_know tid)) lanes), S rng)
    else
      let best_idx := roulette_index (map nn_know lanes) (draws (S rng)) in
      let best_nn := warp_bcast dimension (map nn_id lanes) best_idx in
      (if visited best_nn then dimension else best_nn, S (S rng))
  else (dimension, rng).

(** One turn of the fallback loop of a thread over node [i], as written
    in [acs_calc_solution]. *)
Definition scan_node (acc : nat * Q) (i : nat) : nat * Q :=
  let '(my_best_id, my_max) := acc in
  if negb (visited i) then
    let product := (heuristic_matrix (dimension * curr + i)
                    * ph_get phmem (i + dimension * curr))%Q in
    (if Qltb my_max product then i else my_best_id, fmax my_max product)
  else (my_best_id, my_max).

(** The same turn as written in [acs_select_next_node]. *)
Definition scan_node_step (acc : nat * Q) (i : nat) : nat * Q :=
  let '(my_best_id, my_max) := acc in
  let product := if visited i then 0%Q
                 else (heuristic_matrix (dimension * curr + i)
                       * ph_get phmem (i + dimension * curr))%Q in
  (if Qltb my_max product then i else my_best_id, fmax my_max product).

(** The fallback scan over the whole node range: every thread scans its
    strided share, every warp reduces its 32 lanes, and the first
    [num_warps] lanes reduce the partial results left in [cand_set] and
    [know]. The result is [next_pos[0]], which keeps the value
    [dimension] when the block has no complete warp. [cand_set] and [know]
    have four cells in the source: the definition is the source for blocks
    of at most 128 threads. *)
Definition fallback_scan (body : nat * Q -> nat -> nat * Q) : nat :=
  let num_warps := block_dim / WARP_SIZE in
  let thread tid :=
    fold_left body (stride tid block_dim dimension) (dimension, 0%Q) in
  let warp w :=
    warp_reduce_arg_max_ext (dimension, 0%Q)
      (map thread (seq (w * WARP_SIZE) WARP_SIZE)) in
  let partials := map warp (seq 0 num_warps) in
  match partials with
  | [] => dimension
  | _ => warp_reduce_arg_max (dimension, 0%Q) partials
  end.

End Selection.

(** ** Tour length (lines 240-259 and 584-614) *)
Section TourLength.

Variable dimension : nat.
Variable dist_matrix : nat -> Q.
Variable route : list nat.

(** [dist_matrix[route[i] * dimension + route[(i + 1) % dimension]]] *)
Definition edge_length (i : nat) : Q :=
  dist_matrix (nth i route 0 * dimension + nth ((i + 1) mod dimension) route 0).

(** [my_sum] of thread [tid] after its strided loop up to [bound]. *)
Definition thread_length (block_dim bound tid : nat) : Q :=
  fold_left (fun my_sum i => (my_sum + edge_length i)%Q)
            (stride tid block_dim bound) 0%Q.

(** The end of [acs_calc_solution]: every warp reduces the sums of its
    lanes into [know], and thread 0 adds up [know[0..num_warps)]. [know]
    has four cells in the source: the definition is the source for blocks of
    at most 128 threads. *)
Definition block_route_length (block_dim : nat) : Q :=
  let num_warps := block_dim / WARP_SIZE in
  let know w :=
    warp_reduce (map (thread_length block_dim dimension)
                     (seq (w * WARP_SIZE) WARP_SIZE)) in
  fold_left (fun total i => (total + know i)%Q) (seq 0 num_warps) 0%Q.

(** The independently summed length of the closed tour. *)
Definition tour_length : Q := Qsum (map edge_length (seq 0 dimension)).

End TourLength.

(** The length of a tour in the words of the specification: the sum over
    all [i] in [0,N) of [dist_matrix(route[i], route[(i+1) mod N])], written
    out without the definitions the kernels are built from. *)
Definition spec_tour_length (dimension : nat) (dist_matrix : nat -> Q)
           (route : list nat) : Q :=
  fold_right
    (fun i acc =>
       let u := nth i route 0 in
       let v := nth ((i + 1) mod dimension) route 0 in
       (dist_matrix (u * dimension + v)%nat + acc)%Q)
    0%Q (seq 0 dimension).

(** [eval_ants_solutions]: a single warp sums the route of one ant; the
    kernel asserts [blockDim.x == WARP_SIZE] and [route_len == dimension],
    a failed assertion being [None]. *)
Definition eval_ants_solutions (dimension : nat) (dist_matrix : nat -> Q)
           (block_dim : nat) (route_len : nat) (route : list nat) : option Q :=
  if negb (block_dim =? WARP_SIZE) then None
  else if negb (route_len =? dimension) then None
  else Some (warp_reduce
               (map (thread_length dimension dist_matrix route block_dim route_len)
                    (seq 0 block_dim))).

(** ** Monolithic construction: [acs_calc_solution] (lines 110-260) *)
Section CalcSolution.

Context {M : Type} `{PhmemT M}.

Variable q0 phi initial_pheromone : Q.     (* acs_params *)
Variable dimension : nat.
Variable heuristic_matrix dist_matrix : nat -> Q.
Variable nn_lists : nat -> nat.
Variable NN_SIZE : nat.
Variable pher_mem_update_freq : nat.
Variable block_dim : nat.
Variable draws : nat -> Q.

(** Shared memory of the block, the route buffer of its ant, the
    pheromone memory and the position in the ant's random stream. *)
Record BlockState : Type := mkBlockState {
  was_visited : list Z;
  route : list nat;
  curr_pos : nat;
  phmem : M;
  rng : nat
}.

(** Lines 140-148: the bitmask is cleared and the start node, left in
    [route[0]] by [acs_ant_init], is marked. *)
Definition calc_init (route0 : list nat) (phmem0 : M) (rng0 : nat) : BlockState :=
  let first_node := nth 0 route0 0 in
  {| was_visited := set_node_visited (repeat 0%Z MAX_VISITED_SIZE) first_node;
     route := route0;
     curr_pos := first_node;
     phmem := phmem0;
     rng := rng0 |}.

(** The node put in [next_pos[0]] at step [iter] (lines 153-217). *)
Definition calc_next (st : BlockState) : nat * nat :=
  let visited := is_node_visited (was_visited st) in
  let '(next0, rng1) :=
    select_from_nn q0 dimension heuristic_matrix nn_lists NN_SIZE draws
                   visited (curr_pos st) (phmem st) (rng st) in
  if next0 =? dimension then
    (fallback_scan dimension block_dim
       (scan_node dimension heuristic_matrix visited (curr_pos st) (phmem st)),
     rng1)
  else (next0, rng1).

(** One turn of the construction loop; the commit (lines 219-232) is run
    by thread 0 only. *)
Definition calc_step (st : BlockState) (iter : nat) : BlockState :=
  let '(next_node, rng1) := calc_next st in
  let route1 := store (route st) iter next_node in
  let v := nth (iter - 1) route1 0 in
  let u := next_node in
  {| was_visited := set_node_visited (was_visited st) next_node;
     route := route1;
     curr_pos := next_node;
     phmem := if iter mod pher_mem_update_freq =? 0
              then ph_update (phmem st) u v phi initial_pheromone
              else phmem st;
     rng := rng1 |}.

(** [for (iter = 1; iter < dimension; ++iter)] *)
Definition calc_loop (st : BlockState) : BlockState :=
  fold_left calc_step (seq 1 (dimension - 1)) st.

(** Lines 234-238: the update on the closing edge is not guarded by
    [tid == 0]; every thread of the block calls it, one call after the
    other. *)
Definition calc_closing_update (st : BlockState) : M :=
  if dimension mod pher_mem_update_freq =? 0 then
    fold_left
      (fun ph (_ : nat) =>
         ph_update ph (nth (dimension - 1) (route st) 0) (nth 0 (route st) 0)
                   phi initial_pheromone)
      (seq 0 block_dim) (phmem st)
  else phmem st.

(** What a block leaves behind: the route of its ant, [ant_values[ant_id]],
    [ant_visited_count[ant_id]], the pheromone memory and the random
    stream. *)
Record CalcResult : Type := mkCalcResult {
  res_route : list nat;
  res_value : Q;
  res_visited_count : nat;
  res_phmem : M;
  res_rng : nat
}.

(** The kernel for the block of one ant. The closing update and the length
    are computed from the final route: the source has no barrier between the
    last write of thread 0 to the route (line 223) and the reads of lines
    236 and 243, so for these two fields the definition is the source when
    the reads that count come from the warp of thread 0 (a block with one
    complete warp). *)
Definition acs_calc_solution (route0 : list nat) (phmem0 : M) (rng0 : nat)
  : CalcResult :=
  let st := calc_loop (calc_init route0 phmem0 rng0) in
  {| res_route := route st;
     res_value := block_route_length dimension dist_matrix (route st) block_dim;
     res_visited_count := dimension;
     res_phmem := calc_closing_update st;
     res_rng := rng st |}.

End CalcSolution.

(** ** Per-step construction: [acs_select_next_node] (lines 448-581) *)
Section SelectNextNode.

Context {M : Type} `{PhmemT M}.

Variable q0 phi initial_pheromone : Q.     (* acs_params *)
Variable dimension : nat.
Variable heuristic_matrix : nat -> Q.
Variable nn_lists : nat -> nat.
Variable NN_SIZE : nat.
Variable block_dim : nat.
Variable draws : nat -> Q.

(** What persists for one ant between two launches: its route buffer, its
    entry of [ants_visited_count], its [int8_t] marks, the pheromone memory
    and the random stream. *)
Record AntState : Type := mkAntState {
  ant_route : list nat;
  ant_visited_count : nat;
  ant_marked_nodes : list Z;
  ant_phmem : M;
  ant_rng : nat
}.

(** [was_visited[node]] read as a condition. *)
Definition is_marked (marked : list Z) (node : nat) : bool :=
  negb (nth node marked 0 =? 0)%Z.

(** One launch for one ant; [None] is a failed assertion. The kernel
    receives [pher_mem_update_freq] and never reads it. *)
Definition acs_select_next_node (pher_mem_update_freq : nat) (st : AntState)
  : option AntState :=
  let route_len := ant_visited_count st in
  if negb ((0 <? route_len) && (route_len <? dimension)) then None else
  let pos := nth (route_len - 1) (ant_route st) 0 in
  if negb (pos <? dimension) then None else
  let was_visited := store (ant_marked_nodes st) pos 1%Z in
  let visited := is_marked was_visited in
  let '(next0, rng1) :=
    select_from_nn q0 dimension heuristic_matrix nn_lists NN_SIZE draws
                   visited pos (ant_phmem st) (ant_rng st) in
  let next_pos :=
    if next0 =? dimension then
      let my_best_id :=
        fallback_scan dimension block_dim
          (scan_node_step dimension heuristic_matrix visited pos (ant_phmem st)) in
      if (0 <? block_dim / WARP_SIZE) && (my_best_id =? dimension)
      then None else Some my_best_id
    else Some next0 in
  match next_pos with
  | None => None
  | Some next_node =>
      (* tid == 0 *)
      let route1 := store (ant_route st) route_len next_node in
      let route_len1 := S route_len in
      let ph1 := ph_update (ant_phmem st) pos next_node phi initial_pheromone in
      let ph2 := if route_len1 =? dimension
                 then ph_update ph1 next_node (nth 0 route1 0) phi initial_pheromone
                 else ph1 in
      Some {| ant_route := route1;
              ant_visited_count := route_len1;
              ant_marked_nodes := store was_visited next_node 1%Z;
              ant_phmem := ph2;
              ant_rng := rng1 |}
  end.

(** [launches] successive launches. *)
Fixpoint select_next_nodes (pher_mem_update_freq launches : nat)
         (st : AntState) : option AntState :=
  match launches with
  | O => Some st
  | S n => match acs_select_next_node pher_mem_update_freq st with
           | None => None
           | Some st' => select_next_nodes pher_mem_update_freq n st'
           end
  end.

(** The state of an ant when [GPUACSSeparate::build_ant_solutions] starts:
    [acs_ant_init] left the start node in [route[0]] and 1 in the visited
    count, and [fill] cleared the marks. *)
Definition separate_init (route0 : list nat) (phmem0 : M) (rng0 : nat) : AntState :=
  {| ant_route := route0;
     ant_visited_count := 1;
     ant_marked_nodes := repeat 0%Z dimension;
     ant_phmem := phmem0;
     ant_rng := rng0 |}.

(** [GPUACSSeparate::build_ant_solutions] for one ant: [dimension - 1]
    launches of the selection kernel. *)
Definition build_ant_solution_separate (pher_mem_update_freq : nat)
           (route0 : list nat) (phmem0 : M) (rng0 : nat) : option AntState :=
  select_next_nodes pher_mem_update_freq (dimension - 1)
                    (separate_init route0 phmem0 rng0).

End SelectNextNode.

(** ** Selective pheromone memory

    The interface [acs_spm_calc_solution] uses: the capacity of a short
    list, the default pheromone, the arrays of node ids and trails of the
    short list of a node, the read of an edge and the warp-wide update. *)
Class SelectivePhmemT (SP : Type) : Type := {
  sp_capacity : SP -> nat;
  sp_default_pheromone : SP -> Q;
  sp_get_indices : SP -> nat -> nat -> nat;
  sp_get_pheromone : SP -> nat -> nat -> Q;
  sp_get : SP -> nat -> nat -> Q;
  sp_unsafe_warp_update : SP -> nat -> nat -> Q -> Q -> SP
}.

(** Modelled from the spec: [SelectivePhmem] is declared in [gpu_phmem.h].
    Every node has a list of at most [capacity] pairs (neighbour id, value);
    an edge that is not listed has the shared default value; an update
    applies the rule to both directions, listing the edge when it was not.
    The spec leaves open which entry a full list gives up: here the oldest
    one. An empty slot reads as the id [sm_size], which is no node. *)
Record SelectivePhmem : Type := mkSelectivePhmem {
  sm_size : nat;
  sm_capacity : nat;
  sm_default : Q;
  sm_trails : nat -> list (nat * Q)
}.

Definition sm_slot (m : SelectivePhmem) (u slot : nat) : nat * Q :=
  nth slot (sm_trails m u) (sm_size m, sm_default m).

Definition sm_get (m : SelectivePhmem) (u v : nat) : Q :=
  match find (fun e => fst e =? v) (sm_trails m u) with
  | Some e => snd e
  | None => sm_default m
  end.

Definition sm_update_dir (m : SelectivePhmem) (u v : nat) (decay deposit : Q)
  : SelectivePhmem :=
  let l := sm_trails m u in
  let l' :=
    match find (fun e => fst e =? v) l with
    | Some _ =>
        map (fun e => if fst e =? v
                      then (v, pheromone_rule decay (snd e) deposit) else e) l
    | None =>
        let e := (v, pheromone_rule decay (sm_default m) deposit) in
        if length l <? sm_capacity m then l ++ [e] else tl l ++ [e]
    end in
  {| sm_size := sm_size m;
     sm_capacity := sm_capacity m;
     sm_default := sm_default m;
     sm_trails := write (sm_trails m) u l' |}.

#[export] Instance SelectivePhmem_T : SelectivePhmemT SelectivePhmem := {
  sp_capacity := sm_capacity;
  sp_default_pheromone := sm_default;
  sp_get_indices := fun m u slot => fst (sm_slot m u slot);
  sp_get_pheromone := fun m u slot => snd (sm_slot m u slot);
  sp_get := sm_get;
  sp_unsafe_warp_update := fun m u v decay deposit =>
    sm_update_dir (sm_update_dir m u v decay deposit) v u decay deposit
}.

(** ** Selective-memory construction: [acs_spm_calc_solution] (lines 263-441) *)
Section SpmCalcSolution.

Context {SP : Type} `{SelectivePhmemT SP}.

Variable q0 phi : Q.                       (* acs_params *)
(** [memory.default_pheromone()], read once when the kernel starts. *)
Variable initial_pheromone : Q.
Variable dimension : nat.
Variable heuristic_matrix dist_matrix : nat -> Q.
Variable nn_lists : nat -> nat.
Variable NN_SIZE : nat.
Variable pher_mem_update_freq : nat.
Variable block_dim : nat.
Variable draws : nat -> Q.
(** The content of the register [my_node] of a lane that never assigned it. *)
Variable uninitialised : nat -> nat.

Record SpmState : Type := mkSpmState {
  spm_was_visited : list Z;
  spm_route : list nat;
  spm_curr_pos : nat;
  spm_memory : SP;
  spm_rng : nat
}.

Definition spm_init (route0 : list nat) (memory : SP) (rng0 : nat) : SpmState :=
  let first_node := nth 0 route0 0 in
  {| spm_was_visited := set_node_visited (repeat 0%Z MAX_VISITED_SIZE) first_node;
     spm_route := route0;
     spm_curr_pos := first_node;
     spm_memory := memory;
     spm_rng := rng0 |}.

Section SpmStep.

Variable visited : nat -> bool.            (* WAS_VISITED *)
Variable curr : nat.
Variable memory : SP.

Definition spm_nn_id (tid : nat) : nat := nn_lists (curr * NN_SIZE + tid).

Definition is_nn_unvisited (tid : nat) : bool := negb (visited (spm_nn_id tid)).

(** [heuristic_ptr[i]] *)
Definition heuristic_ptr (i : nat) : Q := heuristic_matrix (dimension * curr + i).

(** [(my_node, my_product)] of a lane in the exploitation branch
    (lines 321-328). *)
Definition short_list_lane (tid : nat) : nat * Q :=
  if tid <? sp_capacity memory then
    let my_node := sp_get_indices memory curr tid in
    if (my_node <? dimension) && negb (visited my_node)
    then (my_node, (sp_get_pheromone memory curr tid * heuristic_ptr my_node)%Q)
    else (my_node, 0%Q)
  else (uninitialised tid, 0%Q).

(** The values compared by thread 0 in the exploitation branch. *)
Definition exploit_best_short_list : nat * Q :=
  warp_reduce_arg_max_ext (dimension, 0%Q)
                          (map short_list_lane (seq 0 WARP_SIZE)).

Definition exploit_closest_unvisited_nn : nat :=
  let first_unvisited_idx :=
    ffs (ballot (map is_nn_unvisited (seq 0 WARP_SIZE))) - 1 in
  warp_bcast dimension (map spm_nn_id (seq 0 WARP_SIZE)) first_unvisited_idx.

Definition exploit_nn_product : Q :=
  (initial_pheromone * heuristic_ptr exploit_closest_unvisited_nn)%Q.

(** Lines 337-341: the two assertions and the choice; [None] is a failed
    assertion. *)
Definition spm_exploit : option nat :=
  let '(best_node, max_product) := exploit_best_short_list in
  let nn_product := exploit_nn_product in
  if negb (Qltb 0 nn_product || Qltb 0 max_product) then None
  else
    let t := if Qltb max_product nn_product
             then exploit_closest_unvisited_nn else best_node in
    if visited t then None else Some t.

(** Score of a lane in the exploration branch (line 344). *)
Definition spm_nn_know (tid : nat) : Q :=
  if visited (spm_nn_id tid) then 0%Q
  else (heuristic_ptr (spm_nn_id tid) * sp_get memory curr (spm_nn_id tid))%Q.

(** The first warp's choice (lines 306-354). *)
Definition spm_select_from_nn (rng : nat) : option (nat * nat) :=
  let lanes := seq 0 WARP_SIZE in
  if any_lane (map is_nn_unvisited lanes) then
    let q := draws rng in
    if Qltb q q0 then
      match spm_exploit with
      | None => None
      | Some t => Some (t, S rng)
      end
    else
      let best_idx := roulette_index (map spm_nn_know lanes) (draws (S rng)) in
      let best_nn := warp_bcast dimension (map spm_nn_id lanes) best_idx in
      Some (if negb (visited best_nn) then best_nn else dimension, S (S rng))
  else Some (dimension, rng).

(** One turn of the fallback loop of a thread (lines 364-368). *)
Definition spm_scan_node (acc : nat * Q) (i : nat) : nat * Q :=
  let '(my_node, my_product) := acc in
  let node_total := ((if visited i then 0 else 1) * heuristic_ptr i)%Q in
  (if Qltb my_product node_total then i else my_node, fmax my_product node_total).

(** [(my_node, my_product)] of a thread before the warp reduction
    (lines 361-381). *)
Definition spm_fallback_thread (tid : nat) : nat * Q :=
  let '(my_node, my_product) :=
    fold_left spm_scan_node (stride tid block_dim dimension)
              (uninitialised tid, 0%Q) in
  let my_product := (my_product * initial_pheromone)%Q in
  if tid <? sp_capacity memory then
    let node := sp_get_indices memory curr tid in
    if (node <? dimension) && negb (visited node) then
      let product := (sp_get_pheromone memory curr tid * heuristic_ptr node)%Q in
      (if Qltb my_product product then node else my_node, fmax my_product product)
    else (my_node, my_product)
  else (my_node, my_product).

(** The fallback scan (lines 358-402). *)
Definition spm_fallback_scan : nat :=
  let num_warps := block_dim / WARP_SIZE in
  let warp w :=
    warp_reduce_arg_max_ext (dimension, 0%Q)
      (map spm_fallback_thread (seq (w * WARP_SIZE) WARP_SIZE)) in
  let partials := map warp (seq 0 num_warps) in
  match partials with
  | [] => dimension
  | _ => warp_reduce_arg_max (dimension, 0%Q) partials
  end.

End SpmStep.

(** One turn of the construction loop; the commit (lines 404-418) is run by
    the lanes of the first warp together. *)
Definition spm_step (st : option SpmState) (iter : nat) : option SpmState :=
  match st with
  | None => None
  | Some st =>
      let visited := is_node_visited (spm_was_visited st) in
      match spm_select_from_nn visited (spm_curr_pos st) (spm_memory st)
                               (spm_rng st) with
      | None => None
      | Some (next0, rng1) =>
          let next_node :=
            if next0 =? dimension
            then spm_fallback_scan visited (spm_curr_pos st) (spm_memory st)
            else next0 in
          let route1 := store (spm_route st) iter next_node in
          let v := nth (iter - 1) route1 0 in
          let u := next_node in
          Some {| spm_was_visited := set_node_visited (spm_was_visited st) next_node;
                  spm_route := route1;
                  spm_curr_pos := next_node;
                  spm_memory :=
                    if iter mod pher_mem_update_freq =? 0
                    then sp_unsafe_warp_update (spm_memory st) u v phi
                                               initial_pheromone
                    else spm_memory st;
                  spm_rng := rng1 |}
      end
  end.

(** [for (iter = 1; iter < dimension; ++iter)] *)
Definition spm_loop (st : SpmState) : option SpmState :=
  fold_left spm_step (seq 1 (dimension - 1)) (Some st).

Record SpmResult : Type := mkSpmResult {
  spm_res_route : list nat;
  spm_res_value : Q;
  spm_res_visited_count : nat;
  spm_res_memory : SP;
  spm_res_rng : nat
}.

(** The kernel after its first lines; it has no update on the closing
    edge. *)
Definition spm_calc_solution (route0 : list nat) (memory : SP) (rng0 : nat)
  : option SpmResult :=
  match spm_loop (spm_init route0 memory rng0) with
  | None => None
  | Some st =>
      Some {| spm_res_route := spm_route st;
              spm_res_value :=
                block_route_length dimension dist_matrix (spm_route st) block_dim;
              spm_res_visited_count := dimension;
              spm_res_memory := spm_memory st;
              spm_res_rng := spm_rng st |}
  end.

End SpmCalcSolution.

Definition acs_spm_calc_solution {SP : Type} `{SelectivePhmemT SP}
           (q0 phi : Q) (dimension : nat) (memory : SP)
           (heuristic_matrix dist_matrix : nat -> Q) (nn_lists : nat -> nat)
           (NN_SIZE pher_mem_update_freq block_dim : nat) (draws : nat -> Q)
           (uninitialised : nat -> nat) (route0 : list nat) (rng0 : nat)
  : option (SpmResult (SP := SP)) :=
  spm_calc_solution q0 phi (sp_default_pheromone memory) dimension
                    heuristic_matrix dist_matrix nn_lists NN_SIZE
                    pher_mem_update_freq block_dim draws uninitialised
                    route0 memory rng0.

(** ** Invariant of the construction loops

    After [iter] nodes were committed: the route buffer has its length, its
    first [iter] entries are distinct node indices, the visited set holds
    exactly them, and the current node is the last of them. *)
Definition route_invariant (dimension iter : nat) (visited : nat -> bool)
           (route : list nat) (curr : nat) : Prop :=
  length route = dimension /\
  0 < iter <= dimension /\
  NoDup (firstn iter route) /\
  (forall x, In x (firstn iter route) -> x < dimension) /\
  (forall n, visited n = true <-> In n (firstn iter route)) /\
  curr = nth (iter - 1) route 0.

(** Number of lanes of a vote that are set. *)
Definition count_true (p : list bool) : nat := length (filter (fun b => b) p).

(** Between two launches of the per-step kernel: the first
    [ant_visited_count] entries of the route are distinct node indices, and
    the marks hold all of them but possibly the last one, which the next
    launch marks first. *)
Definition separate_invariant {M : Type} (dimension : nat) (P : M -> Prop)
           (route : list nat) (visited_count : nat) (marked : list Z)
           (phmem : M) : Prop :=
  length route = dimension /\
  length marked = dimension /\
  0 < visited_count <= dimension /\
  NoDup (firstn visited_count route) /\
  (forall x, In x (firstn visited_count route) -> x < dimension) /\
  (forall n, negb (nth n marked 0 =? 0)%Z = true ->
             In n (firstn visited_count route)) /\
  (forall n, In n (firstn (visited_count - 1) route) ->
             negb (nth n marked 0 =? 0)%Z = true) /\
  P phmem.

(** ** Start of an iteration: [acs_ant_init] (lines 75-93)

    The start node [rng.rand_uint() % dimension] is written to [route[0]]
    of the ant; the rest of the buffer keeps what the previous iteration
    left. The kernel also sets the visited count to 1 and the value to 0. *)
Definition acs_ant_init (dimension rand_uint : nat) (route : list nat) : list nat :=
  store route 0 (rand_uint mod dimension).

(** The selective memory wrapped in the same way: the warp-wide update is
    one call, made by the lanes of the first warp together. *)
#[export] Instance Traced_SelectivePhmemT (SP : Type) `{SelectivePhmemT SP}
  : SelectivePhmemT (Traced SP) := {
  sp_capacity := fun t => sp_capacity (traced_mem t);
  sp_default_pheromone := fun t => sp_default_pheromone (traced_mem t);
  sp_get_indices := fun t => sp_get_indices (traced_mem t);
  sp_get_pheromone := fun t => sp_get_pheromone (traced_mem t);
  sp_get := fun t => sp_get (traced_mem t);
  sp_unsafe_warp_update := fun t u v decay deposit =>
    {| traced_mem := sp_unsafe_warp_update (traced_mem t) u v decay deposit;
       traced_calls := traced_calls t ++ [mkUpdateCall u v decay deposit] |}
}.

(** ** Local deposits in the words of the specification

    The deposit due after committing the node of step [t]: on the traversed
    edge, from the node just chosen to the previous one, with the local
    decay and the initial pheromone, when [t mod m = 0]. *)
Definition due_deposit (m : nat) (phi initial_pheromone : Q) (route : list nat)
           (t : nat) : list UpdateCall :=
  if t mod m =? 0
  then [mkUpdateCall (nth t route 0) (nth (t - 1) route 0) phi initial_pheromone]
  else [].

(** The deposits due over the steps [1 .. N-1] of a tour. *)
Definition due_deposits (m : nat) (phi initial_pheromone : Q) (route : list nat)
           (dimension : nat) : list UpdateCall :=
  flat_map (due_deposit m phi initial_pheromone route) (seq 1 (dimension - 1)).

(** The deposit on the closing edge, from the last node of the route to the
    first. *)
Definition closing_deposit (phi initial_pheromone : Q) (route : list nat)
           (dimension : nat) : UpdateCall :=
  mkUpdateCall (nth (dimension - 1) route 0) (nth 0 route 0) phi initial_pheromone.

(** ** Buffer initialisation: [fill] (lines 43-48) and [phmem_init]
    (lines 51-57) *)

(** [fill]: every thread of the block writes [value] to the cells
    [threadIdx.x, threadIdx.x + blockDim.x, ...] below [len]. *)
Definition fill {A : Type} (buffer : list A) (len : nat) (value : A)
           (block_dim : nat) : list A :=
  fold_left
    (fun buf tid =>
       fold_left (fun b i => store b i value) (stride tid block_dim len) buf)
    (seq 0 block_dim) buffer.

(** [phmem_init]: the cells of the memory are the array [phmem[0..size)],
    [size] being [phmem.size()]. The loop of a thread starts at
    [threadIdx.x] and steps by [blockDim.x * gridDim.x]; the blocks of the
    grid run the same loops one after the other. *)
Definition phmem_init (cells : nat -> Q) (size : nat) (value : Q)
           (block_dim grid_dim : nat) : nat -> Q :=
  let num_threads := block_dim * grid_dim in
  let block c :=
    fold_left
      (fun c tid =>
         fold_left (fun c i => write c i value) (stride tid num_threads size) c)
      (seq 0 block_dim) c in
  fold_left (fun c (_ : nat) => block c) (seq 0 grid_dim) cells.

(** ** Thread identifiers: [get_global_id] (lines 37-39) *)

(** A 32-bit unsigned result. *)
Definition uint32 (x : Z) : Z := (x mod 2 ^ 32)%Z.

(** The conversion of a 32-bit unsigned word to [int]. *)
Definition to_int (x : Z) : Z := if (x <? 2 ^ 31)%Z then x else (x - 2 ^ 32)%Z.

(** [blockIdx.x * blockDim.x + threadIdx.x]: the three operands are
    [unsigned int], so the product and the sum are taken modulo [2^32]; the
    result is returned as an [int]. *)
Definition get_global_id (block_idx block_dim thread_idx : Z) : Z :=
  to_int (uint32 (uint32 (block_idx * block_dim) + thread_idx)).

(** ** [acs_ant_init] over the grid (lines 75-93) *)

(** The three device buffers the kernel writes. *)
Record AntBuffers : Type := mkAntBuffers {
  dev_ant_values : list Q;
  dev_ant_visited_count : list nat;
  dev_ant_visited : list nat
}.

(** The body of the kernel for the thread [threadIdx.x] of block
    [blockIdx.x]; [rand_uint ant_id] is the value of [rng.rand_uint()] drawn
    from the generator of the ant. *)
Definition acs_ant_init_thread (dimension ants_count : nat)
           (rand_uint : nat -> nat) (block_dim block_idx : nat)
           (bufs : AntBuffers) (thread_idx : nat) : AntBuffers :=
  let ant_id := block_idx * block_dim + thread_idx in
  if ant_id <? ants_count then
    let node := rand_uint ant_id mod dimension in
    {| dev_ant_values := store (dev_ant_values bufs) ant_id 0%Q;
       dev_ant_visited_count := store (dev_ant_visited_count bufs) ant_id 1;
       dev_ant_visited := store (dev_ant_visited bufs) (ant_id * dimension) node |}
  else bufs.

(** The launch [acs_ant_init<<<grid_dim, block_dim>>>], the threads taken
    in the order of their identifier. *)
Definition acs_ant_init_grid (dimension ants_count : nat)
           (rand_uint : nat -> nat) (grid_dim block_dim : nat)
           (bufs : AntBuffers) : AntBuffers :=
  fold_left
    (fun b block_idx =>
       fold_left (acs_ant_init_thread dimension ants_count rand_uint
                                      block_dim block_idx)
                 (seq 0 block_dim) b)
    (seq 0 grid_dim) bufs.

(** ** Spin lock (lines 27-34) *)

(** [atomicCAS(address, compare, val)]: the word becomes [val] when it held
    [compare]; the old content is returned. The result is the pair of the
    new content and the returned value. *)
Definition atomicCAS (word compare val : Z) : Z * Z :=
  (if (word =? compare)%Z then val else word, word).

(** [atomicExch(address, val)] *)
Definition atomicExch (word val : Z) : Z * Z := (val, word).

(** One turn of the loop of [lock]: [atomicCAS(mutex, 0, 1) != 0] keeps
    the caller in the loop. The result is the new content of the mutex and
    whether [lock] returns. *)
Definition lock_turn (mutex : Z) : Z * bool :=
  let '(mutex', old) := atomicCAS mutex 0 1 in
  (mutex', (old =? 0)%Z).

(** [unlock] *)
Definition unlock (mutex : Z) : Z := fst (atomicExch mutex 0).

(** Where a thread that brackets its critical sections by [lock] and
    [unlock] stands: in the loop of [lock] (or before it), or between the
    return of [lock] and its call of [unlock]. *)
Inductive LockPc : Type := Spinning | Holding.

Record LockState : Type := mkLockState {
  mutex_word : Z;
  lock_pcs : list LockPc
}.

(** Thread [t] makes its next atomic step. *)
Definition lock_step (s : LockState) (t : nat) : LockState :=
  match nth_error (lock_pcs s) t with
  | Some Spinning =>
      let '(mutex', acquired) := lock_turn (mutex_word s) in
      {| mutex_word := mutex';
         lock_pcs := if acquired then store (lock_pcs s) t Holding
                     else lock_pcs s |}
  | Some Holding =>
      {| mutex_word := unlock (mutex_word s);
         lock_pcs := store (lock_pcs s) t Spinning |}
  | None => s
  end.

(** The threads step in the order of a schedule. *)
Definition lock_run (schedule : list nat) (s : LockState) : LockState :=
  fold_left lock_step schedule s.

(** The number of threads between the return of [lock] and [unlock]. *)
Definition holding (pcs : list LockPc) : nat :=
  length (filter (fun pc => match pc with Holding => true | Spinning => false end)
                 pcs).

Definition holders (s : LockState) : nat := holding (lock_pcs s).

(** ** Global pheromone update, sequential (lines 617-632) *)

(** The device function [global_pheromone_update]: one thread walks the
    best route and hands every edge to [phmem.update]. *)
Definition global_pheromone_update {M : Type} `{PhmemT M} (dimension : nat)
           (rho : Q) (phmem : M) (best_value : Q) (best_route : list nat) : M :=
  let delta := (1 / best_value)%Q in
  fold_left
    (fun ph i =>
       let u := nth i best_route 0 in
       let v := nth ((i + 1) mod dimension) best_route 0 in
       ph_update ph u v rho delta)
    (seq 0 dimension) phmem.

(** ** Global pheromone update of the selective memory (lines 680-698) *)

(** What a warp of block [blockIdx.x] does, one element per block:
    [i = blockIdx.x; i < dimension; i += gridDim.x]. The lanes of the warp
    make the call of [unsafe_warp_update] together; [None] is the failed
    assertion [u < dimension && v < dimension]. *)
Definition acs_global_pheromone_update_spm {SP : Type} `{SelectivePhmemT SP}
           (dimension : nat) (rho : Q) (memory : SP) (best_value : Q)
           (best_route : list nat) (block_idx grid_dim : nat) : option SP :=
  let delta := (1 / best_value)%Q in
  fold_left
    (fun mem i =>
       match mem with
       | None => None
       | Some m =>
           let u := nth i best_route 0 in
           let v := nth ((i + 1) mod dimension) best_route 0 in
           if (u <? dimension) && (v <? dimension)
           then Some (sp_unsafe_warp_update m u v rho delta)
           else None
       end)
    (stride block_idx grid_dim dimension) (Some memory).

(** The call the global update makes for the edge that starts at position
    [i] of the best route. *)
Definition global_update_call_of (dimension : nat) (rho best_value : Q)
           (best_route : list nat) (i : nat) : UpdateCall :=
  mkUpdateCall (nth i best_route 0) (nth ((i + 1) mod dimension) best_route 0)
               rho (1 / best_value)%Q.

(** ** [GPUACSSeparate::build_ant_solutions] (lines 1262-1303)

    For the ant [ant_id]: [fill<<<1, 128>>>] clears the marks of all the
    ants, the selection kernel is launched [dimension - 1] times with
    [threads_per_block] threads, and [eval_ants_solutions<<<ants_count,
    WARP_SIZE>>>] computes the length of the route. [acs_ant_init] left the
    start node in [route0] and 1 in the visited count. *)
Definition GPUACSSeparate_build_ant_solutions {M : Type} `{PhmemT M}
           (q0 phi initial_pheromone : Q) (dimension ants_count : nat)
           (heuristic_matrix dist_matrix : nat -> Q) (nn_lists : nat -> nat)
           (NN_SIZE threads_per_block pher_mem_update_freq : nat)
           (draws : nat -> Q) (dev_ants_marked_nodes : list Z)
           (ant_id : nat) (route0 : list nat) (phmem0 : M) (rng0 : nat)
  : option (AntState * Q) :=
  let marks := fill dev_ants_marked_nodes (dimension * ants_count) 0%Z 128 in
  let st0 := {| ant_route := route0;
                ant_visited_count := 1;
                ant_marked_nodes := slice marks (ant_id * dimension) dimension;
                ant_phmem := phmem0;
                ant_rng := rng0 |} in
  match select_next_nodes q0 phi initial_pheromone dimension heuristic_matrix
          nn_lists NN_SIZE threads_per_block draws pher_mem_update_freq
          (dimension - 1) st0 with
  | None => None
  | Some st =>
      match eval_ants_solutions dimension dist_matrix WARP_SIZE
                                (ant_visited_count st) (ant_route st) with
      | None => None
      | Some value => Some (st, value)
      end
  end.

(** ** Best record over a run *)

(** The minimum ant value of an iteration, as the controller finds it. *)
Definition iteration_best (ants_count : nat) (ant_values : list Q) : Q :=
  nth (find_best_index ant_values ants_count) ant_values 0%Q.

(** ** [build_ant_solutions] of the other two strategies *)

(** [GPUACS<TPhmem>::build_ant_solutions] (lines 1055-1078) for one ant:
    [fill<<<1, 128>>>] sets the cells of the hot cache to [dimension] (the
    kernel does not receive the cache) and the monolithic kernel is launched
    with [threads_per_block_] threads. The result is the cache and what the
    block of the ant leaves behind. *)
Definition GPUACS_build_ant_solutions {M : Type} `{PhmemT M}
           (q0 phi initial_pheromone : Q) (dimension : nat)
           (heuristic_matrix dist_matrix : nat -> Q) (nn_lists : nat -> nat)
           (NN_SIZE pher_mem_update_freq threads_per_block_ : nat)
           (draws : nat -> Q) (dev_nn_hot_cache : list nat)
           (route0 : list nat) (phmem0 : M) (rng0 : nat)
  : list nat * CalcResult :=
  (fill dev_nn_hot_cache dimension dimension 128,
   acs_calc_solution q0 phi initial_pheromone dimension heuristic_matrix
                     dist_matrix nn_lists NN_SIZE pher_mem_update_freq
                     threads_per_block_ draws route0 phmem0 rng0).

(** [GPUACSSelectiveMemory::build_ant_solutions] (lines 1180-1200) for one
    ant: [threads_per_block_] of the run context is ignored, the kernel is
    launched with 32 threads. *)
Definition GPUACSSelectiveMemory_build_ant_solutions
           {SP : Type} `{SelectivePhmemT SP}
           (q0 phi : Q) (dimension : nat) (dev_phmem : SP)
           (heuristic_matrix dist_matrix : nat -> Q) (nn_lists : nat -> nat)
           (NN_SIZE pher_mem_update_freq threads_per_block_ : nat)
           (draws : nat -> Q) (uninitialised : nat -> nat)
           (route0 : list nat) (rng0 : nat)
  : option (SpmResult (SP := SP)) :=
  let threads_per_block := 32 in
  acs_spm_calc_solution q0 phi dimension dev_phmem heuristic_matrix dist_matrix
                        nn_lists NN_SIZE pher_mem_update_freq threads_per_block
                        draws uninitialised route0 rng0.

(* ================================================================== *)
(** * Properties *)

(** ** Helpers about buffers and loops *)

Lemma write_eq {A : Type} (m : nat -> A) k x : write m k x k = x.
Proof. unfold write. now rewrite Nat.eqb_refl. Qed.

Lemma write_neq {A : Type} (m : nat -> A) k x j : j <> k -> write m k x j = m j.
Proof. unfold write. intros H. apply Nat.eqb_neq in H. now rewrite H. Qed.

Lemma stride_loop_bound fuel i step bound x :
  In x (stride_loop fuel i step bound) -> i <= x < bound.
Proof.
  revert i. induction fuel as [|f IH]; simpl; intros i H; [easy|].
  destruct (i <? bound) eqn:E; [|easy].
  apply Nat.ltb_lt in E. destruct H as [<-|H]; [lia|].
  apply IH in H. lia.
Qed.

Lemma stride_loop_congr fuel i step bound x :
  In x (stride_loop fuel i step bound) -> exists j, x = i + j * step.
Proof.
  revert i. induction fuel as [|f IH]; simpl; intros i H; [easy|].
  destruct (i <? bound); [|easy].
  destruct H as [<-|H]; [exists 0; lia|].
  apply IH in H. destruct H as [j ->]. exists (S j). lia.
Qed.

Lemma stride_loop_complete fuel step bound j i :
  0 < step -> i + j * step < bound -> bound <= i + fuel * step ->
  In (i + j * step) (stride_loop fuel i step bound).
Proof.
  intros Hs. revert fuel i. induction j as [|j IH]; intros fuel i Hlt Hf.
  - destruct fuel as [|f]; simpl in *; [lia|].
    assert (E : (i <? bound) = true) by (apply Nat.ltb_lt; lia).
    rewrite E. left. lia.
  - destruct fuel as [|f]; simpl in Hf |- *; [lia|].
    assert (E : (i <? bound) = true) by (apply Nat.ltb_lt; nia).
    rewrite E. right.
    replace (i + (step + j * step)) with ((i + step) + j * step) by lia.
    apply IH; lia.
Qed.

Lemma stride_loop_NoDup fuel i step bound :
  0 < step -> NoDup (stride_loop fuel i step bound).
Proof.
  intros Hs. revert i. induction fuel as [|f IH]; simpl; intros i; [constructor|].
  destruct (i <? bound); [|constructor].
  constructor; [|apply IH].
  intros H. apply stride_loop_bound in H. lia.
Qed.

Lemma stride_In start step bound x :
  0 < step ->
  In x (stride start step bound) <->
  (x < bound /\ exists j, x = start + j * step).
Proof.
  intros Hs. unfold stride. split.
  - intros H. split; [apply stride_loop_bound in H; lia|].
    eapply stride_loop_congr; eauto.
  - intros [Hlt [j ->]]. apply stride_loop_complete; try lia. nia.
Qed.

Lemma fold_left_flat_map {A B C : Type} (f : A -> B -> A) (g : C -> list B)
      (l : list C) (a : A) :
  fold_left f (flat_map g l) a = fold_left (fun acc x => fold_left f (g x) acc) l a.
Proof.
  revert a. induction l as [|c l IH]; simpl; intros a; [reflexivity|].
  now rewrite fold_left_app, IH.
Qed.

Lemma NoDup_flat_map_disjoint {A B : Type} (g : A -> list B) (l : list A) :
  NoDup l ->
  (forall a, In a l -> NoDup (g a)) ->
  (forall a b x, In a l -> In b l -> In x (g a) -> In x (g b) -> a = b) ->
  NoDup (flat_map g l).
Proof.
  induction l as [|a l IH]; simpl; intros Hl Hg Hd; [constructor|].
  inversion Hl as [|? ? Hnotin Hl']; subst.
  apply NoDup_app.
  - apply Hg. now left.
  - apply IH; auto. intros b c x Hb Hc. apply Hd; now right.
  - intros x Hx Hx'. apply in_flat_map in Hx'. destruct Hx' as [b [Hb Hxb]].
    assert (a = b) by (apply (Hd a b x); auto). subst. contradiction.
Qed.

(** The threads of a block, each running its strided loop, handle every
    index below [bound] exactly once. *)
Lemma block_strides_cover (block_dim bound : nat) :
  0 < block_dim ->
  Permutation (flat_map (fun tid => stride tid block_dim bound) (seq 0 block_dim))
              (seq 0 bound).
Proof.
  intros Hb. apply NoDup_Permutation.
  - apply NoDup_flat_map_disjoint.
    + apply seq_NoDup.
    + intros a _. apply stride_loop_NoDup; assumption.
    + intros a b x Ha Hb' Hxa Hxb.
      apply in_seq in Ha. apply in_seq in Hb'.
      apply stride_In in Hxa; [|assumption]. apply stride_In in Hxb; [|assumption].
      destruct Hxa as [_ [j ->]]. destruct Hxb as [_ [j' E]].
      assert (Ea : (a + j * block_dim) mod block_dim = a).
      { rewrite Nat.Div0.mod_add. apply Nat.mod_small. lia. }
      assert (Eb : (b + j' * block_dim) mod block_dim = b).
      { rewrite Nat.Div0.mod_add. apply Nat.mod_small. lia. }
      rewrite E in Ea. congruence.
  - apply seq_NoDup.
  - intros x. rewrite in_flat_map, in_seq. split.
    + intros [tid [_ Hx]]. apply stride_In in Hx; [lia|assumption].
    + intros Hx. exists (x mod block_dim). split.
      * apply in_seq. pose proof (Nat.mod_upper_bound x block_dim). lia.
      * apply stride_In; [assumption|]. split; [lia|].
        exists (x / block_dim). pose proof (Nat.div_mod_eq x block_dim). lia.
Qed.

(** ** Global pheromone update *)

Lemma cell_inj dimension u v u' v' :
  v < dimension -> v' < dimension ->
  cell dimension u v = cell dimension u' v' -> u = u' /\ v = v'.
Proof.
  unfold cell. intros Hv Hv' E.
  assert (Hu : u = u').
  { rewrite (Nat.div_unique (u * dimension + v) dimension u v) by lia.
    rewrite E. symmetry. apply Nat.div_unique with v'; lia. }
  subst u'. lia.
Qed.

(** Below the cap of the visited bitmask a matrix index computed in 32-bit
    unsigned arithmetic does not wrap. *)
Lemma cell_index_fits dimension u v :
  dimension <= MAX_VISITED_SIZE * WARP_SIZE -> u < dimension -> v < dimension ->
  (Z.of_nat (cell dimension u v) mod 2 ^ 32 = Z.of_nat (cell dimension u v))%Z.
Proof.
  unfold cell, MAX_VISITED_SIZE, WARP_SIZE. intros Hd Hu Hv.
  apply Z.mod_small. split; [apply Nat2Z.is_nonneg|].
  rewrite Nat2Z.inj_add, Nat2Z.inj_mul.
  change (2 ^ 32)%Z with 4294967296%Z.
  assert (Hd' : (Z.of_nat dimension <= 15136)%Z) by lia.
  assert (Hu' : (0 <= Z.of_nat u < Z.of_nat dimension)%Z) by lia.
  assert (Hv' : (0 <= Z.of_nat v < Z.of_nat dimension)%Z) by lia.
  nia.
Qed.

Section GlobalUpdateFacts.

Variable dimension : nat.
Variable rho : Q.
Variable best_route : list nat.
Variable delta : Q.

Let u_of (i : nat) := nth i best_route 0.
Let v_of (i : nat) := nth ((i + 1) mod dimension) best_route 0.
Let step := global_update_edge dimension rho best_route delta.

Lemma global_update_edge_uv pm i :
  step pm i (cell dimension (u_of i) (v_of i)) =
  pheromone_rule rho (pm (cell dimension (u_of i) (v_of i))) delta.
Proof.
  unfold step, global_update_edge. fold (u_of i) (v_of i).
  unfold write. destruct (Nat.eqb _ (cell dimension (v_of i) (u_of i))); [reflexivity|].
  now rewrite Nat.eqb_refl.
Qed.

Lemma global_update_edge_vu pm i :
  step pm i (cell dimension (v_of i) (u_of i)) =
  pheromone_rule rho (pm (cell dimension (u_of i) (v_of i))) delta.
Proof.
  unfold step, global_update_edge. fold (u_of i) (v_of i).
  apply write_eq.
Qed.

Lemma global_update_edge_frame pm i k :
  k <> cell dimension (u_of i) (v_of i) ->
  k <> cell dimension (v_of i) (u_of i) ->
  step pm i k = pm k.
Proof.
  intros H1 H2. unfold step, global_update_edge. fold (u_of i) (v_of i).
  rewrite write_neq by assumption. now rewrite write_neq by assumption.
Qed.

Hypothesis Hlen : length best_route = dimension.
Hypothesis Hnodup : NoDup best_route.
Hypothesis Hrange : forall x, In x best_route -> x < dimension.
Hypothesis Hdim : 3 <= dimension.

Lemma route_u_lt i : i < dimension -> u_of i < dimension.
Proof. intros H. apply Hrange, nth_In. lia. Qed.

Lemma route_v_lt i : v_of i < dimension.
Proof.
  apply Hrange, nth_In. rewrite Hlen. apply Nat.mod_upper_bound. lia.
Qed.

Lemma route_nth_inj i j :
  i < dimension -> j < dimension ->
  nth i best_route 0 = nth j best_route 0 -> i = j.
Proof.
  intros Hi Hj. pose proof (proj1 (NoDup_nth best_route 0) Hnodup i j) as H.
  apply H; lia.
Qed.

(** Two different edge indices of a tour over at least three nodes touch
    disjoint cells. *)
Lemma edges_disjoint i j :
  i < dimension -> j < dimension -> i <> j ->
  cell dimension (u_of i) (v_of i) <> cell dimension (u_of j) (v_of j) /\
  cell dimension (u_of i) (v_of i) <> cell dimension (v_of j) (u_of j) /\
  cell dimension (v_of i) (u_of i) <> cell dimension (u_of j) (v_of j) /\
  cell dimension (v_of i) (u_of i) <> cell dimension (v_of j) (u_of j).
Proof.
  intros Hi Hj Hij.
  pose proof (route_u_lt i Hi) as Hui. pose proof (route_u_lt j Hj) as Huj.
  pose proof (route_v_lt i) as Hvi. pose proof (route_v_lt j) as Hvj.
  assert (Hmi : (i + 1) mod dimension < dimension) by (apply Nat.mod_upper_bound; lia).
  assert (Hmj : (j + 1) mod dimension < dimension) by (apply Nat.mod_upper_bound; lia).
  assert (Hsucc : forall a b, a < dimension -> b < dimension ->
            (a + 1) mod dimension = b -> (b + 1) mod dimension = a -> False).
  { intros a b Ha Hb E1 E2.
    destruct (Nat.eq_dec (a + 1) dimension) as [Ea|Ea].
    - rewrite Ea, Nat.Div0.mod_same in E1. subst b.
      rewrite Nat.mod_small in E2 by lia. lia.
    - rewrite Nat.mod_small in E1 by lia. subst b.
      destruct (Nat.eq_dec (a + 1 + 1) dimension) as [Eb|Eb].
      + rewrite Eb, Nat.Div0.mod_same in E2. lia.
      + rewrite Nat.mod_small in E2 by lia. lia. }
  repeat split; intros E; apply cell_inj in E; try assumption; destruct E as [E1 E2].
  - apply Hij. now apply route_nth_inj.
  - apply route_nth_inj in E1; [|assumption|assumption].
    apply route_nth_inj in E2; [|assumption|assumption].
    apply (Hsucc j i); auto.
  - apply route_nth_inj in E1; [|assumption|assumption].
    apply route_nth_inj in E2; [|assumption|assumption].
    apply (Hsucc i j); auto.
  - apply Hij. now apply route_nth_inj.
Qed.

Lemma global_update_fold_frame (order : list nat) pm k :
  (forall j, In j order ->
             k <> cell dimension (u_of j) (v_of j) /\
             k <> cell dimension (v_of j) (u_of j)) ->
  fold_left step order pm k = pm k.
Proof.
  revert pm. induction order as [|j order IH]; simpl; intros pm H; [reflexivity|].
  rewrite IH by (intros j' Hj'; apply H; now right).
  apply global_update_edge_frame; apply H; now left.
Qed.

Lemma global_update_fold_edge (order : list nat) pm i :
  NoDup order -> (forall j, In j order -> j < dimension) -> In i order ->
  fold_left step order pm (cell dimension (u_of i) (v_of i)) =
    pheromone_rule rho (pm (cell dimension (u_of i) (v_of i))) delta /\
  fold_left step order pm (cell dimension (v_of i) (u_of i)) =
    pheromone_rule rho (pm (cell dimension (u_of i) (v_of i))) delta.
Proof.
  revert pm. induction order as [|j order IH]; simpl; intros pm Hnd Hlt Hin; [easy|].
  apply NoDup_cons_iff in Hnd. destruct Hnd as [Hnotin Hnd'].
  assert (Hi : i < dimension) by (apply Hlt; assumption).
  destruct (Nat.eq_dec j i) as [->|Hji].
  - assert (Hfr : forall j, In j order ->
              i <> j) by (intros j Hj ->; contradiction).
    split.
    + rewrite global_update_fold_frame; [apply global_update_edge_uv|].
      intros j Hj. pose proof (edges_disjoint i j Hi (Hlt j (or_intror Hj)) (Hfr j Hj)).
      tauto.
    + rewrite global_update_fold_frame; [apply global_update_edge_vu|].
      intros j Hj. pose proof (edges_disjoint i j Hi (Hlt j (or_intror Hj)) (Hfr j Hj)).
      tauto.
  - destruct Hin as [Hin|Hin]; [contradiction|].
    destruct (IH (step pm j) Hnd' (fun x Hx => Hlt x (or_intror Hx)) Hin) as [E1 E2].
    rewrite E1, E2.
    pose proof (edges_disjoint i j Hi (Hlt j (or_introl eq_refl)) (not_eq_sym Hji)) as D.
    rewrite global_update_edge_frame by tauto. auto.
Qed.

End GlobalUpdateFacts.

Lemma valid_route_Permutation route dimension :
  is_valid_route route dimension = true <-> Permutation route (seq 0 dimension).
Proof.
  unfold is_valid_route. rewrite andb_true_iff, Nat.eqb_eq, forallb_forall. split.
  - intros [Hlen Hall]. symmetry. apply NoDup_Permutation_bis.
    + apply seq_NoDup.
    + rewrite length_seq. lia.
    + intros k Hk. apply Hall in Hk. apply existsb_exists in Hk.
      destruct Hk as [x [Hx E]]. apply Nat.eqb_eq in E. now subst.
  - intros HP. split.
    + apply Permutation_length in HP. now rewrite length_seq in HP.
    + intros k Hk. apply existsb_exists. exists k. split; [|apply Nat.eqb_refl].
      eapply Permutation_in; [symmetry; apply HP|assumption].
Qed.

Lemma valid_route_facts route dimension :
  is_valid_route route dimension = true ->
  length route = dimension /\ NoDup route /\ (forall x, In x route -> x < dimension).
Proof.
  intros H. apply valid_route_Permutation in H. repeat split.
  - apply Permutation_length in H. now rewrite length_seq in H.
  - eapply Permutation_NoDup; [symmetry; apply H|apply seq_NoDup].
  - intros x Hx. eapply Permutation_in in Hx; [|apply H]. apply in_seq in Hx. lia.
Qed.

Lemma matrix_global_update_fold dimension rho best_route delta (l : list nat) :
  forall m : MatrixPhmem,
    mp_dimension m = dimension ->
    let m' := fold_left (global_update_call dimension rho best_route delta) l m in
    mp_dimension m' = dimension /\
    mp_cells m' =
    fold_left (global_update_edge dimension rho best_route delta) l (mp_cells m).
Proof.
  induction l as [|i l IH]; intros m Hd; cbn [fold_left]; [auto|].
  destruct (IH (global_update_call dimension rho best_route delta m i)) as [Hd' Hc'].
  - unfold global_update_call. simpl. exact Hd.
  - split; [exact Hd'|]. cbv zeta in Hc'. rewrite Hc'. f_equal.
    unfold global_update_call, global_update_edge. simpl. now rewrite Hd.
Qed.

Lemma matrix_global_update_same dimension rho best_value best_route
      block_dim grid_dim (m : MatrixPhmem) :
  mp_dimension m = dimension ->
  mp_cells (acs_global_pheromone_update_phmem dimension rho m best_value
              best_route block_dim grid_dim) =
  acs_global_pheromone_update dimension rho best_route (mp_cells m) best_value
                              block_dim grid_dim.
Proof.
  unfold acs_global_pheromone_update_phmem, acs_global_pheromone_update,
    global_update_thread.
  generalize (seq 0 block_dim). intros tids. revert m.
  induction tids as [|tid tids IH]; intros m Hd; cbn [fold_left]; [reflexivity|].
  destruct (matrix_global_update_fold dimension rho best_route (1 / best_value)
              (stride tid (block_dim * grid_dim) dimension) m Hd) as [Hd' Hc'].
  rewrite IH by exact Hd'. now rewrite Hc'.
Qed.

(** C6: with [delta = 1 / best_length], the global update handles every
    index [i] in [0,N) exactly once and leaves, for every edge
    [(best_route[i], best_route[(i+1) mod N])] of the best tour (the closing
    edge included), the value [(1-rho)*old + rho*(1/best_length)] in both
    cells [(u,v)] and [(v,u)], whose indices fit 32 bits; the overload that
    goes through the memory leaves the same values in a dense memory. The
    kernel is launched with one block, on a valid best route of at least
    three nodes and a positive best length. *)
Theorem global_update_reinforces_every_edge
        (dimension : nat) (rho best_value : Q) (best_route : list nat)
        (pheromone_matrix : nat -> Q) (block_dim : nat) :
  0 < block_dim <= 1024 ->
  3 <= dimension <= MAX_VISITED_SIZE * WARP_SIZE ->
  (0 < best_value)%Q ->
  is_valid_route best_route dimension = true ->
  let updated := acs_global_pheromone_update dimension rho best_route
                   pheromone_matrix best_value block_dim 1 in
  let delta := (1 / best_value)%Q in
  Permutation (global_update_schedule dimension block_dim 1) (seq 0 dimension) /\
  updated = fold_left (global_update_edge dimension rho best_route delta)
                      (global_update_schedule dimension block_dim 1)
                      pheromone_matrix /\
  mp_cells (acs_global_pheromone_update_phmem dimension rho
              (mkMatrixPhmem dimension pheromone_matrix) best_value best_route
              block_dim 1) = updated /\
  forall i, i < dimension ->
    let u := nth i best_route 0 in
    let v := nth ((i + 1) mod dimension) best_route 0 in
    let old := pheromone_matrix (u * dimension + v) in
    (Z.of_nat (u * dimension + v) mod 2 ^ 32 = Z.of_nat (u * dimension + v))%Z /\
    (Z.of_nat (v * dimension + u) mod 2 ^ 32 = Z.of_nat (v * dimension + u))%Z /\
    updated (u * dimension + v) = ((1 - rho) * old + rho * (1 / best_value))%Q /\
    updated (v * dimension + u) = ((1 - rho) * old + rho * (1 / best_value))%Q.
Proof.
  intros [Hb _] [Hd Hcap] _ Hvalid updated delta.
  destruct (valid_route_facts _ _ Hvalid) as [Hlen [Hnd Hrange]].
  assert (Hperm : Permutation (global_update_schedule dimension block_dim 1)
                              (seq 0 dimension)).
  { unfold global_update_schedule. rewrite Nat.mul_1_r.
    now apply block_strides_cover. }
  assert (Hfold : updated =
                  fold_left (global_update_edge dimension rho best_route delta)
                            (global_update_schedule dimension block_dim 1)
                            pheromone_matrix).
  { unfold updated, acs_global_pheromone_update, global_update_schedule.
    now rewrite fold_left_flat_map. }
  split; [assumption|]. split; [assumption|].
  split; [now apply matrix_global_update_same|].
  intros i Hi u v old.
  assert (Hu : u < dimension) by (apply Hrange, nth_In; lia).
  assert (Hv : v < dimension).
  { apply Hrange, nth_In. rewrite Hlen. apply Nat.mod_upper_bound. lia. }
  split; [apply (cell_index_fits dimension u v Hcap Hu Hv)|].
  split; [apply (cell_index_fits dimension v u Hcap Hv Hu)|].
  rewrite Hfold.
  destruct (global_update_fold_edge dimension rho best_route delta Hlen Hnd Hrange Hd
              (global_update_schedule dimension block_dim 1) pheromone_matrix i)
    as [E1 E2].
  - eapply Permutation_NoDup; [symmetry; apply Hperm|apply seq_NoDup].
  - intros j Hj. eapply Permutation_in in Hj; [|apply Hperm].
    apply in_seq in Hj. lia.
  - eapply Permutation_in; [symmetry; apply Hperm|]. apply in_seq. lia.
  - split; [exact E1|exact E2].
Qed.

Lemma global_update_reinforces_every_edge_witness :
  let pm := acs_global_pheromone_update 3 (1 # 10) [2; 0; 1] (fun _ => 1%Q)
              (10 # 1) 128 1 in
  pm (1 * 3 + 2) = ((1 - (1 # 10)) * 1 + (1 # 10) * (1 / (10 # 1)))%Q /\
  pm (2 * 3 + 1) = ((1 - (1 # 10)) * 1 + (1 # 10) * (1 / (10 # 1)))%Q.
Proof.
  pose proof (global_update_reinforces_every_edge 3 (1 # 10) (10 # 1) [2; 0; 1]
                (fun _ => 1%Q) 128) as H.
  destruct H as [_ [_ [_ H]]];
    [lia | unfold MAX_VISITED_SIZE, WARP_SIZE; lia | reflexivity | reflexivity |].
  destruct (H 2 (Nat.lt_succ_diag_r 2)) as [_ [_ H2]]. exact H2.
Defined.

(** ** Pheromone update rule at the extreme decays *)

(** C9: for the rule [new = (1-decay)*old + decay*deposit], decay 0 leaves
    the stored value unchanged and decay 1 stores exactly the deposit, for
    every edge and every old value; the same holds for the cells written by
    the global update. *)
Theorem pheromone_rule_decay_extremes (old deposit : Q) :
  (pheromone_rule 0 old deposit == old)%Q /\
  (pheromone_rule 1 old deposit == deposit)%Q /\
  forall dimension best_route pheromone_matrix i,
    let u := nth i best_route 0 in
    let v := nth ((i + 1) mod dimension) best_route 0 in
    (global_update_edge dimension 0 best_route deposit pheromone_matrix i
       (cell dimension u v) == pheromone_matrix (cell dimension u v))%Q /\
    (global_update_edge dimension 1 best_route deposit pheromone_matrix i
       (cell dimension u v) == deposit)%Q /\
    (global_update_edge dimension 1 best_route deposit pheromone_matrix i
       (cell dimension v u) == deposit)%Q.
Proof.
  split; [unfold pheromone_rule; ring|].
  split; [unfold pheromone_rule; ring|].
  intros dimension best_route pm i u v.
  unfold u, v.
  rewrite !global_update_edge_uv, global_update_edge_vu.
  unfold pheromone_rule. repeat split; ring.
Qed.

(** ** Run controller *)

Lemma Qltb_lt a b : Qltb a b = true <-> (a < b)%Q.
Proof.
  unfold Qltb. rewrite Qlt_alt. destruct (a ?= b)%Q; split; congruence.
Qed.

Lemma Qltb_ge a b : Qltb a b = false <-> (b <= a)%Q.
Proof.
  split; intros H.
  - apply Qnot_lt_le. intros Hlt. apply Qltb_lt in Hlt. congruence.
  - destruct (Qltb a b) eqn:E; [|reflexivity].
    apply Qltb_lt in E. exfalso. revert E. now apply Qle_not_lt.
Qed.

Lemma Qleb_le a b : Qleb a b = true <-> (a <= b)%Q.
Proof.
  unfold Qleb. rewrite Qle_alt. destruct (a ?= b)%Q; split; congruence.
Qed.

Lemma find_best_index_spec (ant_values : list Q) (ants_count : nat) :
  let best_index := find_best_index ant_values ants_count in
  best_index < Nat.max 1 ants_count /\
  (forall j, j < ants_count ->
     (nth best_index ant_values 0 <= nth j ant_values 0)%Q) /\
  (forall j, j < best_index ->
     (nth best_index ant_values 0 < nth j ant_values 0)%Q).
Proof.
  unfold find_best_index.
  induction ants_count as [|n IH].
  - simpl. repeat split; intros; lia.
  - rewrite seq_S, fold_left_app. simpl.
    set (b := fold_left _ (seq 0 n) 0) in *.
    destruct IH as [Hb [Hmin Hfirst]].
    destruct (Qltb (nth n ant_values 0%Q) (nth b ant_values 0%Q)) eqn:E.
    + apply Qltb_lt in E. repeat split.
      * lia.
      * intros j Hj. destruct (Nat.eq_dec j n) as [->|Hne]; [apply Qle_refl|].
        apply Qlt_le_weak. eapply Qlt_le_trans; [apply E|]. apply Hmin. lia.
      * intros j Hj. eapply Qlt_le_trans; [apply E|]. apply Hmin. lia.
    + apply Qltb_ge in E. repeat split.
      * lia.
      * intros j Hj. destruct (Nat.eq_dec j n) as [->|Hne]; [assumption|].
        apply Hmin. lia.
      * assumption.
Qed.

(** C10: the scan over the copied-back ant lengths returns the lowest
    index attaining the minimum: no ant is shorter than the chosen one, and
    every ant before it is strictly longer; the choice depends on the array
    of values only. *)
Theorem best_index_is_first_minimum (ant_values : list Q) :
  let ants_count := length ant_values in
  let best_index := find_best_index ant_values ants_count in
  (forall j, j < ants_count ->
     (nth best_index ant_values 0 <= nth j ant_values 0)%Q) /\
  (forall j, j < best_index ->
     (nth j ant_values 0 > nth best_index ant_values 0)%Q) /\
  (ant_values <> [] -> best_index < ants_count) /\
  (forall other_values, other_values = ant_values ->
     find_best_index other_values (length other_values) = best_index).
Proof.
  intros ants_count best_index.
  destruct (find_best_index_spec ant_values ants_count) as [Hb [Hmin Hfirst]].
  repeat split; try assumption.
  - intros Hne. fold best_index in Hb. unfold ants_count in *.
    destruct ant_values; [congruence|]. simpl in *. lia.
  - intros other ->. reflexivity.
Qed.

Lemma check_better_solution_le dimension ants_count vals routes it ctx :
  (best_value_ (check_better_solution dimension ants_count vals routes it ctx)
   <= best_value_ ctx)%Q.
Proof.
  unfold check_better_solution.
  destruct (Qltb _ (best_value_ ctx)) eqn:E; simpl.
  - apply Qltb_lt in E. now apply Qlt_le_weak.
  - apply Qle_refl.
Qed.

Lemma run_iterations_step_le dimension ants_count results :
  forall first ctx i,
    (best_value_ (run_iterations dimension ants_count (firstn (S i) results) first ctx)
     <= best_value_ (run_iterations dimension ants_count (firstn i results) first ctx))%Q.
Proof.
  induction results as [|[vals routes] rest IH]; intros first ctx i.
  - rewrite !firstn_nil. apply Qle_refl.
  - destruct i as [|i].
    + simpl. apply check_better_solution_le.
    + change (firstn (S (S i)) ((vals, routes) :: rest))
        with ((vals, routes) :: firstn (S i) rest).
      change (firstn (S i) ((vals, routes) :: rest))
        with ((vals, routes) :: firstn i rest).
      simpl. apply IH.
Qed.

(** C5: in one iteration the controller either keeps the best record as it
    is, or replaces it once by the iteration's best ant, and it replaces it
    only when that ant's length (the minimum over the ants) is strictly less
    than the recorded best; hence the recorded best length never increases
    from one iteration to the next, starting from the largest float. *)
Theorem best_record_only_improves (dimension ants_count : nat) :
  (forall dev_ant_values dev_ant_routes iteration ctx,
     let ctx' := check_better_solution dimension ants_count dev_ant_values
                   dev_ant_routes iteration ctx in
     let best_index := find_best_index dev_ant_values ants_count in
     let iteration_min := nth best_index dev_ant_values 0%Q in
     (forall j, j < ants_count -> (iteration_min <= nth j dev_ant_values 0)%Q) /\
     (((iteration_min < best_value_ ctx)%Q /\
       best_value_ ctx' = iteration_min /\
       best_route_ ctx' = slice dev_ant_routes (best_index * dimension) dimension /\
       best_found_iteration ctx' = iteration)
      \/
      (~ (iteration_min < best_value_ ctx)%Q /\
       best_value_ ctx' = best_value_ ctx /\
       best_route_ ctx' = best_route_ ctx /\
       best_found_iteration ctx' = best_found_iteration ctx))) /\
  (forall results ctx i,
     (best_length dimension ants_count results ctx i >=
      best_length dimension ants_count results ctx (S i))%Q) /\
  (forall results,
     best_length dimension ants_count results
                 (init_run_context dimension ants_count) 0 = FLT_MAX).
Proof.
  split; [|split; [|reflexivity]].
  - intros vals routes it ctx ctx' best_index iteration_min.
    split; [apply find_best_index_spec|].
    unfold ctx', check_better_solution.
    fold best_index. fold iteration_min.
    destruct (Qltb iteration_min (best_value_ ctx)) eqn:E; simpl.
    + left. apply Qltb_lt in E. auto.
    + right. apply Qltb_ge in E. repeat split; auto.
      now apply Qle_not_lt.
  - intros results ctx i. unfold best_length. apply run_iterations_step_le.
Qed.

(** ** Warp intrinsics *)

Lemma ballot_from_testbit (p : list bool) :
  forall k j, (0 <= k)%Z ->
    Z.testbit (ballot_from k p) j =
    (k <=? j)%Z && nth (Z.to_nat (j - k)) p false.
Proof.
  induction p as [|b t IH]; intros k j Hk; simpl.
  - rewrite Z.bits_0. destruct (Z.to_nat (j - k)); now rewrite andb_false_r.
  - rewrite Z.lor_spec, IH by lia.
    assert (Hb : Z.testbit (if b then Z.shiftl 1 k else 0%Z) j = b && (k =? j)%Z).
    { destruct b; simpl; [|apply Z.bits_0].
      rewrite Z.shiftl_1_l. now apply Z.pow2_bits_eqb. }
    rewrite Hb.
    destruct (Z.eqb_spec k j) as [->|Hne].
    + rewrite Z.sub_diag. simpl.
      rewrite Z.leb_refl, andb_true_r.
      replace (j + 1 <=? j)%Z with false by (symmetry; apply Z.leb_gt; lia).
      now rewrite orb_false_r.
    + rewrite andb_false_r. simpl.
      destruct (Z.leb_spec k j) as [Hle|Hgt].
      * replace (k + 1 <=? j)%Z with true by (symmetry; apply Z.leb_le; lia).
        simpl. replace (Z.to_nat (j - k)) with (S (Z.to_nat (j - (k + 1)))) by lia.
        reflexivity.
      * replace (k + 1 <=? j)%Z with false by (symmetry; apply Z.leb_gt; lia).
        reflexivity.
Qed.

Lemma ballot_testbit (p : list bool) (i : nat) :
  Z.testbit (ballot p) (Z.of_nat i) = nth i p false.
Proof.
  unfold ballot. rewrite ballot_from_testbit by lia.
  replace (0 <=? Z.of_nat i)%Z with true by (symmetry; apply Z.leb_le; lia).
  now rewrite Z.sub_0_r, Nat2Z.id.
Qed.

Lemma filter_map_length {A B : Type} (f : B -> bool) (g : A -> B) (l : list A) :
  length (filter f (map g l)) = length (filter (fun x => f (g x)) l).
Proof.
  induction l as [|a l IH]; simpl; [reflexivity|].
  destruct (f (g a)); simpl; now rewrite IH.
Qed.

Lemma filter_cons_length {A : Type} (f : A -> bool) (x : A) (l : list A) :
  length (filter f (x :: l)) = (if f x then 1 else 0) + length (filter f l).
Proof. simpl. destruct (f x); reflexivity. Qed.

Lemma count_nth_seq (p : list bool) :
  forall n, length p <= n ->
    length (filter (fun i => nth i p false) (seq 0 n)) = count_true p.
Proof.
  unfold count_true. induction p as [|b t IH]; intros n Hn.
  - simpl. induction (seq 0 n) as [|x l IHl]; simpl; [reflexivity|].
    destruct x; assumption.
  - destruct n as [|n]; [simpl in Hn; lia|].
    simpl in Hn. rewrite <- cons_seq, <- seq_shift.
    rewrite !filter_cons_length, filter_map_length.
    change (nth 0 (b :: t) false) with b.
    f_equal. apply (IH n). lia.
Qed.

Lemma popc_ballot (p : list bool) :
  length p <= 32 -> popc (ballot p) = count_true p.
Proof.
  intros H. unfold popc. rewrite <- (count_nth_seq p 32 H).
  f_equal. apply filter_ext. intros i. apply ballot_testbit.
Qed.

(** A vote whose true lanes form an initial segment is counted up to its
    first false lane. *)
Lemma count_true_prefix (p : list bool) :
  (forall i j, i <= j -> nth j p false = true -> nth i p false = true) ->
  (forall i, i < count_true p -> nth i p false = true) /\
  nth (count_true p) p false = false.
Proof.
  unfold count_true. induction p as [|b t IH]; intros Hclosed.
  - simpl. split; intros; [lia|reflexivity].
  - assert (Ht : forall i j, i <= j -> nth j t false = true -> nth i t false = true).
    { intros i j Hij Hj. apply (Hclosed (S i) (S j)); [lia|exact Hj]. }
    destruct (IH Ht) as [IH1 IH2]. destruct b; simpl.
    + split; [|exact IH2]. intros [|i] Hi; [reflexivity|]. apply IH1. lia.
    + assert (Hnone : forall i, nth i t false = false).
      { intros i. destruct (nth i t false) eqn:E; [|reflexivity].
        pose proof (Hclosed 0 (S i) (Nat.le_0_l _) E) as H0. simpl in H0. discriminate. }
      assert (E0 : filter (fun b => b) t = []).
      { clear -Hnone. induction t as [|x t IHt]; [reflexivity|].
        pose proof (Hnone 0) as H0. simpl in H0. subst x. simpl.
        apply IHt. intros i. apply (Hnone (S i)). }
      rewrite E0. simpl. split; [intros; lia|reflexivity].
Qed.

(** ** Roulette-wheel selection *)

Lemma scan_from_length acc v : length (scan_from acc v) = length v.
Proof. revert acc. induction v as [|x t IH]; simpl; intros acc; auto. Qed.

Lemma scan_from_ge (v : list Q) :
  (forall x, In x v -> (0 <= x)%Q) ->
  forall acc i, i < length v -> (acc <= nth i (scan_from acc v) 0)%Q.
Proof.
  induction v as [|x t IH]; intros Hpos acc i Hi; simpl in *; [lia|].
  assert (Hx : (0 <= x)%Q) by (apply Hpos; now left).
  assert (Hacc : (acc <= acc + x)%Q).
  { rewrite <- (Qplus_0_r acc) at 1. apply Qplus_le_r. exact Hx. }
  destruct i as [|i]; [exact Hacc|].
  eapply Qle_trans; [exact Hacc|]. apply IH; [|lia].
  intros y Hy. apply Hpos. now right.
Qed.

Lemma scan_from_mono (v : list Q) :
  (forall x, In x v -> (0 <= x)%Q) ->
  forall acc i j, i <= j -> j < length v ->
    (nth i (scan_from acc v) 0 <= nth j (scan_from acc v) 0)%Q.
Proof.
  induction v as [|x t IH]; intros Hpos acc i j Hij Hj; simpl in *; [lia|].
  assert (Ht : forall y, In y t -> (0 <= y)%Q) by (intros y Hy; apply Hpos; now right).
  destruct i as [|i], j as [|j]; try lia.
  - apply Qle_refl.
  - apply scan_from_ge; [exact Ht|lia].
  - apply IH; [exact Ht|lia|lia].
Qed.

(** C4 (as the code has it): over 32 non-negative candidate scores, with
    [S_i] the inclusive prefix sums and [r] the draw scaled by the total,
    the roulette wheel selects the first index [i] with [S_i > r]
    (strictly), and the last lane when no prefix sum of an earlier lane
    exceeds [r]. *)
Theorem roulette_selects_first_prefix_above_draw (nn_know : list Q) (draw : Q) :
  length nn_know = WARP_SIZE ->
  (forall x, In x nn_know -> (0 <= x)%Q) ->
  let prefix_sums := warp_scan nn_know in
  let r := (draw * nth (WARP_SIZE - 1) prefix_sums 0)%Q in
  let selected := roulette_index nn_know draw in
  selected < WARP_SIZE /\
  (forall i, i < selected -> (nth i prefix_sums 0 <= r)%Q) /\
  (selected < WARP_SIZE - 1 -> (r < nth selected prefix_sums 0)%Q).
Proof.
  intros Hlen Hpos prefix_sums r selected.
  unfold selected, roulette_index, warp_bcast. fold prefix_sums. fold r.
  set (votes := map (fun s => Qleb s r) prefix_sums).
  assert (Hlv : length votes = WARP_SIZE).
  { unfold votes, prefix_sums, warp_scan. now rewrite length_map, scan_from_length. }
  assert (Hvote : forall i, i < WARP_SIZE ->
            nth i votes false = Qleb (nth i prefix_sums 0%Q) r).
  { intros i Hi. unfold votes.
    rewrite (nth_indep _ false (Qleb 0%Q r)) by (fold votes; lia).
    apply (map_nth (fun s => Qleb s r)). }
  assert (Hclosed : forall i j, i <= j -> nth j votes false = true ->
                                nth i votes false = true).
  { intros i j Hij Hj.
    destruct (Nat.lt_ge_cases j WARP_SIZE) as [Hjw|Hjw].
    - rewrite Hvote in Hj |- * by lia. apply Qleb_le in Hj. apply Qleb_le.
      eapply Qle_trans; [|exact Hj].
      apply scan_from_mono; [exact Hpos|exact Hij|lia].
    - rewrite nth_overflow in Hj by lia. discriminate. }
  rewrite popc_ballot by (rewrite Hlv; unfold WARP_SIZE; lia).
  destruct (count_true_prefix votes Hclosed) as [Hbelow Hat].
  unfold WARP_SIZE in *. repeat split.
  - lia.
  - intros i Hi. apply Qleb_le. rewrite <- Hvote by lia. apply Hbelow. lia.
  - intros Hsel. rewrite Nat.min_r in * by lia.
    rewrite Hvote in Hat by lia.
    apply Qnot_le_lt. intros Hle. apply Qleb_le in Hle. congruence.
Qed.

Lemma roulette_selects_first_prefix_above_draw_witness :
  roulette_index (repeat 1%Q 32) (1 # 32) < WARP_SIZE /\
  (roulette_index (repeat 1%Q 32) (1 # 32) < WARP_SIZE - 1 ->
   ((1 # 32) * nth (WARP_SIZE - 1) (warp_scan (repeat 1%Q 32)) 0
    < nth (roulette_index (repeat 1%Q 32) (1 # 32)) (warp_scan (repeat 1%Q 32)) 0)%Q).
Proof.
  pose proof (roulette_selects_first_prefix_above_draw (repeat 1%Q 32) (1 # 32)) as H.
  destruct H as [H1 [_ H3]].
  - reflexivity.
  - intros x Hx. apply repeat_spec in Hx. subst x. discriminate.
  - split; assumption.
Defined.

(** C4 as stated fails where a prefix sum equals the scaled draw: with 32
    scores equal to 1 and the draw 1/32, [S_0 = r = 1], so the first index
    with [S_i >= r] is 0, while the kernel skips lane 0 and selects lane 1. *)
Lemma roulette_skips_prefix_equal_to_draw :
  let nn_know := repeat 1%Q 32 in
  let draw := (1 # 32)%Q in
  let prefix_sums := warp_scan nn_know in
  let r := (draw * nth (WARP_SIZE - 1) prefix_sums 0)%Q in
  (nth 0 prefix_sums 0 >= r)%Q /\
  spec_roulette_index nn_know draw = 0 /\
  roulette_index nn_know draw = 1 /\
  roulette_index nn_know draw <> spec_roulette_index nn_know draw.
Proof.
  vm_compute. repeat split; try discriminate.
Qed.

(** ** Tour length *)

Lemma fold_left_Qplus_acc (l : list Q) (a : Q) :
  (fold_left Qplus l a == a + Qsum l)%Q.
Proof.
  unfold Qsum. revert a. induction l as [|x l IH]; intros a; simpl.
  - ring.
  - rewrite (IH (a + x)%Q), (IH (0 + x)%Q). ring.
Qed.

Lemma Qsum_cons (x : Q) (l : list Q) : (Qsum (x :: l) == x + Qsum l)%Q.
Proof. unfold Qsum at 1. simpl. rewrite fold_left_Qplus_acc. ring. Qed.

Lemma Qsum_app (l l' : list Q) : (Qsum (l ++ l') == Qsum l + Qsum l')%Q.
Proof.
  induction l as [|x l IH]; simpl.
  - unfold Qsum at 2. simpl. ring.
  - rewrite !Qsum_cons, IH. ring.
Qed.

Lemma Qsum_Permutation (l l' : list Q) :
  Permutation l l' -> (Qsum l == Qsum l')%Q.
Proof.
  induction 1 as [|x l l' _ IH|x y l|l l' l'' _ IH1 _ IH2].
  - reflexivity.
  - rewrite !Qsum_cons, IH. reflexivity.
  - rewrite !Qsum_cons. ring.
  - now rewrite IH1.
Qed.

Lemma fold_left_add_map {A : Type} (g : A -> Q) (l : list A) (a : Q) :
  fold_left (fun acc x => (acc + g x)%Q) l a = fold_left Qplus (map g l) a.
Proof. revert a. induction l as [|x l IH]; intros a; simpl; auto. Qed.

Lemma Qsum_map_flat_map {A B : Type} (e : B -> Q) (g : A -> list B) (l : list A) :
  (Qsum (map (fun x => Qsum (map e (g x))) l) == Qsum (map e (flat_map g l)))%Q.
Proof.
  induction l as [|a l IH]; simpl; [reflexivity|].
  rewrite Qsum_cons, map_app, Qsum_app, IH. reflexivity.
Qed.

Lemma seq_blocks (k n : nat) :
  flat_map (fun w => seq (w * k) k) (seq 0 n) = seq 0 (n * k).
Proof.
  induction n as [|n IH]; [reflexivity|].
  rewrite seq_S, flat_map_app, IH. simpl.
  rewrite app_nil_r, (Nat.add_comm k (n * k)). symmetry. apply seq_app.
Qed.

Lemma threads_cover_tour dimension dist_matrix route block_dim :
  0 < block_dim ->
  (Qsum (map (thread_length dimension dist_matrix route block_dim dimension)
             (seq 0 block_dim))
   == tour_length dimension dist_matrix route)%Q.
Proof.
  intros Hb. unfold tour_length.
  rewrite <- (Qsum_Permutation _ _
               (Permutation_map (edge_length dimension dist_matrix route)
                                (block_strides_cover block_dim dimension Hb))).
  rewrite <- Qsum_map_flat_map.
  apply Qsum_Permutation. apply Permutation_refl'.
  apply map_ext. intros tid. unfold thread_length.
  now rewrite fold_left_add_map.
Qed.

(** ** Buffers written by index *)

Lemma store_length {A : Type} (l : list A) i x : length (store l i x) = length l.
Proof.
  revert i. induction l as [|h t IH]; intros [|i]; simpl; auto.
Qed.

Lemma nth_store_same {A : Type} (l : list A) i x d :
  i < length l -> nth i (store l i x) d = x.
Proof.
  revert i. induction l as [|h t IH]; intros [|i] Hi; simpl in *; try lia; auto.
  apply IH. lia.
Qed.

Lemma nth_store_other {A : Type} (l : list A) i j x d :
  i <> j -> nth j (store l i x) d = nth j l d.
Proof.
  revert i j. induction l as [|h t IH]; intros [|i] [|j] Hij; simpl; auto; try lia.
Qed.

Lemma firstn_store_above {A : Type} (l : list A) i n x :
  n <= i -> firstn n (store l i x) = firstn n l.
Proof.
  revert i n. induction l as [|h t IH]; intros [|i] [|n] Hn; simpl; auto; try lia.
  f_equal. apply IH. lia.
Qed.

Lemma firstn_store_last {A : Type} (l : list A) i x :
  i < length l -> firstn (S i) (store l i x) = firstn i l ++ [x].
Proof.
  revert i. induction l as [|h t IH]; intros [|i] Hi; simpl in *; try lia.
  - reflexivity.
  - f_equal. apply IH. lia.
Qed.

(** ** Visited bitmask *)

Lemma land_bit_test (w k : Z) :
  (0 <= k)%Z ->
  negb (Z.land w (Z.shiftl 1 k) =? 0)%Z = Z.testbit w k.
Proof.
  intros Hk. rewrite Z.shiftl_1_l.
  assert (E : Z.land w (2 ^ k) = if Z.testbit w k then (2 ^ k)%Z else 0%Z).
  { apply Z.bits_inj'. intros j Hj. rewrite Z.land_spec, Z.pow2_bits_eqb by assumption.
    destruct (Z.eqb_spec k j) as [->|Hne].
    - rewrite andb_true_r. destruct (Z.testbit w j) eqn:Ew.
      + rewrite Z.pow2_bits_eqb by assumption. now rewrite Z.eqb_refl.
      + now rewrite Z.bits_0.
    - rewrite andb_false_r. destruct (Z.testbit w k).
      + rewrite Z.pow2_bits_eqb by assumption. symmetry. now apply Z.eqb_neq.
      + now rewrite Z.bits_0. }
  rewrite E. destruct (Z.testbit w k).
  - assert (0 < 2 ^ k)%Z by (apply Z.pow_pos_nonneg; lia).
    destruct (Z.eqb_spec (2 ^ k) 0); [lia|reflexivity].
  - reflexivity.
Qed.

Lemma node_word (node : nat) :
  Z.to_nat (Z.shiftr (Z.of_nat node) 5) = node / 32.
Proof.
  rewrite Z.shiftr_div_pow2 by lia. change (2 ^ 5)%Z with (Z.of_nat 32).
  rewrite <- Nat2Z.inj_div. apply Nat2Z.id.
Qed.

Lemma node_bit (node : nat) :
  Z.land (Z.of_nat node) 31 = Z.of_nat (node mod 32).
Proof.
  change 31%Z with (Z.ones 5). rewrite Z.land_ones by lia.
  change (2 ^ 5)%Z with (Z.of_nat 32). symmetry. apply Nat2Z.inj_mod.
Qed.

Lemma is_node_visited_testbit (visited : list Z) (node : nat) :
  is_node_visited visited node =
  Z.testbit (nth (node / 32) visited 0%Z) (Z.of_nat (node mod 32)).
Proof.
  unfold is_node_visited. rewrite node_word, node_bit. apply land_bit_test. lia.
Qed.

Lemma is_node_visited_clear (n node : nat) :
  is_node_visited (repeat 0%Z n) node = false.
Proof.
  rewrite is_node_visited_testbit.
  assert (E : nth (node / 32) (repeat 0%Z n) 0%Z = 0%Z).
  { destruct (Nat.lt_ge_cases (node / 32) n) as [Hlt|Hge].
    - apply nth_repeat_lt. exact Hlt.
    - apply nth_overflow. rewrite repeat_length. exact Hge. }
  rewrite E. apply Z.bits_0.
Qed.

Lemma set_node_visited_length (visited : list Z) (node : nat) :
  length (set_node_visited visited node) = length visited.
Proof. unfold set_node_visited. apply store_length. Qed.

Lemma is_node_visited_set (visited : list Z) (node other : nat) :
  node / 32 < length visited ->
  is_node_visited (set_node_visited visited node) other =
  (other =? node) || is_node_visited visited other.
Proof.
  intros Hw. rewrite !is_node_visited_testbit.
  unfold set_node_visited. rewrite node_word, node_bit.
  destruct (Nat.eq_dec (other / 32) (node / 32)) as [Eword|Nword].
  - rewrite Eword, nth_store_same by assumption.
    rewrite Z.lor_spec, Z.shiftl_1_l, Z.pow2_bits_eqb by lia.
    rewrite orb_comm. f_equal.
    destruct (Nat.eqb_spec other node) as [->|Hne].
    + apply Z.eqb_refl.
    + apply Z.eqb_neq. intros E. apply Nat2Z.inj in E. apply Hne.
      rewrite (Nat.div_mod_eq other 32), (Nat.div_mod_eq node 32). lia.
  - rewrite nth_store_other by auto.
    destruct (Nat.eqb_spec other node) as [->|Hne]; [contradiction|reflexivity].
Qed.

(** ** Arg-max reductions *)

Lemma fmax_ge_l a b : (a <= fmax a b)%Q.
Proof.
  unfold fmax. destruct (Qltb a b) eqn:E.
  - apply Qltb_lt in E. now apply Qlt_le_weak.
  - apply Qle_refl.
Qed.

Lemma fmax_ge_r a b : (b <= fmax a b)%Q.
Proof.
  unfold fmax. destruct (Qltb a b) eqn:E.
  - apply Qle_refl.
  - now apply Qltb_ge in E.
Qed.

Lemma arg_max_fold (l : list (nat * Q)) :
  forall a,
    let r := fold_left arg_max_step l a in
    (r = a \/ In r l) /\ (snd a <= snd r)%Q /\
    (forall x, In x l -> (snd x <= snd r)%Q).
Proof.
  induction l as [|c l IH]; intros a; simpl.
  - repeat split; auto using Qle_refl. intros x [].
  - destruct (IH (arg_max_step a c)) as [Hin [Hge Hall]].
    assert (Ha : (snd a <= snd (arg_max_step a c))%Q /\
                 (snd c <= snd (arg_max_step a c))%Q /\
                 (arg_max_step a c = a \/ arg_max_step a c = c)).
    { unfold arg_max_step. destruct (Qltb (snd a) (snd c)) eqn:E.
      - apply Qltb_lt in E. repeat split; auto using Qle_refl, Qlt_le_weak.
      - apply Qltb_ge in E. repeat split; auto using Qle_refl. }
    destruct Ha as [Ha1 [Ha2 Ha3]]. repeat split.
    + destruct Hin as [Hin|Hin]; [|now (right; right)].
      rewrite Hin. destruct Ha3 as [-> | ->]; auto.
    + eapply Qle_trans; eauto.
    + intros x [<-|Hx]; [eapply Qle_trans; eauto|auto].
Qed.

Lemma warp_reduce_arg_max_ext_spec d (lanes : list (nat * Q)) :
  lanes <> [] ->
  In (warp_reduce_arg_max_ext d lanes) lanes /\
  forall x, In x lanes -> (snd x <= snd (warp_reduce_arg_max_ext d lanes))%Q.
Proof.
  destruct lanes as [|a l]; [congruence|]. intros _.
  unfold warp_reduce_arg_max_ext. simpl hd. simpl tl.
  destruct (arg_max_fold l a) as [Hin [Hge Hall]]. split.
  - destruct Hin as [->|Hin]; [now left|now right].
  - intros x [<-|Hx]; auto.
Qed.

Lemma nth_map_seq {A : Type} (f : nat -> A) (n i : nat) (d : A) :
  i < n -> nth i (map f (seq 0 n)) d = f i.
Proof.
  intros Hi. rewrite (nth_indep _ d (f 0)) by (now rewrite length_map, length_seq).
  rewrite map_nth, seq_nth by assumption. reflexivity.
Qed.

Lemma match_nonempty {A B : Type} (l : list A) (a b : B) :
  l <> [] -> match l with [] => a | _ :: _ => b end = b.
Proof. destruct l; [congruence|reflexivity]. Qed.

(** The two-level reduction of the fallback scan returns the pair of one of
    the threads, and a positive value as soon as one thread holds one. *)
Lemma two_level_reduce d (thread : nat -> nat * Q) (num_warps : nat) :
  0 < num_warps ->
  (exists tid, tid < num_warps * WARP_SIZE /\ (0 < snd (thread tid))%Q) ->
  let warp w := warp_reduce_arg_max_ext d (map thread (seq (w * WARP_SIZE) WARP_SIZE)) in
  let partials := map warp (seq 0 num_warps) in
  partials <> [] /\
  (exists tid, tid < num_warps * WARP_SIZE /\
               warp_reduce_arg_max_ext d partials = thread tid) /\
  (0 < snd (warp_reduce_arg_max_ext d partials))%Q.
Proof.
  intros Hw [tid [Htid Hpos]] warp partials.
  assert (Hlanes : forall w, map thread (seq (w * WARP_SIZE) WARP_SIZE) <> []).
  { intros w. unfold WARP_SIZE. simpl. discriminate. }
  assert (Hne : partials <> []).
  { unfold partials. destruct num_warps; [lia|]. simpl. discriminate. }
  assert (Hwarp : forall w, w < num_warps ->
            exists t, t < num_warps * WARP_SIZE /\ warp w = thread t).
  { intros w Hlt. destruct (warp_reduce_arg_max_ext_spec d _ (Hlanes w)) as [Hin _].
    apply in_map_iff in Hin. destruct Hin as [t [Ht Hseq]].
    apply in_seq in Hseq. exists t. split; [|now symmetry].
    unfold WARP_SIZE in *. nia. }
  destruct (warp_reduce_arg_max_ext_spec d partials Hne) as [Hin Hmax].
  split; [exact Hne|]. split.
  - apply in_map_iff in Hin. destruct Hin as [w [Hw' Hseq]].
    apply in_seq in Hseq. destruct (Hwarp w) as [t [Ht Et]]; [lia|].
    exists t. split; [exact Ht|]. now rewrite <- Hw', Et.
  - set (w := tid / WARP_SIZE).
    assert (Hwlt : w < num_warps).
    { unfold w. apply Nat.Div0.div_lt_upper_bound. unfold WARP_SIZE in *. lia. }
    assert (Hin_lane : In (thread tid) (map thread (seq (w * WARP_SIZE) WARP_SIZE))).
    { apply in_map, in_seq. unfold w, WARP_SIZE.
      pose proof (Nat.div_mod_eq tid 32). pose proof (Nat.mod_upper_bound tid 32). lia. }
    destruct (warp_reduce_arg_max_ext_spec d _ (Hlanes w)) as [_ Hwmax].
    eapply Qlt_le_trans; [exact Hpos|].
    eapply Qle_trans; [apply Hwmax; exact Hin_lane|].
    apply Hmax. unfold partials. apply (in_map warp), in_seq. lia.
Qed.

(** ** Node selection *)

Section SelectionFacts.

Context {M : Type} `{PhmemT M}.

Variable q0 : Q.
Variable dimension : nat.
Variable heuristic_matrix : nat -> Q.
Variable nn_lists : nat -> nat.
Variable NN_SIZE : nat.
Variable draws : nat -> Q.
Variable visited : nat -> bool.
Variable curr : nat.
Variable phmem : M.

(** Every unvisited node has a positive score from [curr]. *)
Hypothesis Hscore : forall n, n < dimension -> visited n = false ->
  (0 < heuristic_matrix (dimension * curr + n) * ph_get phmem (dimension * curr + n))%Q.

(** The neighbour list of [curr] holds node indices. *)
Hypothesis Hnn : forall tid, tid < WARP_SIZE ->
  nn_lists (curr * NN_SIZE + tid) < dimension.

Let good (p : nat * Q) : Prop :=
  (0 <= snd p)%Q /\ ((0 < snd p)%Q -> fst p < dimension /\ visited (fst p) = false).

Lemma select_from_nn_valid (rng : nat) :
  let next := fst (select_from_nn q0 dimension heuristic_matrix nn_lists NN_SIZE
                                  draws visited curr phmem rng) in
  next = dimension \/ (next < dimension /\ visited next = false).
Proof using Hscore Hnn.
  unfold select_from_nn.
  destruct (any_lane _) eqn:Eany; [|now left].
  destruct (Qltb (draws rng) q0).
  - right. cbn [fst]. unfold warp_reduce_arg_max.
    set (lanes := map (fun tid => (nn_id nn_lists NN_SIZE curr tid,
                                   nn_know dimension heuristic_matrix nn_lists NN_SIZE
                                           visited curr phmem tid))
                      (seq 0 WARP_SIZE)).
    assert (Hne : lanes <> []) by (unfold lanes, WARP_SIZE; simpl; discriminate).
    destruct (warp_reduce_arg_max_ext_spec (dimension, 0%Q) lanes Hne) as [Hin Hmax].
    unfold any_lane in Eany. apply existsb_exists in Eany.
    destruct Eany as [b [Hb ->]]. apply in_map_iff in Hb.
    destruct Hb as [tid [Hunv Htid]]. apply in_seq in Htid.
    assert (Hpos : (0 < snd (warp_reduce_arg_max_ext (dimension, 0%Q) lanes))%Q).
    { eapply Qlt_le_trans; [|apply Hmax; unfold lanes; apply in_map, in_seq; exact Htid].
      simpl. unfold nn_know. rewrite Hunv.
      apply Hscore; [apply Hnn; lia|].
      unfold nn_unvisited in Hunv. now apply negb_true_iff in Hunv. }
    apply in_map_iff in Hin. destruct Hin as [t [Et Ht]]. apply in_seq in Ht.
    rewrite <- Et in Hpos |- *. simpl in Hpos |- *.
    unfold nn_know in Hpos. unfold nn_unvisited in Hpos.
    destruct (visited (nn_id nn_lists NN_SIZE curr t)) eqn:Ev; simpl in Hpos.
    + exfalso. revert Hpos. apply Qlt_irrefl.
    + split; [apply Hnn; lia|reflexivity].
  - cbn [fst].
    set (best_idx := roulette_index _ _).
    assert (Hidx : best_idx < WARP_SIZE).
    { unfold best_idx, roulette_index, WARP_SIZE. lia. }
    unfold warp_bcast. rewrite nth_map_seq by exact Hidx.
    destruct (visited (nn_id nn_lists NN_SIZE curr best_idx)) eqn:Ev; [now left|].
    right. split; [apply Hnn; exact Hidx|exact Ev].
Qed.

Lemma scan_node_good (l : list nat) :
  (forall i, In i l -> i < dimension) ->
  forall acc, good acc ->
    let r := fold_left (scan_node dimension heuristic_matrix visited curr phmem) l acc in
    good r /\ (snd acc <= snd r)%Q /\
    (forall i, In i l -> visited i = false ->
       (heuristic_matrix (dimension * curr + i) * ph_get phmem (dimension * curr + i)
        <= snd r)%Q).
Proof using Type.
  induction l as [|i l IH]; intros Hl acc Hacc; simpl.
  - split; [exact Hacc|]. split; [apply Qle_refl|intros i []].
  - set (acc' := scan_node dimension heuristic_matrix visited curr phmem acc i).
    assert (Hstep : good acc' /\ (snd acc <= snd acc')%Q /\
              (visited i = false ->
               (heuristic_matrix (dimension * curr + i)
                * ph_get phmem (dimension * curr + i) <= snd acc')%Q)).
    { unfold acc', scan_node. destruct acc as [id mx]. destruct Hacc as [H0 Hv].
      cbn [fst snd] in H0, Hv. rewrite (Nat.add_comm i).
      destruct (visited i) eqn:Ev; cbn [negb fst snd].
      - split; [split; assumption|]. split; [apply Qle_refl|discriminate].
      - set (product := (heuristic_matrix (dimension * curr + i)
                         * ph_get phmem (dimension * curr + i))%Q).
        split; [split|split]; cbn [fst snd].
        + eapply Qle_trans; [exact H0|apply fmax_ge_l].
        + intros Hpos. unfold fmax in Hpos.
          destruct (Qltb mx product) eqn:E.
          * split; [apply Hl; now left|exact Ev].
          * now apply Hv.
        + apply fmax_ge_l.
        + intros _. apply fmax_ge_r. }
    destruct Hstep as [Hg [Hle Hi]].
    destruct (IH (fun j Hj => Hl j (or_intror Hj)) acc' Hg) as [Hg' [Hle' Hall]].
    split; [exact Hg'|]. split.
    + eapply Qle_trans; eauto.
    + intros j [<-|Hj] Hv; [eapply Qle_trans; eauto|auto].
Qed.

Lemma scan_node_step_same (l : list nat) :
  forall acc, (0 <= snd acc)%Q ->
    fold_left (scan_node_step dimension heuristic_matrix visited curr phmem) l acc =
    fold_left (scan_node dimension heuristic_matrix visited curr phmem) l acc.
Proof using Type.
  induction l as [|i l IH]; intros acc Hacc; simpl; [reflexivity|].
  assert (E : scan_node_step dimension heuristic_matrix visited curr phmem acc i =
              scan_node dimension heuristic_matrix visited curr phmem acc i).
  { unfold scan_node_step, scan_node. destruct acc as [id mx]. simpl in Hacc.
    destruct (visited i); simpl; [|reflexivity].
    unfold fmax. apply Qltb_ge in Hacc. now rewrite Hacc. }
  rewrite E. apply IH.
  unfold scan_node. destruct acc as [id mx]. simpl in Hacc.
  destruct (visited i); simpl; [exact Hacc|].
  eapply Qle_trans; [exact Hacc|apply fmax_ge_l].
Qed.

Variable num_warps : nat.
Hypothesis Hwarps : 0 < num_warps.
Hypothesis Hsome : exists n, n < dimension /\ visited n = false.

Lemma fallback_scan_valid :
  let next := fallback_scan dimension (num_warps * WARP_SIZE)
                (scan_node dimension heuristic_matrix visited curr phmem) in
  next < dimension /\ visited next = false.
Proof using Hscore Hwarps Hsome.
  clear Hnn. clear draws q0 nn_lists NN_SIZE.
  unfold fallback_scan. rewrite Nat.div_mul by (unfold WARP_SIZE; lia).
  set (block_dim := num_warps * WARP_SIZE).
  set (thread := fun tid =>
         fold_left (scan_node dimension heuristic_matrix visited curr phmem)
                   (stride tid block_dim dimension) (dimension, 0%Q)).
  assert (Hb : 0 < block_dim) by (unfold block_dim, WARP_SIZE; lia).
  assert (Hinit : good (dimension, 0%Q)).
  { split; simpl; [apply Qle_refl|]. intros Hlt. exfalso. revert Hlt. apply Qlt_irrefl. }
  assert (Hthread : forall tid, good (thread tid)).
  { intros tid. apply scan_node_good; [|exact Hinit].
    intros i Hi. apply stride_In in Hi; [tauto|exact Hb]. }
  assert (Hex : exists tid, tid < num_warps * WARP_SIZE /\ (0 < snd (thread tid))%Q).
  { destruct Hsome as [n [Hn Hv]]. exists (n mod block_dim). split.
    - apply Nat.mod_upper_bound. lia.
    - eapply Qlt_le_trans; [apply (Hscore n Hn Hv)|].
      apply scan_node_good; [| exact Hinit | | exact Hv].
      + intros i Hi. apply stride_In in Hi; [tauto|exact Hb].
      + apply stride_In; [exact Hb|]. split; [exact Hn|].
        exists (n / block_dim). pose proof (Nat.div_mod_eq n block_dim). lia. }
  pose proof (two_level_reduce (dimension, 0%Q) thread num_warps Hwarps Hex) as Hred.
  cbv zeta in Hred. destruct Hred as [Hne [[tid [_ Etid]] Hpos]].
  rewrite (match_nonempty _ _ _ Hne).
  unfold warp_reduce_arg_max. rewrite Etid in Hpos |- *.
  apply (Hthread tid). exact Hpos.
Qed.

Lemma fallback_scan_step_valid :
  let next := fallback_scan dimension (num_warps * WARP_SIZE)
                (scan_node_step dimension heuristic_matrix visited curr phmem) in
  next < dimension /\ visited next = false.
Proof using Hscore Hwarps Hsome.
  clear Hnn. clear draws q0 nn_lists NN_SIZE.
  assert (E : fallback_scan dimension (num_warps * WARP_SIZE)
                (scan_node_step dimension heuristic_matrix visited curr phmem) =
              fallback_scan dimension (num_warps * WARP_SIZE)
                (scan_node dimension heuristic_matrix visited curr phmem)).
  { unfold fallback_scan.
    assert (Ew : forall w,
      map (fun tid => fold_left (scan_node_step dimension heuristic_matrix visited curr phmem)
                        (stride tid (num_warps * WARP_SIZE) dimension) (dimension, 0%Q))
          (seq (w * WARP_SIZE) WARP_SIZE) =
      map (fun tid => fold_left (scan_node dimension heuristic_matrix visited curr phmem)
                        (stride tid (num_warps * WARP_SIZE) dimension) (dimension, 0%Q))
          (seq (w * WARP_SIZE) WARP_SIZE)).
    { intros w. apply map_ext. intros tid. apply scan_node_step_same. apply Qle_refl. }
    rewrite (map_ext _ _ (fun w => f_equal (warp_reduce_arg_max_ext (dimension, 0%Q)) (Ew w))).
    reflexivity. }
  rewrite E. apply fallback_scan_valid.
Qed.

End SelectionFacts.

(** ** Construction of a route *)

Lemma unvisited_node_exists (l : list nat) (d : nat) :
  length l < d -> exists n, n < d /\ ~ In n l.
Proof.
  intros Hlen.
  destruct (find (fun n => negb (existsb (Nat.eqb n) l)) (seq 0 d)) as [n|] eqn:E.
  - apply find_some in E. destruct E as [Hn Hneg]. apply in_seq in Hn.
    exists n. split; [lia|]. intros Hin. apply negb_true_iff in Hneg.
    assert (Ht : existsb (Nat.eqb n) l = true).
    { apply existsb_exists. exists n. split; [exact Hin|apply Nat.eqb_refl]. }
    congruence.
  - exfalso.
    assert (Hincl : incl (seq 0 d) l).
    { intros n Hn. pose proof (find_none _ _ E n Hn) as Hf.
      apply negb_false_iff, existsb_exists in Hf.
      destruct Hf as [x [Hx Ex]]. apply Nat.eqb_eq in Ex. now subst. }
    pose proof (NoDup_incl_length (seq_NoDup d 0) Hincl) as Hle.
    rewrite length_seq in Hle. lia.
Qed.

Lemma route_is_permutation (route : list nat) (dimension : nat) :
  length route = dimension -> NoDup route ->
  (forall x, In x route -> x < dimension) ->
  Permutation route (seq 0 dimension).
Proof.
  intros Hlen Hnd Hlt. apply NoDup_Permutation_bis.
  - exact Hnd.
  - rewrite length_seq. lia.
  - intros x Hx. apply in_seq. pose proof (Hlt x Hx). lia.
Qed.

Lemma pheromone_rule_positive (decay old deposit : Q) :
  (0 <= decay)%Q -> (decay <= 1)%Q -> (0 < old)%Q -> (0 < deposit)%Q ->
  (0 < pheromone_rule decay old deposit)%Q.
Proof.
  intros H0 H1 Hold Hdep. unfold pheromone_rule.
  destruct (Qlt_le_dec 0 decay) as [Hpos|Hzero].
  - apply Qlt_le_trans with (decay * deposit)%Q.
    + apply Qmult_lt_0_compat; assumption.
    + rewrite <- (Qplus_0_l (decay * deposit)) at 1.
      apply Qplus_le_l. apply Qmult_le_0_compat.
      * apply -> Qle_minus_iff. exact H1.
      * now apply Qlt_le_weak.
  - assert (E : (decay == 0)%Q) by (apply Qle_antisym; assumption).
    rewrite E. setoid_replace ((1 - 0) * old + 0 * deposit)%Q with old by ring.
    exact Hold.
Qed.

Lemma matrix_update_positive (m : MatrixPhmem) (u v : nat) (decay deposit : Q) :
  (0 <= decay)%Q -> (decay <= 1)%Q -> (0 < deposit)%Q ->
  (forall k, (0 < mp_cells m k)%Q) ->
  forall k, (0 < mp_cells (matrix_update m u v decay deposit) k)%Q.
Proof.
  intros H0 H1 Hdep Hpos k. unfold matrix_update. simpl. unfold write.
  destruct (k =? cell (mp_dimension m) v u);
    [|destruct (k =? cell (mp_dimension m) u v)]; auto;
    apply pheromone_rule_positive; auto.
Qed.

Lemma route_invariant_init dimension (visited : nat -> bool) (route0 : list nat) :
  length route0 = dimension ->
  nth 0 route0 0 < dimension ->
  (forall n, visited n = (n =? nth 0 route0 0)) ->
  route_invariant dimension 1 visited route0 (nth 0 route0 0).
Proof.
  intros Hlen Hfirst Hvis. unfold route_invariant.
  destruct route0 as [|r0 rest]; [simpl in *; lia|]. simpl in *.
  split; [exact Hlen|]. split; [lia|].
  split; [constructor; [simpl; tauto|constructor]|].
  split; [intros x [<-|[]]; exact Hfirst|].
  split; [|reflexivity].
  intros n. rewrite Hvis, Nat.eqb_eq. split; [intros ->; now left|intros [->|[]]; reflexivity].
Qed.

Lemma route_invariant_unvisited dimension iter visited route curr :
  route_invariant dimension iter visited route curr ->
  iter < dimension ->
  (exists n, n < dimension /\ visited n = false) /\
  curr < dimension /\ visited curr = true.
Proof.
  intros [Hlen [Hiter [Hnd [Hlt [Hvis Hcurr]]]]] Hi. split.
  - destruct (unvisited_node_exists (firstn iter route) dimension) as [n [Hn Hnot]].
    { rewrite length_firstn. lia. }
    exists n. split; [exact Hn|].
    destruct (visited n) eqn:E; [|reflexivity]. apply Hvis in E. contradiction.
  - assert (Hin : In curr (firstn iter route)).
    { rewrite Hcurr. replace iter with (S (iter - 1)) at 2 by lia.
      rewrite <- (firstn_skipn (iter - 1) route) at 1.
      rewrite app_nth2 by (rewrite length_firstn; lia).
      rewrite length_firstn, Nat.min_l, Nat.sub_diag by lia.
      rewrite <- (firstn_skipn (iter - 1) route) at 2.
      rewrite firstn_app, length_firstn, Nat.min_l by lia.
      apply in_or_app. right.
      replace (S (iter - 1) - (iter - 1)) with 1 by lia.
      destruct (skipn (iter - 1) route) as [|h t] eqn:Es.
      - exfalso. pose proof (length_skipn (iter - 1) route) as Hs.
        rewrite Es in Hs. simpl in Hs. lia.
      - simpl. now left. }
    split; [now apply Hlt|now apply Hvis].
Qed.

Lemma route_invariant_step dimension iter visited visited' route curr next :
  route_invariant dimension iter visited route curr ->
  iter < dimension ->
  next < dimension -> visited next = false ->
  (forall n, visited' n = (n =? next) || visited n) ->
  route_invariant dimension (S iter) visited' (store route iter next) next.
Proof.
  intros [Hlen [Hiter [Hnd [Hlt [Hvis Hcurr]]]]] Hi Hnext Hunv Hvis'.
  unfold route_invariant.
  rewrite store_length, firstn_store_last by lia.
  split; [exact Hlen|]. split; [lia|].
  assert (Hnotin : ~ In next (firstn iter route)).
  { intros Hin. apply Hvis in Hin. congruence. }
  split.
  { apply NoDup_app; [exact Hnd|constructor; [simpl; tauto|constructor]|].
    intros x Hx [<-|[]]. contradiction. }
  split.
  { intros x Hx. apply in_app_or in Hx. destruct Hx as [Hx|[<-|[]]]; auto. }
  split.
  { intros n. rewrite Hvis', orb_true_iff, Nat.eqb_eq, in_app_iff, Hvis.
    simpl. intuition auto. }
  simpl. rewrite Nat.sub_0_r. symmetry. apply nth_store_same. lia.
Qed.

Lemma route_invariant_complete dimension visited route curr :
  route_invariant dimension dimension visited route curr ->
  Permutation route (seq 0 dimension).
Proof.
  intros [Hlen [_ [Hnd [Hlt _]]]].
  assert (E : firstn dimension route = route) by (rewrite <- Hlen; apply firstn_all).
  rewrite E in Hnd, Hlt. now apply route_is_permutation.
Qed.

(** ** Monolithic construction *)

Section CalcFacts.

Context {M : Type} `{PhmemT M}.

Variable q0 phi initial_pheromone : Q.
Variable dimension : nat.
Variable heuristic_matrix : nat -> Q.
Variable nn_lists : nat -> nat.
Variable NN_SIZE pher_mem_update_freq num_warps : nat.
Variable draws : nat -> Q.

(** What is known of the pheromone memory between two steps. *)
Variable P : M -> Prop.
Hypothesis HP_update :
  forall m u v, P m -> P (ph_update m u v phi initial_pheromone).
Hypothesis HP_pos : forall m k, P m -> (0 < ph_get m k)%Q.

Hypothesis Hheur : forall u v, u < dimension -> v < dimension -> u <> v ->
  (0 < heuristic_matrix (dimension * u + v))%Q.
Hypothesis Hnn : forall u tid, u < dimension -> tid < WARP_SIZE ->
  nn_lists (u * NN_SIZE + tid) < dimension.
Hypothesis Hcap : dimension <= MAX_VISITED_SIZE * WARP_SIZE.
Hypothesis Hwarps : 0 < num_warps.

Let block_dim := num_warps * WARP_SIZE.

Let next_of := calc_next q0 dimension heuristic_matrix nn_lists NN_SIZE
                         block_dim draws.
Let step := calc_step q0 phi initial_pheromone dimension heuristic_matrix
                      nn_lists NN_SIZE pher_mem_update_freq block_dim draws.

Let inv (iter : nat) (st : BlockState) : Prop :=
  route_invariant dimension iter (is_node_visited (was_visited st))
                  (route st) (curr_pos st) /\
  length (was_visited st) = MAX_VISITED_SIZE /\
  P (phmem st).

Lemma score_positive (visited : nat -> bool) (curr : nat) (m : M) :
  curr < dimension -> visited curr = true -> P m ->
  forall n, n < dimension -> visited n = false ->
    (0 < heuristic_matrix (dimension * curr + n) * ph_get m (dimension * curr + n))%Q.
Proof.
  intros Hc Hv Hm n Hn Hu. apply Qmult_lt_0_compat.
  - apply Hheur; auto. intros ->. congruence.
  - now apply HP_pos.
Qed.

Lemma calc_next_valid iter st :
  inv iter st -> iter < dimension ->
  fst (next_of st) < dimension /\
  is_node_visited (was_visited st) (fst (next_of st)) = false.
Proof.
  intros [Hri [Hlen HP]] Hi.
  destruct (route_invariant_unvisited _ _ _ _ _ Hri Hi) as [Hsome [Hc Hv]].
  pose proof (score_positive _ _ _ Hc Hv HP) as Hscore.
  unfold next_of, calc_next.
  pose proof (select_from_nn_valid q0 dimension heuristic_matrix nn_lists NN_SIZE
                draws _ (curr_pos st) (phmem st) Hscore
                (fun tid => Hnn _ tid Hc) (rng st)) as Hsel.
  cbv zeta in Hsel.
  destruct (select_from_nn _ _ _ _ _ _ _ _ _ _) as [next0 rng1]. cbn [fst] in Hsel.
  destruct (Nat.eqb_spec next0 dimension) as [E|E]; cbn [fst].
  - apply (fallback_scan_valid dimension heuristic_matrix _ (curr_pos st)
             (phmem st) Hscore num_warps Hwarps Hsome).
  - destruct Hsel as [Hsel|Hsel]; [contradiction|exact Hsel].
Qed.

Lemma calc_step_inv iter st :
  inv iter st -> iter < dimension -> inv (S iter) (step st iter).
Proof.
  intros Hinv Hi. pose proof (calc_next_valid iter st Hinv Hi) as [Hlt Hunv].
  destruct Hinv as [Hri [Hlen HP]].
  unfold step, calc_step. fold next_of.
  destruct (next_of st) as [next_node rng1]. cbn [fst] in Hlt, Hunv.
  unfold inv. cbn [was_visited route curr_pos phmem].
  split; [|split].
  - eapply route_invariant_step; eauto.
    intros n. apply is_node_visited_set. rewrite Hlen.
    apply Nat.Div0.div_lt_upper_bound. unfold MAX_VISITED_SIZE, WARP_SIZE in *. lia.
  - now rewrite set_node_visited_length.
  - destruct (_ =? 0); auto.
Qed.

Lemma calc_steps_inv (k : nat) :
  forall st, inv 1 st -> k < dimension ->
    inv (S k) (fold_left step (seq 1 k) st).
Proof.
  induction k as [|k IH]; intros st Hinv Hk; [exact Hinv|].
  rewrite seq_S, fold_left_app. simpl.
  apply calc_step_inv; [apply IH; [exact Hinv|lia]|lia].
Qed.

Lemma calc_init_inv (route0 : list nat) (phmem0 : M) (rng0 : nat) :
  length route0 = dimension -> nth 0 route0 0 < dimension -> P phmem0 ->
  inv 1 (calc_init route0 phmem0 rng0).
Proof.
  intros Hlen Hfirst HP0. unfold inv, calc_init.
  cbn [was_visited route curr_pos phmem].
  split; [|split].
  - apply route_invariant_init; auto.
    intros n. rewrite is_node_visited_set.
    + now rewrite is_node_visited_clear, orb_false_r.
    + rewrite repeat_length. apply Nat.Div0.div_lt_upper_bound.
      unfold MAX_VISITED_SIZE, WARP_SIZE in *. lia.
  - now rewrite set_node_visited_length, repeat_length.
  - exact HP0.
Qed.

Lemma calc_loop_route (route0 : list nat) (phmem0 : M) (rng0 : nat) :
  length route0 = dimension -> nth 0 route0 0 < dimension -> P phmem0 ->
  Permutation
    (route (calc_loop q0 phi initial_pheromone dimension heuristic_matrix nn_lists
                      NN_SIZE pher_mem_update_freq block_dim draws
                      (calc_init route0 phmem0 rng0)))
    (seq 0 dimension).
Proof.
  intros Hlen Hfirst HP0.
  pose proof (calc_steps_inv (dimension - 1) _ (calc_init_inv _ _ rng0 Hlen Hfirst HP0))
    as Hfinal.
  replace (S (dimension - 1)) with dimension in Hfinal by lia.
  destruct Hfinal as [Hri _]; [lia|].
  unfold calc_loop. fold step. eapply route_invariant_complete. exact Hri.
Qed.

End CalcFacts.

(** ** Per-step construction *)

Lemma is_marked_clear (d node : nat) : is_marked (repeat 0%Z d) node = false.
Proof.
  unfold is_marked.
  assert (E : nth node (repeat 0%Z d) 0%Z = 0%Z).
  { destruct (Nat.lt_ge_cases node d) as [Hlt|Hge].
    - now apply nth_repeat_lt.
    - apply nth_overflow. now rewrite repeat_length. }
  now rewrite E.
Qed.

Lemma is_marked_store (marked : list Z) (node other : nat) :
  node < length marked ->
  is_marked (store marked node 1%Z) other = (other =? node) || is_marked marked other.
Proof.
  intros Hn. unfold is_marked.
  destruct (Nat.eqb_spec other node) as [->|Hne].
  - now rewrite nth_store_same.
  - rewrite nth_store_other by auto. reflexivity.
Qed.

Lemma firstn_last_nth (l : list nat) (n : nat) :
  0 < n <= length l ->
  firstn n l = firstn (n - 1) l ++ [nth (n - 1) l 0].
Proof.
  intros Hn. replace n with (S (n - 1)) at 1 by lia.
  set (k := n - 1). assert (Hk : k < length l) by (unfold k; lia).
  clearbody k. clear Hn. revert k Hk.
  induction l as [|h t IH]; intros [|k] Hk; simpl in *; try lia.
  - reflexivity.
  - f_equal. apply IH. lia.
Qed.

Section SeparateFacts.

Context {M : Type} `{PhmemT M}.

Variable q0 phi initial_pheromone : Q.
Variable dimension : nat.
Variable heuristic_matrix : nat -> Q.
Variable nn_lists : nat -> nat.
Variable NN_SIZE pher_mem_update_freq num_warps : nat.
Variable draws : nat -> Q.

Variable P : M -> Prop.
Hypothesis HP_update :
  forall m u v, P m -> P (ph_update m u v phi initial_pheromone).
Hypothesis HP_pos : forall m k, P m -> (0 < ph_get m k)%Q.

Hypothesis Hheur : forall u v, u < dimension -> v < dimension -> u <> v ->
  (0 < heuristic_matrix (dimension * u + v))%Q.
Hypothesis Hnn : forall u tid, u < dimension -> tid < WARP_SIZE ->
  nn_lists (u * NN_SIZE + tid) < dimension.
Hypothesis Hwarps : 0 < num_warps.

Let block_dim := num_warps * WARP_SIZE.

Let launch := acs_select_next_node q0 phi initial_pheromone dimension
                heuristic_matrix nn_lists NN_SIZE block_dim draws
                pher_mem_update_freq.

Let inv (st : AntState) : Prop :=
  separate_invariant dimension P (ant_route st) (ant_visited_count st)
                     (ant_marked_nodes st) (ant_phmem st).

Lemma separate_launch_inv (st : AntState) :
  inv st -> ant_visited_count st < dimension ->
  exists st', launch st = Some st' /\ inv st' /\
              ant_visited_count st' = S (ant_visited_count st).
Proof.
  intros Hinv Hlt. unfold inv, separate_invariant in Hinv.
  destruct Hinv as [Hlen [Hmlen [Hcount [Hnd [Hrange [Hmark [Hmarked HP]]]]]]].
  set (route_len := ant_visited_count st) in *.
  set (pos := nth (route_len - 1) (ant_route st) 0).
  assert (Hfirstn : firstn route_len (ant_route st) =
                    firstn (route_len - 1) (ant_route st) ++ [pos]).
  { apply firstn_last_nth. lia. }
  assert (Hpos : pos < dimension).
  { apply Hrange. rewrite Hfirstn. apply in_or_app. right. now left. }
  set (was_visited := store (ant_marked_nodes st) pos 1%Z).
  set (visited := is_marked was_visited).
  assert (Hvis : forall n, visited n = (n =? pos) || is_marked (ant_marked_nodes st) n).
  { intros n. apply is_marked_store. lia. }
  assert (Hri : route_invariant dimension route_len visited (ant_route st) pos).
  { unfold route_invariant. repeat (split; [assumption || lia|]).
    split; [|reflexivity].
    intros n. rewrite Hvis, orb_true_iff, Nat.eqb_eq. split.
    - intros [->|Hm]; [|now apply Hmark].
      rewrite Hfirstn. apply in_or_app. right. now left.
    - rewrite Hfirstn. intros Hin. apply in_app_or in Hin.
      destruct Hin as [Hin|[<-|[]]]; [right; now apply Hmarked|now left]. }
  destruct (route_invariant_unvisited _ _ _ _ _ Hri Hlt) as [Hsome [_ Hv]].
  assert (Hscore : forall n, n < dimension -> visited n = false ->
            (0 < heuristic_matrix (dimension * pos + n)
                 * ph_get (ant_phmem st) (dimension * pos + n))%Q).
  { intros n Hn Hu. apply Qmult_lt_0_compat; [|now apply HP_pos].
    apply Hheur; auto. intros ->. congruence. }
  pose proof (select_from_nn_valid q0 dimension heuristic_matrix nn_lists NN_SIZE
                draws visited pos (ant_phmem st) Hscore
                (fun tid => Hnn _ tid Hpos) (ant_rng st)) as Hsel.
  pose proof (fallback_scan_step_valid dimension heuristic_matrix visited pos
                (ant_phmem st) Hscore num_warps Hwarps Hsome) as Hfb.
  cbv zeta in Hsel, Hfb.
  unfold launch, acs_select_next_node. fold route_len. fold pos.
  fold was_visited. fold visited. fold block_dim.
  replace (negb ((0 <? route_len) && (route_len <? dimension))) with false.
  2:{ symmetry. apply negb_false_iff, andb_true_iff. split; apply Nat.ltb_lt; lia. }
  replace (negb (pos <? dimension)) with false.
  2:{ symmetry. apply negb_false_iff, Nat.ltb_lt. exact Hpos. }
  destruct (select_from_nn _ _ _ _ _ _ _ _ _ _) as [next0 rng1]. cbn [fst] in Hsel.
  set (fb := fallback_scan dimension block_dim
               (scan_node_step dimension heuristic_matrix visited pos (ant_phmem st))) in *.
  change (fb < dimension /\ visited fb = false) in Hfb.
  assert (Hnext : exists next_node,
            (if next0 =? dimension
             then if (0 <? block_dim / WARP_SIZE) && (fb =? dimension)
                  then None else Some fb
             else Some next0) = Some next_node /\
            next_node < dimension /\ visited next_node = false).
  { destruct (Nat.eqb_spec next0 dimension) as [E|E].
    - destruct Hfb as [Hfb1 Hfb2].
      replace (fb =? dimension) with false by (symmetry; apply Nat.eqb_neq; lia).
      rewrite andb_false_r. eauto.
    - destruct Hsel as [Hsel|Hsel]; [contradiction|eauto]. }
  destruct Hnext as [next_node [-> [Hnlt Hnunv]]].
  eexists. split; [reflexivity|]. split; [|reflexivity].
  unfold inv, separate_invariant.
  cbn [ant_route ant_visited_count ant_marked_nodes ant_phmem].
  pose proof (route_invariant_step dimension route_len visited
                (is_marked (store was_visited next_node 1%Z))
                (ant_route st) pos next_node Hri Hlt Hnlt Hnunv) as Hstep.
  destruct Hstep as [Hlen' [Hcount' [Hnd' [Hrange' [Hvis' _]]]]].
  { intros n. apply is_marked_store. unfold was_visited. rewrite store_length. lia. }
  repeat (split; [assumption|]).
  split; [unfold was_visited; rewrite !store_length; exact Hmlen|].
  repeat (split; [assumption|]).
  split; [intros n Hn; now apply Hvis'|].
  split.
  - intros n Hn. apply Hvis'. replace (S route_len - 1) with route_len in Hn by lia.
    rewrite firstn_store_last by lia. apply in_or_app. left.
    now rewrite firstn_store_above in Hn by lia.
  - destruct (S route_len =? dimension); auto.
Qed.

Lemma separate_launches_inv (launches : nat) :
  forall st, inv st -> ant_visited_count st + launches <= dimension ->
    exists st',
      select_next_nodes q0 phi initial_pheromone dimension heuristic_matrix
        nn_lists NN_SIZE block_dim draws pher_mem_update_freq launches st
      = Some st' /\
      inv st' /\ ant_visited_count st' = ant_visited_count st + launches.
Proof.
  induction launches as [|k IH]; intros st Hinv Hle; simpl.
  - exists st. split; [reflexivity|]. split; [exact Hinv|lia].
  - destruct (separate_launch_inv st Hinv) as [st1 [E1 [Hinv1 Hcount1]]]; [lia|].
    fold launch. rewrite E1.
    destruct (IH st1 Hinv1) as [st' [E' [Hinv' Hcount']]]; [lia|].
    exists st'. split; [exact E'|]. split; [exact Hinv'|lia].
Qed.

Lemma separate_route (route0 : list nat) (phmem0 : M) (rng0 : nat) :
  length route0 = dimension -> nth 0 route0 0 < dimension -> P phmem0 ->
  exists st,
    build_ant_solution_separate q0 phi initial_pheromone dimension
      heuristic_matrix nn_lists NN_SIZE block_dim draws pher_mem_update_freq
      route0 phmem0 rng0 = Some st /\
    ant_visited_count st = dimension /\
    Permutation (ant_route st) (seq 0 dimension).
Proof.
  intros Hlen Hfirst HP0.
  assert (Hinit : inv (separate_init dimension route0 phmem0 rng0)).
  { unfold inv, separate_invariant, separate_init.
    cbn [ant_route ant_visited_count ant_marked_nodes ant_phmem].
    destruct route0 as [|r0 rest]; [simpl in *; lia|]. simpl in Hfirst.
    split; [exact Hlen|]. split; [apply repeat_length|].
    split; [simpl in Hlen; lia|].
    split; [simpl; constructor; [simpl; tauto|constructor]|].
    split; [simpl; intros x [<-|[]]; exact Hfirst|].
    split.
    - intros n Hn. fold (is_marked (repeat 0%Z dimension) n) in Hn.
      rewrite is_marked_clear in Hn. discriminate.
    - split; [simpl; tauto|exact HP0]. }
  destruct (separate_launches_inv (dimension - 1) _ Hinit) as [st [E [Hinv Hcount]]].
  { cbn [separate_init ant_visited_count]. lia. }
  cbn [separate_init ant_visited_count] in Hcount.
  exists st. split; [exact E|]. split; [lia|].
  destruct Hinv as [Hl [_ [_ [Hnd [Hrange _]]]]].
  replace (ant_visited_count st) with dimension in Hnd, Hrange by lia.
  assert (Eall : firstn dimension (ant_route st) = ant_route st)
    by (rewrite <- Hl; apply firstn_all).
  rewrite Eall in Hnd, Hrange. now apply route_is_permutation.
Qed.

End SeparateFacts.

(** ** Selective-memory construction *)

Lemma ffs_ballot (p : list bool) :
  length p <= 32 ->
  (exists i, nth i p false = true) ->
  exists i, ffs (ballot p) = S i /\ i < length p /\ nth i p false = true /\
            forall j, j < i -> nth j p false = false.
Proof.
  intros Hlen [i Hi]. unfold ffs.
  assert (Hilt : i < length p).
  { destruct (Nat.lt_ge_cases i (length p)) as [Hlt|Hge]; [exact Hlt|].
    rewrite nth_overflow in Hi by exact Hge. discriminate. }
  destruct (find (fun i => Z.testbit (ballot p) (Z.of_nat i)) (seq 0 32)) as [k|] eqn:E.
  - exists k. split; [reflexivity|].
    pose proof (find_some _ _ E) as [Hk Hbit]. cbv beta in Hbit.
    rewrite ballot_testbit in Hbit.
    assert (Hklt : k < length p).
    { destruct (Nat.lt_ge_cases k (length p)) as [Hlt|Hge]; [exact Hlt|].
      rewrite nth_overflow in Hbit by exact Hge. discriminate. }
    split; [exact Hklt|]. split; [exact Hbit|].
    intros j Hj. clear Hk Hbit.
    assert (Hgen : forall n s, find (fun i => Z.testbit (ballot p) (Z.of_nat i))
                                    (seq s n) = Some k ->
                               forall j, s <= j < k -> nth j p false = false).
    { induction n as [|n IH]; intros s Hf j' Hj'; simpl in Hf; [discriminate|].
      destruct (Z.testbit (ballot p) (Z.of_nat s)) eqn:Es.
      - injection Hf as <-. lia.
      - destruct (Nat.eq_dec j' s) as [->|Hne].
        + now rewrite ballot_testbit in Es.
        + apply (IH (S s) Hf). lia. }
    apply (Hgen 32 0 E). lia.
  - exfalso. assert (Hin : In i (seq 0 32)) by (apply in_seq; lia).
    pose proof (find_none _ _ E i Hin) as Hnone. cbv beta in Hnone.
    rewrite ballot_testbit in Hnone. congruence.
Qed.

Section SpmFacts.

Context {SP : Type} `{SelectivePhmemT SP}.

Variable q0 phi initial_pheromone : Q.
Variable dimension : nat.
Variable heuristic_matrix : nat -> Q.
Variable nn_lists : nat -> nat.
Variable NN_SIZE pher_mem_update_freq num_warps : nat.
Variable draws : nat -> Q.
Variable uninitialised : nat -> nat.

Hypothesis Htau : (0 < initial_pheromone)%Q.
Hypothesis Hheur : forall u v, u < dimension -> v < dimension -> u <> v ->
  (0 < heuristic_matrix (dimension * u + v))%Q.
Hypothesis Hnn : forall u tid, u < dimension -> tid < WARP_SIZE ->
  nn_lists (u * NN_SIZE + tid) < dimension.

Let block_dim := num_warps * WARP_SIZE.

Section AtNode.

Variable visited : nat -> bool.
Variable curr : nat.
Variable memory : SP.

Hypothesis Hcurr : curr < dimension.
Hypothesis Hvisited_curr : visited curr = true.

(** A pair (node, score) names an unvisited node whenever its score is
    positive. *)
Let sound (p : nat * Q) : Prop :=
  (0 < snd p)%Q -> fst p < dimension /\ visited (fst p) = false.

Lemma heuristic_ptr_positive n :
  n < dimension -> visited n = false ->
  (0 < heuristic_ptr dimension heuristic_matrix curr n)%Q.
Proof using Hheur Hcurr Hvisited_curr.
  clear block_dim.
  intros Hn Hu. unfold heuristic_ptr. apply Hheur; auto. intros ->. congruence.
Qed.

Lemma short_list_lane_sound tid :
  sound (short_list_lane dimension heuristic_matrix uninitialised
                         visited curr memory tid).
Proof using Type.
  clear block_dim.
  unfold short_list_lane, sound.
  destruct (tid <? sp_capacity memory);
    [destruct (_ && _) eqn:Eg|]; cbn [fst snd].
  - apply andb_true_iff in Eg. destruct Eg as [E1 E2].
    apply Nat.ltb_lt in E1. apply negb_true_iff in E2. auto.
  - intros Hlt. exfalso. revert Hlt. apply Qlt_irrefl.
  - intros Hlt. exfalso. revert Hlt. apply Qlt_irrefl.
Qed.

Section Exploitation.

Hypothesis Hany :
  any_lane (map (is_nn_unvisited nn_lists NN_SIZE visited curr) (seq 0 WARP_SIZE))
  = true.

Lemma closest_unvisited_nn_valid :
  let closest := exploit_closest_unvisited_nn dimension nn_lists NN_SIZE visited curr in
  closest < dimension /\ visited closest = false.
Proof using Hnn Hcurr Hany.
  clear block_dim.
  unfold exploit_closest_unvisited_nn.
  set (votes := map (is_nn_unvisited nn_lists NN_SIZE visited curr) (seq 0 WARP_SIZE)).
  assert (Hlen : length votes = WARP_SIZE)
    by (unfold votes; now rewrite length_map, length_seq).
  assert (Hex : exists i, nth i votes false = true).
  { unfold any_lane in Hany. apply existsb_exists in Hany.
    destruct Hany as [b [Hb ->]]. fold votes in Hb.
    apply In_nth with (d := false) in Hb. destruct Hb as [i [_ Hi]]. now exists i. }
  destruct (ffs_ballot votes) as [i [Ei [Hi [Hvote _]]]];
    [rewrite Hlen; unfold WARP_SIZE; lia|exact Hex|].
  rewrite Ei. replace (S i - 1) with i by lia.
  rewrite Hlen in Hi. unfold warp_bcast. rewrite nth_map_seq by exact Hi.
  unfold votes in Hvote. rewrite nth_map_seq in Hvote by exact Hi.
  unfold is_nn_unvisited in Hvote. apply negb_true_iff in Hvote.
  split; [apply Hnn; assumption|exact Hvote].
Qed.

Lemma exploit_nn_product_positive :
  (0 < exploit_nn_product initial_pheromone dimension heuristic_matrix nn_lists
                          NN_SIZE visited curr)%Q.
Proof using Htau Hheur Hnn Hcurr Hvisited_curr Hany.
  clear block_dim.
  unfold exploit_nn_product. destruct closest_unvisited_nn_valid as [Hlt Hunv].
  apply Qmult_lt_0_compat; [exact Htau|].
  now apply heuristic_ptr_positive.
Qed.

Lemma spm_exploit_valid :
  exists t,
    spm_exploit initial_pheromone dimension heuristic_matrix nn_lists NN_SIZE
                uninitialised visited curr memory = Some t /\
    t < dimension /\ visited t = false.
Proof using Htau Hheur Hnn Hcurr Hvisited_curr Hany.
  clear block_dim.
  unfold spm_exploit.
  pose proof exploit_nn_product_positive as Hnn_pos.
  pose proof closest_unvisited_nn_valid as Hclosest. cbv zeta in Hclosest.
  set (lanes := map (short_list_lane dimension heuristic_matrix uninitialised
                                     visited curr memory) (seq 0 WARP_SIZE)).
  assert (Hbest : sound (exploit_best_short_list dimension heuristic_matrix
                           uninitialised visited curr memory)).
  { unfold exploit_best_short_list. fold lanes.
    assert (Hne : lanes <> []) by (unfold lanes, WARP_SIZE; simpl; discriminate).
    destruct (warp_reduce_arg_max_ext_spec (dimension, 0%Q) lanes Hne) as [Hin _].
    apply in_map_iff in Hin. destruct Hin as [tid [<- _]].
    apply short_list_lane_sound. }
  destruct (exploit_best_short_list _ _ _ _ _ _) as [best_node max_product].
  unfold sound in Hbest. cbn [fst snd] in Hbest.
  set (nn_product := exploit_nn_product _ _ _ _ _ _ _) in *.
  replace (Qltb 0 nn_product) with true by (symmetry; now apply Qltb_lt).
  cbn [orb negb].
  destruct (Qltb max_product nn_product) eqn:E.
  - destruct Hclosest as [Hlt Hunv]. rewrite Hunv. eauto.
  - apply Qltb_ge in E.
    destruct Hbest as [Hlt Hunv]; [eapply Qlt_le_trans; eauto|].
    rewrite Hunv. eauto.
Qed.

End Exploitation.

Lemma spm_select_from_nn_valid (rng : nat) :
  exists next rng1,
    spm_select_from_nn q0 initial_pheromone dimension heuristic_matrix nn_lists
                       NN_SIZE draws uninitialised visited curr memory rng
    = Some (next, rng1) /\
    (next = dimension \/ (next < dimension /\ visited next = false)).
Proof using Htau Hheur Hnn Hcurr Hvisited_curr.
  clear block_dim.
  unfold spm_select_from_nn.
  destruct (any_lane _) eqn:Eany; [|eauto].
  destruct (Qltb (draws rng) q0).
  - destruct (spm_exploit_valid Eany) as [t [-> Ht]]. eauto.
  - set (best_idx := roulette_index _ _).
    assert (Hidx : best_idx < WARP_SIZE).
    { unfold best_idx, roulette_index, WARP_SIZE. lia. }
    unfold warp_bcast. rewrite nth_map_seq by exact Hidx.
    do 2 eexists. split; [reflexivity|].
    destruct (visited (spm_nn_id nn_lists NN_SIZE curr best_idx)) eqn:Ev;
      cbn [negb]; [now left|].
    right. split; [apply Hnn; assumption|exact Ev].
Qed.

Lemma spm_scan_node_good (l : list nat) :
  (forall i, In i l -> i < dimension) ->
  forall acc, (0 <= snd acc)%Q -> sound acc ->
    let r := fold_left (spm_scan_node dimension heuristic_matrix visited curr) l acc in
    (0 <= snd r)%Q /\ sound r /\
    (forall i, In i l -> visited i = false ->
       (heuristic_ptr dimension heuristic_matrix curr i <= snd r)%Q).
Proof using Type.
  clear block_dim.
  induction l as [|i l IH]; intros Hl acc H0 Hacc; simpl.
  - split; [exact H0|]. split; [exact Hacc|intros i []].
  - set (acc' := spm_scan_node dimension heuristic_matrix visited curr acc i).
    assert (Hstep : (0 <= snd acc')%Q /\ sound acc' /\ (snd acc <= snd acc')%Q /\
              (visited i = false ->
               (heuristic_ptr dimension heuristic_matrix curr i <= snd acc')%Q)).
    { unfold acc', spm_scan_node. destruct acc as [id mx].
      unfold sound in Hacc |- *. cbn [fst snd] in H0, Hacc |- *.
      set (h := heuristic_ptr dimension heuristic_matrix curr i).
      split; [eapply Qle_trans; [exact H0|apply fmax_ge_l]|].
      split; [|split; [apply fmax_ge_l|]].
      - intros Hpos. unfold fmax in Hpos.
        destruct (Qltb mx ((if visited i then 0 else 1) * h)) eqn:E; [|now apply Hacc].
        split; [apply Hl; now left|].
        destruct (visited i) eqn:Ev; [|reflexivity].
        exfalso. apply Qltb_lt in E.
        assert (E0 : (0 * h == 0)%Q) by ring. rewrite E0 in E.
        revert E. now apply Qle_not_lt.
      - intros Ev. rewrite Ev.
        eapply Qle_trans; [|apply fmax_ge_r].
        assert (E1 : (1 * h == h)%Q) by ring. rewrite E1. apply Qle_refl. }
    destruct Hstep as [H0' [Hs' [Hle Hi]]].
    destruct (IH (fun j Hj => Hl j (or_intror Hj)) acc' H0' Hs') as [H0'' [Hs'' Hall]].
    split; [exact H0''|]. split; [exact Hs''|].
    intros j [<-|Hj] Hv; [|auto].
    eapply Qle_trans; [apply Hi; exact Hv|].
    clear -IH Hl H0'. 
    assert (Hmono : forall l acc,
              (snd acc <= snd (fold_left
                 (spm_scan_node dimension heuristic_matrix visited curr) l acc))%Q).
    { clear. induction l as [|x l IHl]; intros acc; simpl; [apply Qle_refl|].
      eapply Qle_trans; [|apply IHl].
      unfold spm_scan_node. destruct acc as [id mx]. cbn [snd]. apply fmax_ge_l. }
    apply Hmono.
Qed.

Lemma spm_fallback_thread_good (tid : nat) :
  0 < block_dim ->
  let r := spm_fallback_thread initial_pheromone dimension heuristic_matrix
             block_dim uninitialised visited curr memory tid in
  sound r /\
  (forall i, In i (stride tid block_dim dimension) -> visited i = false ->
     (heuristic_ptr dimension heuristic_matrix curr i * initial_pheromone <= snd r)%Q).
Proof using Htau.
  clear Hheur Hnn Hcurr Hvisited_curr.
  clear q0 draws phi nn_lists NN_SIZE pher_mem_update_freq.
  intros Hb. unfold spm_fallback_thread.
  assert (Hstride : forall i, In i (stride tid block_dim dimension) -> i < dimension).
  { intros i Hi. apply stride_In in Hi; [tauto|exact Hb]. }
  assert (Hinit : sound (uninitialised tid, 0%Q)).
  { intros Hlt. exfalso. revert Hlt. apply Qlt_irrefl. }
  destruct (spm_scan_node_good _ Hstride (uninitialised tid, 0%Q) (Qle_refl 0) Hinit)
    as [H0 [Hs Hall]].
  destruct (fold_left _ _ _) as [my_node my_product].
  unfold sound in Hs |- *. cbn [fst snd] in H0, Hs, Hall.
  set (scaled := (my_product * initial_pheromone)%Q).
  assert (Hscaled0 : (0 <= scaled)%Q).
  { apply Qmult_le_0_compat; [exact H0|now apply Qlt_le_weak]. }
  assert (Hscaled : (0 < scaled)%Q -> my_node < dimension /\ visited my_node = false).
  { intros Hpos. apply Hs.
    destruct (Qlt_le_dec 0 my_product) as [Hlt|Hge]; [exact Hlt|].
    exfalso. assert (E : (my_product == 0)%Q) by (now apply Qle_antisym).
    unfold scaled in Hpos. rewrite E in Hpos.
    assert (E0 : (0 * initial_pheromone == 0)%Q) by ring. rewrite E0 in Hpos.
    revert Hpos. apply Qlt_irrefl. }
  assert (Hbound : forall i, In i (stride tid block_dim dimension) -> visited i = false ->
            (heuristic_ptr dimension heuristic_matrix curr i * initial_pheromone
             <= scaled)%Q).
  { intros i Hi Hv. unfold scaled. apply Qmult_le_compat_r;
      [now apply Hall|now apply Qlt_le_weak]. }
  destruct (tid <? sp_capacity memory); [destruct (_ && _) eqn:Eg|]; cbn [fst snd].
  - apply andb_true_iff in Eg. destruct Eg as [E1 E2].
    apply Nat.ltb_lt in E1. apply negb_true_iff in E2. split.
    + intros Hpos. unfold fmax in Hpos. destruct (Qltb scaled _); auto.
    + intros i Hi Hv. eapply Qle_trans; [now apply Hbound|apply fmax_ge_l].
  - split; assumption.
  - split; assumption.
Qed.

Hypothesis Hwarps : 0 < num_warps.
Hypothesis Hsome : exists n, n < dimension /\ visited n = false.

Lemma spm_fallback_scan_valid :
  let next := spm_fallback_scan initial_pheromone dimension heuristic_matrix
                block_dim uninitialised visited curr memory in
  next < dimension /\ visited next = false.
Proof using Htau Hheur Hcurr Hvisited_curr Hwarps Hsome.
  unfold spm_fallback_scan.
  assert (Hb : 0 < block_dim) by (unfold block_dim, WARP_SIZE; lia).
  assert (Ediv : block_dim / WARP_SIZE = num_warps).
  { unfold block_dim. apply Nat.div_mul. unfold WARP_SIZE. lia. }
  rewrite Ediv.
  set (thread := spm_fallback_thread initial_pheromone dimension heuristic_matrix
                   block_dim uninitialised visited curr memory).
  assert (Hex : exists tid, tid < num_warps * WARP_SIZE /\ (0 < snd (thread tid))%Q).
  { destruct Hsome as [n [Hn Hv]]. exists (n mod block_dim). split.
    - apply Nat.mod_upper_bound. lia.
    - eapply Qlt_le_trans;
        [|apply (spm_fallback_thread_good (n mod block_dim) Hb); [|exact Hv]].
      + apply Qmult_lt_0_compat; [now apply heuristic_ptr_positive|exact Htau].
      + apply stride_In; [exact Hb|]. split; [exact Hn|].
        exists (n / block_dim). pose proof (Nat.div_mod_eq n block_dim). lia. }
  pose proof (two_level_reduce (dimension, 0%Q) thread num_warps Hwarps Hex) as Hred.
  cbv zeta in Hred. destruct Hred as [Hne [[tid [_ Etid]] Hpos]].
  rewrite (match_nonempty _ _ _ Hne).
  unfold warp_reduce_arg_max. rewrite Etid in Hpos |- *.
  apply (spm_fallback_thread_good tid Hb). exact Hpos.
Qed.

End AtNode.

Hypothesis Hcap : dimension <= MAX_VISITED_SIZE * WARP_SIZE.
Hypothesis Hwarps : 0 < num_warps.

Let step := spm_step q0 phi initial_pheromone dimension heuristic_matrix nn_lists
                     NN_SIZE pher_mem_update_freq block_dim draws uninitialised.

Let inv (iter : nat) (st : @SpmState SP) : Prop :=
  route_invariant dimension iter (is_node_visited (spm_was_visited st))
                  (spm_route st) (spm_curr_pos st) /\
  length (spm_was_visited st) = MAX_VISITED_SIZE.

Lemma spm_step_inv iter st :
  inv iter st -> iter < dimension ->
  exists st', step (Some st) iter = Some st' /\ inv (S iter) st'.
Proof.
  intros [Hri Hlen] Hi.
  destruct (route_invariant_unvisited _ _ _ _ _ Hri Hi) as [Hsome [Hc Hv]].
  unfold step, spm_step.
  destruct (spm_select_from_nn_valid _ _ (spm_memory st) Hc Hv (spm_rng st))
    as [next0 [rng1 [-> Hsel]]].
  pose proof (spm_fallback_scan_valid _ _ (spm_memory st) Hc Hv Hwarps Hsome) as Hfb.
  cbv zeta in Hfb. fold block_dim in Hfb.
  set (next_node := if next0 =? dimension then _ else next0).
  assert (Hnext : next_node < dimension /\
                  is_node_visited (spm_was_visited st) next_node = false).
  { unfold next_node. destruct (Nat.eqb_spec next0 dimension) as [E|E]; [exact Hfb|].
    destruct Hsel as [Hsel|Hsel]; [contradiction|exact Hsel]. }
  destruct Hnext as [Hlt Hunv].
  eexists. split; [reflexivity|].
  unfold inv. cbn [spm_was_visited spm_route spm_curr_pos]. split.
  - eapply route_invariant_step; eauto.
    intros n. apply is_node_visited_set. rewrite Hlen.
    apply Nat.Div0.div_lt_upper_bound. unfold MAX_VISITED_SIZE, WARP_SIZE in *. lia.
  - now rewrite set_node_visited_length.
Qed.

Lemma spm_steps_inv (k : nat) :
  forall st, inv 1 st -> k < dimension ->
    exists st', fold_left step (seq 1 k) (Some st) = Some st' /\ inv (S k) st'.
Proof.
  induction k as [|k IH]; intros st Hinv Hk; [exists st; auto|].
  rewrite seq_S, fold_left_app. simpl.
  destruct (IH st Hinv) as [st1 [-> Hinv1]]; [lia|].
  apply spm_step_inv; [exact Hinv1|lia].
Qed.

Lemma spm_loop_route (route0 : list nat) (memory : SP) (rng0 : nat) :
  length route0 = dimension -> nth 0 route0 0 < dimension ->
  exists st,
    spm_loop q0 phi initial_pheromone dimension heuristic_matrix nn_lists NN_SIZE
             pher_mem_update_freq block_dim draws uninitialised
             (spm_init route0 memory rng0) = Some st /\
    Permutation (spm_route st) (seq 0 dimension).
Proof.
  intros Hlen Hfirst.
  assert (Hinit : inv 1 (spm_init route0 memory rng0)).
  { unfold inv, spm_init. cbn [spm_was_visited spm_route spm_curr_pos]. split.
    - apply route_invariant_init; auto.
      intros n. rewrite is_node_visited_set.
      + now rewrite is_node_visited_clear, orb_false_r.
      + rewrite repeat_length. apply Nat.Div0.div_lt_upper_bound.
        unfold MAX_VISITED_SIZE, WARP_SIZE in *. lia.
    - now rewrite set_node_visited_length, repeat_length. }
  destruct (spm_steps_inv (dimension - 1) _ Hinit) as [st [E [Hri _]]]; [lia|].
  replace (S (dimension - 1)) with dimension in Hri by lia.
  exists st. split; [exact E|]. eapply route_invariant_complete. exact Hri.
Qed.

End SpmFacts.

(** ** Completed routes *)

Lemma acs_ant_init_start (dimension rand_uint : nat) (route : list nat) :
  length route = dimension -> 0 < dimension ->
  length (acs_ant_init dimension rand_uint route) = dimension /\
  nth 0 (acs_ant_init dimension rand_uint route) 0 < dimension.
Proof.
  intros Hlen Hd. unfold acs_ant_init. rewrite store_length. split; [exact Hlen|].
  rewrite nth_store_same by lia. apply Nat.mod_upper_bound. lia.
Qed.

(** C1: the route a block of 16 threads leaves behind is no permutation
    of [0,N). With a block smaller than a warp [num_warps] is 0, no thread
    takes part in the last reduction of the scan over all the nodes, and
    thread 0 commits the value [dimension] left in [next_pos[0]]: on three
    nodes, from the start node 0 whose nearest neighbours are all visited,
    [acs_calc_solution] leaves the route [0; 3; 3], reported as complete
    (visited count 3), which [is_valid_route] rejects. *)
Theorem partial_warp_route_is_no_permutation :
  let res := acs_calc_solution (M := MatrixPhmem) (1 # 2) (1 # 10) 1 3
               (fun _ => 1%Q) (fun _ => 1%Q) (fun _ => 0) 32 1 16
               (fun _ => (1 # 4)%Q) (acs_ant_init 3 0 [0; 0; 0])
               (mkMatrixPhmem 3 (fun _ => 1%Q)) 0 in
  res_route res = [0; 3; 3] /\
  res_visited_count res = 3 /\
  is_valid_route (res_route res) 3 = false /\
  ~ Permutation (res_route res) (seq 0 3).
Proof.
  cbv zeta.
  assert (E : res_route
                (acs_calc_solution (M := MatrixPhmem) (1 # 2) (1 # 10) 1 3
                   (fun _ => 1%Q) (fun _ => 1%Q) (fun _ => 0) 32 1 16
                   (fun _ => (1 # 4)%Q) (acs_ant_init 3 0 [0; 0; 0])
                   (mkMatrixPhmem 3 (fun _ => 1%Q)) 0) = [0; 3; 3])
    by (vm_compute; reflexivity).
  rewrite E. split; [reflexivity|]. split; [reflexivity|].
  split; [vm_compute; reflexivity|].
  intros HP. apply (Permutation_in 3) in HP; [|simpl; auto].
  simpl in HP. lia.
Qed.

(** ** Exploitation in the selective-memory variant *)

(** C8: in the exploitation branch of the selective-memory kernel,
    whenever some nearest neighbour of the current node is unvisited, the
    best default-pheromone neighbour or the best short-list candidate has a
    positive score, and the node selected is an unvisited node: none of the
    two assertions fails. The default pheromone and the heuristic values
    between distinct nodes are positive, and the neighbour list holds node
    indices. *)
Theorem spm_exploitation_assertions_hold
        {SP : Type} `{SelectivePhmemT SP}
        (initial_pheromone : Q) (dimension : nat) (heuristic_matrix : nat -> Q)
        (nn_lists : nat -> nat) (NN_SIZE : nat) (uninitialised : nat -> nat)
        (visited : nat -> bool) (curr : nat) (memory : SP) :
  (0 < initial_pheromone)%Q ->
  (forall u v, u < dimension -> v < dimension -> u <> v ->
               (0 < heuristic_matrix (dimension * u + v)%nat)%Q) ->
  (forall u tid, u < dimension -> tid < WARP_SIZE ->
                 nn_lists (u * NN_SIZE + tid) < dimension) ->
  curr < dimension ->
  visited curr = true ->
  any_lane (map (is_nn_unvisited nn_lists NN_SIZE visited curr) (seq 0 WARP_SIZE))
  = true ->
  let max_product :=
    snd (exploit_best_short_list dimension heuristic_matrix uninitialised
                                 visited curr memory) in
  let nn_product :=
    exploit_nn_product initial_pheromone dimension heuristic_matrix nn_lists
                       NN_SIZE visited curr in
  ((0 < nn_product)%Q \/ (0 < max_product)%Q) /\
  exists t,
    spm_exploit initial_pheromone dimension heuristic_matrix nn_lists NN_SIZE
                uninitialised visited curr memory = Some t /\
    t < dimension /\ visited t = false.
Proof.
  intros Htau Hheur Hnn Hcurr Hvis Hany max_product nn_product. split.
  - left. apply (exploit_nn_product_positive initial_pheromone dimension
                   heuristic_matrix nn_lists NN_SIZE Htau Hheur Hnn visited curr
                   Hcurr Hvis Hany).
  - apply (spm_exploit_valid initial_pheromone dimension heuristic_matrix nn_lists
             NN_SIZE uninitialised Htau Hheur Hnn visited curr memory
             Hcurr Hvis Hany).
Qed.

Lemma spm_exploitation_assertions_hold_witness :
  exists t,
    spm_exploit 1 3 (fun _ => 1%Q) (fun k => k mod 3) 32 (fun _ => 0)
                (fun n => n =? 0) 0 (mkSelectivePhmem 4 8 1 (fun _ => []))
    = Some t /\
    t < 3 /\ (t =? 0) = false.
Proof.
  refine (proj2 (spm_exploitation_assertions_hold 1 3 (fun _ => 1%Q)
                   (fun k => k mod 3) 32 (fun _ => 0) (fun n => n =? 0) 0
                   (mkSelectivePhmem 4 8 1 (fun _ => [])) _ _ _ _ _ _)).
  - reflexivity.
  - intros u v _ _ _. reflexivity.
  - intros u tid _ _. apply Nat.mod_upper_bound. lia.
  - lia.
  - reflexivity.
  - reflexivity.
Defined.

(** ** Local pheromone deposits *)

Lemma firstn_le_eq {A : Type} (l l' : list A) (n m : nat) :
  n <= m -> firstn m l = firstn m l' -> firstn n l = firstn n l'.
Proof.
  intros Hnm E. rewrite <- (Nat.min_l n m Hnm), <- !firstn_firstn. now rewrite E.
Qed.

Lemma nth_firstn_eq (l l' : list nat) (n j : nat) :
  j < n -> firstn n l = firstn n l' -> nth j l 0 = nth j l' 0.
Proof.
  intros Hj E.
  pose proof (nth_firstn n l j 0) as H1. pose proof (nth_firstn n l' j 0) as H2.
  apply Nat.ltb_lt in Hj. rewrite Hj in H1, H2. rewrite <- H1, <- H2. now rewrite E.
Qed.

Lemma flat_map_ext_in {A B : Type} (f g : A -> list B) (l : list A) :
  (forall a, In a l -> f a = g a) -> flat_map f l = flat_map g l.
Proof.
  induction l as [|a l IH]; intros Hfg; simpl; [reflexivity|].
  rewrite Hfg by now left. f_equal. apply IH. intros b Hb. apply Hfg. now right.
Qed.

Lemma due_deposit_store m phi tau0 route i x t :
  t < i ->
  due_deposit m phi tau0 (store route i x) t = due_deposit m phi tau0 route t.
Proof.
  intros Ht. unfold due_deposit.
  rewrite !nth_store_other by lia. reflexivity.
Qed.

Section CalcTraceFacts.

Context {M : Type} `{PhmemT M}.

Variable q0 phi initial_pheromone : Q.
Variable dimension : nat.
Variable heuristic_matrix : nat -> Q.
Variable nn_lists : nat -> nat.
Variable NN_SIZE pher_mem_update_freq block_dim : nat.
Variable draws : nat -> Q.

Let step := calc_step (M := Traced M) q0 phi initial_pheromone dimension
                      heuristic_matrix nn_lists NN_SIZE pher_mem_update_freq
                      block_dim draws.

Lemma calc_step_trace st iter :
  0 < iter < length (route st) ->
  length (route (step st iter)) = length (route st) /\
  firstn iter (route (step st iter)) = firstn iter (route st) /\
  traced_calls (phmem (step st iter)) =
  traced_calls (phmem st) ++
  due_deposit pher_mem_update_freq phi initial_pheromone (route (step st iter)) iter.
Proof.
  intros Hi. unfold step, calc_step.
  destruct (calc_next _ _ _ _ _ _ _ st) as [next_node rng1].
  cbn [route phmem]. rewrite store_length.
  split; [reflexivity|]. split; [apply firstn_store_above; lia|].
  unfold due_deposit. rewrite nth_store_same by lia.
  destruct (iter mod pher_mem_update_freq =? 0); [reflexivity|].
  now rewrite app_nil_r.
Qed.

Lemma calc_steps_trace (k : nat) :
  forall st, k < length (route st) ->
    let st' := fold_left step (seq 1 k) st in
    length (route st') = length (route st) /\
    firstn 1 (route st') = firstn 1 (route st) /\
    traced_calls (phmem st') =
    traced_calls (phmem st) ++
    flat_map (due_deposit pher_mem_update_freq phi initial_pheromone (route st'))
             (seq 1 k).
Proof.
  induction k as [|k IH]; intros st Hk.
  - simpl. rewrite app_nil_r. auto.
  - assert (E : fold_left step (seq 1 (S k)) st =
                step (fold_left step (seq 1 k) st) (1 + k)).
    { now rewrite seq_S, fold_left_app. }
    cbv zeta. rewrite E. clear E.
    destruct (IH st) as [Hlen [Hfirst Htrace]]; [lia|].
    set (st1 := fold_left step (seq 1 k) st) in *.
    destruct (calc_step_trace st1 (1 + k)) as [Hlen' [Hfirst' Htrace']]; [lia|].
    split; [congruence|]. split.
    + rewrite <- Hfirst. apply (firstn_le_eq _ _ 1 (1 + k)); [lia|exact Hfirst'].
    + rewrite Htrace', Htrace, seq_S, flat_map_app, <- app_assoc. f_equal.
      f_equal; [|simpl; now rewrite app_nil_r].
      apply flat_map_ext_in. intros t Ht. apply in_seq in Ht.
      unfold step, calc_step.
      destruct (calc_next _ _ _ _ _ _ _ st1) as [next_node rng1]. cbn [route].
      symmetry. apply due_deposit_store. lia.
Qed.

End CalcTraceFacts.

Section SpmTraceFacts.

Context {SP : Type} `{SelectivePhmemT SP}.

Variable q0 phi initial_pheromone : Q.
Variable dimension : nat.
Variable heuristic_matrix : nat -> Q.
Variable nn_lists : nat -> nat.
Variable NN_SIZE pher_mem_update_freq block_dim : nat.
Variable draws : nat -> Q.
Variable uninitialised : nat -> nat.

Let step := spm_step (SP := Traced SP) q0 phi initial_pheromone dimension
                     heuristic_matrix nn_lists NN_SIZE pher_mem_update_freq
                     block_dim draws uninitialised.

Lemma spm_step_trace st iter st' :
  0 < iter < length (spm_route st) ->
  step (Some st) iter = Some st' ->
  length (spm_route st') = length (spm_route st) /\
  firstn iter (spm_route st') = firstn iter (spm_route st) /\
  traced_calls (spm_memory st') =
  traced_calls (spm_memory st) ++
  due_deposit pher_mem_update_freq phi initial_pheromone (spm_route st') iter.
Proof.
  intros Hi. unfold step, spm_step.
  destruct (spm_select_from_nn _ _ _ _ _ _ _ _ _ _ _ _) as [[next0 rng1]|];
    [|discriminate].
  intros E. injection E as <-. cbn [spm_route spm_memory]. rewrite store_length.
  split; [reflexivity|]. split; [apply firstn_store_above; lia|].
  unfold due_deposit. rewrite nth_store_same by lia.
  destruct (iter mod pher_mem_update_freq =? 0); [reflexivity|].
  now rewrite app_nil_r.
Qed.

Lemma spm_step_none iter : step None iter = None.
Proof. reflexivity. Qed.

Lemma spm_steps_none (l : list nat) : fold_left step l None = None.
Proof. induction l as [|x l IH]; simpl; [reflexivity|exact IH]. Qed.

Lemma spm_steps_trace (k : nat) :
  forall st st', k < length (spm_route st) ->
    fold_left step (seq 1 k) (Some st) = Some st' ->
    length (spm_route st') = length (spm_route st) /\
    firstn 1 (spm_route st') = firstn 1 (spm_route st) /\
    traced_calls (spm_memory st') =
    traced_calls (spm_memory st) ++
    flat_map (due_deposit pher_mem_update_freq phi initial_pheromone (spm_route st'))
             (seq 1 k).
Proof.
  induction k as [|k IH]; intros st st' Hk.
  - simpl. intros E. injection E as <-. rewrite app_nil_r. auto.
  - rewrite seq_S, fold_left_app. simpl fold_left at 1.
    destruct (fold_left step (seq 1 k) (Some st)) as [st1|] eqn:E1;
      [|rewrite spm_step_none; discriminate].
    intros E.
    destruct (IH st st1) as [Hlen [Hfirst Htrace]]; [lia|exact E1|].
    destruct (spm_step_trace st1 (1 + k) st') as [Hlen' [Hfirst' Htrace']];
      [lia|exact E|].
    split; [congruence|]. split.
    + rewrite <- Hfirst. apply (firstn_le_eq _ _ 1 (1 + k)); [lia|exact Hfirst'].
    + rewrite Htrace', Htrace, flat_map_app, <- app_assoc. f_equal.
      f_equal; [|simpl; now rewrite app_nil_r].
      apply flat_map_ext_in. intros t Ht. apply in_seq in Ht.
      unfold due_deposit.
      assert (Hnth : forall j, j <= k ->
                nth j (spm_route st') 0 = nth j (spm_route st1) 0).
      { intros j Hj. apply (nth_firstn_eq _ _ (1 + k)); [lia|exact Hfirst']. }
      rewrite !Hnth by lia. reflexivity.
Qed.

End SpmTraceFacts.

Section SeparateTraceFacts.

Context {M : Type} `{PhmemT M}.

Variable q0 phi initial_pheromone : Q.
Variable dimension : nat.
Variable heuristic_matrix : nat -> Q.
Variable nn_lists : nat -> nat.
Variable NN_SIZE block_dim : nat.
Variable draws : nat -> Q.

Lemma separate_launch_trace (pher_mem_update_freq : nat) (st st' : AntState) :
  acs_select_next_node (M := Traced M) q0 phi initial_pheromone dimension
    heuristic_matrix nn_lists NN_SIZE block_dim draws pher_mem_update_freq st
  = Some st' ->
  exists next_node,
    ant_route st' = store (ant_route st) (ant_visited_count st) next_node /\
    ant_visited_count st' = S (ant_visited_count st) /\
    traced_calls (ant_phmem st') =
    traced_calls (ant_phmem st) ++
    mkUpdateCall (nth (ant_visited_count st - 1) (ant_route st) 0) next_node
                 phi initial_pheromone ::
    (if S (ant_visited_count st) =? dimension
     then [mkUpdateCall next_node (nth 0 (ant_route st') 0) phi initial_pheromone]
     else []).
Proof.
  unfold acs_select_next_node. cbv zeta.
  destruct (negb _); [discriminate|].
  destruct (negb _); [discriminate|].
  destruct (select_from_nn _ _ _ _ _ _ _ _ _ _) as [next0 rng1].
  match goal with
  | |- match ?x with _ => _ end = _ -> _ => destruct x as [next_node|]
  end; [|discriminate].
  destruct (S (ant_visited_count st) =? dimension);
    intros E; injection E as <-; exists next_node; simpl.
  - rewrite <- app_assoc. auto.
  - auto.
Qed.

End SeparateTraceFacts.

Lemma repeated_update_trace {M : Type} `{PhmemT M} (l : list nat) :
  forall (t : Traced M) u v decay deposit,
    traced_calls (fold_left (fun ph (_ : nat) => ph_update ph u v decay deposit) l t) =
    traced_calls t ++ repeat (mkUpdateCall u v decay deposit) (length l).
Proof.
  induction l as [|x l IH]; intros t u v decay deposit;
    cbn [fold_left length repeat].
  - now rewrite app_nil_r.
  - rewrite IH.
    change (traced_calls (ph_update t u v decay deposit))
      with (traced_calls t ++ [mkUpdateCall u v decay deposit]).
    now rewrite <- app_assoc.
Qed.

Lemma calc_loop_deposits
      {M : Type} `{PhmemT M}
      (q0 phi initial_pheromone : Q) (dimension : nat)
      (heuristic_matrix : nat -> Q) (nn_lists : nat -> nat)
      (NN_SIZE pher_mem_update_freq block_dim : nat) (draws : nat -> Q)
      (route0 : list nat) (phmem0 : M) (rng0 : nat) :
  0 < dimension ->
  length route0 = dimension ->
  let st := calc_loop (M := Traced M) q0 phi initial_pheromone dimension
              heuristic_matrix nn_lists NN_SIZE pher_mem_update_freq block_dim
              draws (calc_init route0 (mkTraced phmem0 []) rng0) in
  traced_calls (phmem st) =
  due_deposits pher_mem_update_freq phi initial_pheromone (route st) dimension.
Proof.
  intros Hdim Hlen. cbv zeta. unfold calc_loop, due_deposits.
  destruct (calc_steps_trace q0 phi initial_pheromone dimension heuristic_matrix
              nn_lists NN_SIZE pher_mem_update_freq block_dim draws (dimension - 1)
              (calc_init route0 (mkTraced phmem0 []) rng0)) as [_ [_ Htrace]].
  - cbn [calc_init route]. lia.
  - exact Htrace.
Qed.

Lemma spm_deposits
      {SP : Type} `{SelectivePhmemT SP}
      (q0 phi : Q) (dimension : nat)
      (heuristic_matrix dist_matrix : nat -> Q) (nn_lists : nat -> nat)
      (NN_SIZE pher_mem_update_freq block_dim : nat) (draws : nat -> Q)
      (uninitialised : nat -> nat)
      (route0 : list nat) (memory : SP) (rng0 : nat) :
  0 < dimension ->
  length route0 = dimension ->
  forall res,
    acs_spm_calc_solution (SP := Traced SP) q0 phi dimension (mkTraced memory [])
      heuristic_matrix dist_matrix nn_lists NN_SIZE pher_mem_update_freq
      block_dim draws uninitialised route0 rng0 = Some res ->
    traced_calls (spm_res_memory res) =
    due_deposits pher_mem_update_freq phi (sp_default_pheromone memory)
                 (spm_res_route res) dimension.
Proof.
  intros Hdim Hlen res. unfold acs_spm_calc_solution, spm_calc_solution, spm_loop.
  destruct (fold_left _ _ _) as [st|] eqn:E; [|discriminate].
  intros Eres. injection Eres as <-. cbn [spm_res_memory spm_res_route].
  apply spm_steps_trace in E; [|cbn [spm_init spm_route]; lia].
  destruct E as [_ [_ Htrace]]. exact Htrace.
Qed.

(** C2 (as the code has it): with update frequency [m], the monolithic and
    the selective-memory strategies issue, over the construction of a tour,
    exactly the deposits of the steps [t] with [t mod m = 0], each on the
    edge traversed at that step, with the local decay [phi] and the
    initial-pheromone value; the per-step strategy deposits on the traversed
    edge at every launch, whatever [m]. The frequency is positive, the source
    computing [iter % m]. *)
Theorem local_deposits_by_strategy
        {M : Type} `{PhmemT M} {SP : Type} `{SelectivePhmemT SP}
        (q0 phi initial_pheromone : Q) (dimension : nat)
        (heuristic_matrix dist_matrix : nat -> Q) (nn_lists : nat -> nat)
        (NN_SIZE pher_mem_update_freq block_dim : nat) (draws : nat -> Q)
        (uninitialised : nat -> nat)
        (route0 : list nat) (phmem0 : M) (memory : SP) (rng0 : nat) :
  0 < pher_mem_update_freq ->
  0 < dimension ->
  length route0 = dimension ->
  (let st := calc_loop (M := Traced M) q0 phi initial_pheromone dimension
               heuristic_matrix nn_lists NN_SIZE pher_mem_update_freq block_dim
               draws (calc_init route0 (mkTraced phmem0 []) rng0) in
   traced_calls (phmem st) =
   due_deposits pher_mem_update_freq phi initial_pheromone (route st) dimension) /\
  (forall res,
     acs_spm_calc_solution (SP := Traced SP) q0 phi dimension (mkTraced memory [])
       heuristic_matrix dist_matrix nn_lists NN_SIZE pher_mem_update_freq
       block_dim draws uninitialised route0 rng0 = Some res ->
     traced_calls (spm_res_memory res) =
     due_deposits pher_mem_update_freq phi (sp_default_pheromone memory)
                  (spm_res_route res) dimension) /\
  (forall (st st' : AntState (M := Traced M)),
     acs_select_next_node q0 phi initial_pheromone dimension heuristic_matrix
       nn_lists NN_SIZE block_dim draws pher_mem_update_freq st = Some st' ->
     (forall other_freq,
        acs_select_next_node q0 phi initial_pheromone dimension heuristic_matrix
          nn_lists NN_SIZE block_dim draws other_freq st = Some st') /\
     exists next_node,
       ant_route st' = store (ant_route st) (ant_visited_count st) next_node /\
       ant_visited_count st' = S (ant_visited_count st) /\
       traced_calls (ant_phmem st') =
       traced_calls (ant_phmem st) ++
       mkUpdateCall (nth (ant_visited_count st - 1) (ant_route st) 0) next_node
                    phi initial_pheromone ::
       (if S (ant_visited_count st) =? dimension
        then [mkUpdateCall next_node (nth 0 (ant_route st') 0) phi initial_pheromone]
        else [])).
Proof.
  intros _ Hdim Hlen. split; [|split].
  - now apply calc_loop_deposits.
  - now apply spm_deposits.
  - intros st st' E. split; [intros other_freq; exact E|].
    now apply (separate_launch_trace q0 phi initial_pheromone dimension
                 heuristic_matrix nn_lists NN_SIZE block_dim draws
                 pher_mem_update_freq).
Qed.

Lemma local_deposits_by_strategy_witness :
  let st := calc_loop (M := Traced MatrixPhmem) (1 # 2) (1 # 10) 1 4
              (fun _ => 1%Q) (fun k => k mod 4) 32 2 32 (fun _ => 0%Q)
              (calc_init [0; 0; 0; 0] (mkTraced (mkMatrixPhmem 4 (fun _ => 1%Q)) []) 0) in
  traced_calls (phmem st) = due_deposits 2 (1 # 10) 1 (route st) 4.
Proof.
  refine (proj1 (local_deposits_by_strategy (M := MatrixPhmem) (SP := SelectivePhmem)
                   (1 # 2) (1 # 10) 1 4 (fun _ => 1%Q) (fun _ => 1%Q)
                   (fun k => k mod 4) 32 2 32 (fun _ => 0%Q) (fun _ => 0)
                   [0; 0; 0; 0] (mkMatrixPhmem 4 (fun _ => 1%Q))
                   (mkSelectivePhmem 5 8 1 (fun _ => [])) 0 _ _ _)).
  - lia.
  - lia.
  - reflexivity.
Defined.

(** C2 as stated fails in the per-step strategy: with [m = 2], the launch
    that commits the node of step 1 deposits on the traversed edge, although
    [1 mod 2] is not 0. *)
Lemma per_step_deposit_ignores_frequency :
  match acs_select_next_node (M := Traced MatrixPhmem) (1 # 2) (1 # 10) 1 3
          (fun _ => 1%Q) (fun k => k mod 3) 32 32 (fun _ => 0%Q) 2
          (separate_init 3 (acs_ant_init 3 0 [0; 0; 0])
                         (mkTraced (mkMatrixPhmem 3 (fun _ => 1%Q)) []) 0)
  with
  | Some st' =>
      ant_visited_count st' = 2 /\
      ant_route st' = [0; 1; 0] /\
      traced_calls (ant_phmem st') = [mkUpdateCall 0 1 (1 # 10) 1] /\
      1 mod 2 <> 0 /\
      due_deposit 2 (1 # 10) 1 (ant_route st') 1 = []
  | None => False
  end.
Proof.
  vm_compute. repeat split; discriminate.
Qed.

(** C3 (as the code has it): on the final construction step the
    monolithic strategy issues the deposit on the closing edge (last node of
    the route to the first, decay [phi], initial-pheromone value) if and
    only if [N mod m = 0]; the per-step strategy issues it once, on the
    launch that completes the route, whatever [m]. The frequency is
    positive, the source computing [dimension % m]. *)
Theorem closing_deposit_by_strategy
        {M : Type} `{PhmemT M}
        (q0 phi initial_pheromone : Q) (dimension : nat)
        (heuristic_matrix dist_matrix : nat -> Q) (nn_lists : nat -> nat)
        (NN_SIZE pher_mem_update_freq block_dim : nat) (draws : nat -> Q)
        (route0 : list nat) (phmem0 : M) (rng0 : nat) :
  0 < pher_mem_update_freq ->
  0 < dimension ->
  0 < block_dim ->
  length route0 = dimension ->
  (let res := acs_calc_solution (M := Traced M) q0 phi initial_pheromone dimension
                heuristic_matrix dist_matrix nn_lists NN_SIZE pher_mem_update_freq
                block_dim draws route0 (mkTraced phmem0 []) rng0 in
   exists k,
     traced_calls (res_phmem res) =
     due_deposits pher_mem_update_freq phi initial_pheromone (res_route res) dimension
     ++ repeat (closing_deposit phi initial_pheromone (res_route res) dimension) k /\
     (0 < k <-> dimension mod pher_mem_update_freq = 0)) /\
  (forall (st st' : AntState (M := Traced M)),
     length (ant_route st) = dimension ->
     acs_select_next_node q0 phi initial_pheromone dimension heuristic_matrix
       nn_lists NN_SIZE block_dim draws pher_mem_update_freq st = Some st' ->
     exists step_deposit,
       traced_calls (ant_phmem st') =
       traced_calls (ant_phmem st) ++
       step_deposit ::
       (if ant_visited_count st' =? dimension
        then [closing_deposit phi initial_pheromone (ant_route st') dimension]
        else [])).
Proof.
  intros Hfreq Hdim Hblock Hlen.
  pose proof (calc_loop_deposits q0 phi initial_pheromone dimension
                heuristic_matrix nn_lists NN_SIZE pher_mem_update_freq
                block_dim draws route0 phmem0 rng0 Hdim Hlen) as Hmono.
  cbv zeta in Hmono. split.
  - cbv zeta. unfold acs_calc_solution. cbn [res_phmem res_route].
    unfold calc_closing_update.
    destruct (Nat.eqb_spec (dimension mod pher_mem_update_freq) 0) as [E|E].
    + exists block_dim. rewrite repeated_update_trace, length_seq.
      rewrite Hmono. split; [reflexivity|]. tauto.
    + exists 0. rewrite Hmono, app_nil_r.
      split; [reflexivity|]. split; [lia|contradiction].
  - intros st st' Hroute E.
    destruct (separate_launch_trace q0 phi initial_pheromone dimension
                heuristic_matrix nn_lists NN_SIZE block_dim draws
                pher_mem_update_freq st st' E) as [next_node [Er [Ec Et]]].
    eexists. rewrite Et, Ec. f_equal. f_equal.
    destruct (Nat.eqb_spec (S (ant_visited_count st)) dimension) as [Ed|Ed];
      [|reflexivity].
    unfold closing_deposit. rewrite Er at 2.
    replace (dimension - 1) with (ant_visited_count st) by lia.
    rewrite nth_store_same by lia. reflexivity.
Qed.

Lemma closing_deposit_by_strategy_witness :
  let res := acs_calc_solution (M := Traced MatrixPhmem) (1 # 2) (1 # 10) 1 4
               (fun _ => 1%Q) (fun _ => 1%Q) (fun k => k mod 4) 32 2 32
               (fun _ => 0%Q) [0; 0; 0; 0]
               (mkTraced (mkMatrixPhmem 4 (fun _ => 1%Q)) []) 0 in
  exists k,
    traced_calls (res_phmem res) =
    due_deposits 2 (1 # 10) 1 (res_route res) 4
    ++ repeat (closing_deposit (1 # 10) 1 (res_route res) 4) k /\
    (0 < k <-> 4 mod 2 = 0).
Proof.
  refine (proj1 (closing_deposit_by_strategy (M := MatrixPhmem)
                   (1 # 2) (1 # 10) 1 4 (fun _ => 1%Q) (fun _ => 1%Q)
                   (fun k => k mod 4) 32 2 32 (fun _ => 0%Q)
                   [0; 0; 0; 0] (mkMatrixPhmem 4 (fun _ => 1%Q)) 0 _ _ _ _)).
  - lia.
  - lia.
  - lia.
  - reflexivity.
Defined.

(** C3 as stated fails on three inputs. In the per-step strategy with
    [N = 3] and [m = 2] the closing edge receives its deposit although
    [3 mod 2] is not 0. In the selective-memory strategy with [N = 3] and
    [m = 1] the deposits of steps 1 and 2 are issued and none on the closing
    edge, although [3 mod 1 = 0]. In the monolithic strategy with [N = 4],
    [m = 2] and a block of 32 threads the call on the closing edge is issued
    by each of the 32 threads. *)
Lemma closing_deposit_differs_by_strategy :
  match build_ant_solution_separate (M := Traced MatrixPhmem) (1 # 2) (1 # 10) 1 3
          (fun _ => 1%Q) (fun k => k mod 3) 32 32 (fun _ => 0%Q) 2
          (acs_ant_init 3 0 [0; 0; 0])
          (mkTraced (mkMatrixPhmem 3 (fun _ => 1%Q)) []) 0
  with
  | Some st =>
      ant_route st = [0; 1; 2] /\
      traced_calls (ant_phmem st) =
        [mkUpdateCall 0 1 (1 # 10) 1; mkUpdateCall 1 2 (1 # 10) 1;
         mkUpdateCall 2 0 (1 # 10) 1] /\
      3 mod 2 <> 0
  | None => False
  end /\
  match acs_spm_calc_solution (SP := Traced SelectivePhmem) (1 # 2) (1 # 10) 3
          (mkTraced (mkSelectivePhmem 4 8 1 (fun _ => [])) [])
          (fun _ => 1%Q) (fun _ => 1%Q) (fun k => k mod 3) 32 1 32
          (fun _ => 0%Q) (fun _ => 0) (acs_ant_init 3 0 [0; 0; 0]) 0
  with
  | Some res =>
      spm_res_route res = [0; 1; 2] /\
      traced_calls (spm_res_memory res) =
        [mkUpdateCall 1 0 (1 # 10) 1; mkUpdateCall 2 1 (1 # 10) 1] /\
      3 mod 1 = 0
  | None => False
  end /\
  (let res := acs_calc_solution (M := Traced MatrixPhmem) (1 # 2) (1 # 10) 1 4
                (fun _ => 1%Q) (fun _ => 1%Q) (fun k => k mod 4) 32 2 32
                (fun _ => 0%Q) (acs_ant_init 4 0 [0; 0; 0; 0])
                (mkTraced (mkMatrixPhmem 4 (fun _ => 1%Q)) []) 0 in
   res_route res = [0; 1; 2; 3] /\
   traced_calls (res_phmem res) =
     mkUpdateCall 2 1 (1 # 10) 1 :: repeat (mkUpdateCall 3 0 (1 # 10) 1) 32).
Proof.
  vm_compute. repeat split; discriminate.
Qed.

(** ** Length of a completed route *)

Lemma block_route_length_is_tour_length
      (dimension : nat) (dist_matrix : nat -> Q) (route : list nat)
      (num_warps : nat) :
  0 < num_warps ->
  (block_route_length dimension dist_matrix route (num_warps * WARP_SIZE)
   == tour_length dimension dist_matrix route)%Q.
Proof.
  intros Hw. unfold block_route_length.
  rewrite Nat.div_mul by (unfold WARP_SIZE; lia).
  rewrite fold_left_add_map. fold (Qsum (map
    (fun w => warp_reduce
       (map (thread_length dimension dist_matrix route
               (num_warps * WARP_SIZE) dimension)
            (seq (w * WARP_SIZE) WARP_SIZE))) (seq 0 num_warps))).
  unfold warp_reduce. rewrite Qsum_map_flat_map, seq_blocks.
  apply threads_cover_tour. unfold WARP_SIZE. lia.
Qed.

Lemma tour_length_spec (dimension : nat) (dist_matrix : nat -> Q) (route : list nat) :
  (tour_length dimension dist_matrix route
   == spec_tour_length dimension dist_matrix route)%Q.
Proof.
  unfold tour_length, spec_tour_length.
  induction (seq 0 dimension) as [|i l IH]; [reflexivity|].
  cbn [map fold_right]. rewrite Qsum_cons, IH. reflexivity.
Qed.

Lemma one_warp_route_length (dimension : nat) (dist_matrix : nat -> Q)
      (route : list nat) :
  (block_route_length dimension dist_matrix route WARP_SIZE
   == spec_tour_length dimension dist_matrix route)%Q.
Proof.
  rewrite <- tour_length_spec.
  apply (block_route_length_is_tour_length dimension dist_matrix route 1). lia.
Qed.

(** C7: the length a block of 48 threads writes into the value slot of
    its ant is not the length of the route. [num_warps = blockDim.x / 32]
    is 1, so thread 0 adds up [know[0]] only and the partial sums of the
    threads 32 to 47 are dropped: on 33 nodes at distance 1 from each other
    the block builds the valid route [0; 1; ...; 32] and reports the length
    32, while the sum over all [i] in [0,N) of
    [dist_matrix(route[i], route[(i+1) mod N])] is 33. The positions that
    are counted, 0 to 31, are summed by the warp of thread 0. *)
Theorem partial_warp_length_misses_an_edge :
  let dist_matrix := fun _ : nat => 1%Q in
  let res := acs_calc_solution (M := MatrixPhmem) (1 # 2) (1 # 10) 1 33
               (fun k => inject_Z (Z.of_nat (33 - k mod 33))) dist_matrix
               (fun k => (k / 32 + 1 + k mod 32) mod 33) 32 1 48
               (fun _ => (1 # 4)%Q) (acs_ant_init 33 0 (repeat 0 33))
               (mkMatrixPhmem 33 (fun _ => 1%Q)) 0 in
  res_route res = seq 0 33 /\
  is_valid_route (res_route res) 33 = true /\
  (res_value res == 32)%Q /\
  (spec_tour_length 33 dist_matrix (res_route res) == 33)%Q /\
  ~ (res_value res == spec_tour_length 33 dist_matrix (res_route res))%Q.
Proof.
  cbv zeta.
  set (res := acs_calc_solution _ _ _ _ _ _ _ _ _ _ _ _ _ _).
  assert (E : res_route res = seq 0 33) by (vm_compute; reflexivity).
  assert (V : (res_value res == 32)%Q) by (vm_compute; reflexivity).
  rewrite E.
  assert (S33 : (spec_tour_length 33 (fun _ : nat => 1%Q) (seq 0 33) == 33)%Q)
    by (vm_compute; reflexivity).
  split; [reflexivity|]. split; [vm_compute; reflexivity|].
  split; [exact V|]. split; [exact S33|].
  rewrite V, S33. discriminate.
Qed.

(* ================================================================== *)
(** * Further properties of the kernels and of the controller *)

Lemma fold_store_length {A : Type} (x : A) (l : list nat) :
  forall buf, length (fold_left (fun b i => store b i x) l buf) = length buf.
Proof.
  induction l as [|i l IH]; intros buf; simpl; [reflexivity|].
  now rewrite IH, store_length.
Qed.

Lemma fold_store_nth {A : Type} (x d : A) (l : list nat) :
  forall buf k, k < length buf ->
    nth k (fold_left (fun b i => store b i x) l buf) d =
    if existsb (Nat.eqb k) l then x else nth k buf d.
Proof.
  induction l as [|i l IH]; intros buf k Hk; simpl; [reflexivity|].
  rewrite IH by (now rewrite store_length).
  destruct (existsb (Nat.eqb k) l); [now rewrite orb_true_r|].
  rewrite orb_false_r. destruct (Nat.eqb_spec k i) as [->|Hne].
  - now apply nth_store_same.
  - apply nth_store_other. auto.
Qed.

Lemma fold_write_at {A : Type} (x : A) (l : list nat) :
  forall (c : nat -> A) k,
    fold_left (fun c i => write c i x) l c k =
    if existsb (Nat.eqb k) l then x else c k.
Proof.
  induction l as [|i l IH]; intros c k; simpl; [reflexivity|].
  rewrite IH. destruct (existsb (Nat.eqb k) l); [now rewrite orb_true_r|].
  rewrite orb_false_r. unfold write. reflexivity.
Qed.

Lemma existsb_eqb_In (k : nat) (l : list nat) :
  existsb (Nat.eqb k) l = true <-> In k l.
Proof.
  rewrite existsb_exists. split.
  - intros [x [Hx E]]. apply Nat.eqb_eq in E. now subst.
  - intros H. exists k. split; [exact H|apply Nat.eqb_refl].
Qed.

(** The indices handled by the first [threads] threads of a block whose
    loops start at [threadIdx.x] and step by [step]. *)
Lemma block_strides_In (threads step bound k : nat) :
  0 < step -> threads <= step ->
  In k (flat_map (fun tid => stride tid step bound) (seq 0 threads)) <->
  k < bound /\ k mod step < threads.
Proof.
  intros Hb Hs. rewrite in_flat_map. split.
  - intros [tid [Htid Hk]]. apply in_seq in Htid.
    apply stride_In in Hk; [|lia]. destruct Hk as [Hlt [j ->]].
    split; [exact Hlt|].
    rewrite Nat.Div0.mod_add, Nat.mod_small by lia. lia.
  - intros [Hlt Hmod]. exists (k mod step). split; [apply in_seq; lia|].
    apply stride_In; [lia|]. split; [exact Hlt|].
    exists (k / step). pose proof (Nat.div_mod_eq k step). lia.
Qed.

Lemma block_strides_NoDup (threads step bound : nat) :
  0 < step -> threads <= step ->
  NoDup (flat_map (fun tid => stride tid step bound) (seq 0 threads)).
Proof.
  intros Hb Hs. apply NoDup_flat_map_disjoint.
  - apply seq_NoDup.
  - intros a _. apply stride_loop_NoDup; assumption.
  - intros a b x Ha Hb' Hxa Hxb.
    apply in_seq in Ha. apply in_seq in Hb'.
    apply stride_In in Hxa; [|assumption]. apply stride_In in Hxb; [|assumption].
    destruct Hxa as [_ [j ->]]. destruct Hxb as [_ [j' E]].
    assert (Ea : (a + j * step) mod step = a).
    { rewrite Nat.Div0.mod_add. apply Nat.mod_small. lia. }
    assert (Eb : (b + j' * step) mod step = b).
    { rewrite Nat.Div0.mod_add. apply Nat.mod_small. lia. }
    rewrite E in Ea. congruence.
Qed.


Lemma fill_prefix {A : Type} (buffer : list A) (len : nat) (value : A)
        (block_dim : nat) :
  0 < block_dim -> len <= length buffer ->
  fill buffer len value block_dim = repeat value len ++ skipn len buffer.
Proof.
  intros Hb Hlen. unfold fill.
  rewrite <- (fold_left_flat_map (fun b i => store b i value)
                (fun tid => stride tid block_dim len)).
  set (order := flat_map _ _).
  apply nth_ext with (d := value) (d' := value).
  - rewrite fold_store_length, length_app, repeat_length, length_skipn. lia.
  - intros k Hk. rewrite fold_store_length in Hk.
    rewrite fold_store_nth by exact Hk.
    destruct (existsb (Nat.eqb k) order) eqn:E.
    + apply existsb_eqb_In in E. unfold order in E.
      apply block_strides_In in E; [|exact Hb|lia].
      rewrite app_nth1 by (rewrite repeat_length; lia).
      symmetry. apply nth_repeat.
    + assert (Hge : len <= k).
      { destruct (Nat.lt_ge_cases k len) as [Hlt|Hge]; [|exact Hge].
        assert (Hin : In k order).
        { apply block_strides_In; [exact Hb|lia|]. split; [exact Hlt|].
          apply Nat.mod_upper_bound. lia. }
        apply existsb_eqb_In in Hin. congruence. }
      rewrite app_nth2 by (rewrite repeat_length; lia).
      rewrite repeat_length, nth_skipn. f_equal. lia.
Qed.

(** X3: [fill] sets the first [len] cells of the buffer to [value] and leaves
    the rest as it was, whatever the size of the block; the launch
    [fill<<<1, 128>>>] of the host code clears a whole buffer. *)
Theorem fill_sets_prefix {A : Type} (buffer : list A) (len : nat) (value : A)
        (block_dim : nat) :
  0 < block_dim -> len <= length buffer ->
  fill buffer len value block_dim = repeat value len ++ skipn len buffer /\
  (len = length buffer -> fill buffer len value 128 = repeat value len).
Proof.
  intros Hb Hlen. split; [now apply fill_prefix|].
  intros ->. rewrite fill_prefix by lia.
  now rewrite skipn_all, app_nil_r.
Qed.

Lemma fill_sets_prefix_witness :
  fill [1; 2; 3; 4; 5] 3 0 2 = repeat 0 3 ++ skipn 3 [1; 2; 3; 4; 5].
Proof.
  apply (proj1 (fill_sets_prefix [1; 2; 3; 4; 5] 3 0 2
                  (Nat.lt_0_succ 1) ltac:(simpl; lia))).
Defined.

Lemma phmem_init_block (cells : nat -> Q) (size : nat) (value : Q)
      (block_dim step : nat) (k : nat) :
  0 < block_dim -> block_dim <= step ->
  fold_left
    (fun c tid => fold_left (fun c i => write c i value) (stride tid step size) c)
    (seq 0 block_dim) cells k =
  if (k <? size) && (k mod step <? block_dim) then value else cells k.
Proof.
  intros Hb Hs.
  rewrite <- (fold_left_flat_map (fun c i => write c i value)
                (fun tid => stride tid step size)).
  rewrite fold_write_at.
  destruct (existsb _ _) eqn:E.
  - apply existsb_eqb_In, block_strides_In in E; [|lia|exact Hs].
    destruct E as [E1 E2]. apply Nat.ltb_lt in E1, E2. now rewrite E1, E2.
  - destruct ((k <? size) && (k mod step <? block_dim)) eqn:E'; [|reflexivity].
    apply andb_true_iff in E'. destruct E' as [E1 E2].
    apply Nat.ltb_lt in E1, E2.
    assert (Hin : In k (flat_map (fun tid => stride tid step size) (seq 0 block_dim))).
    { apply block_strides_In; [lia|exact Hs|auto]. }
    apply existsb_eqb_In in Hin. congruence.
Qed.

(** X4: [phmem_init] writes [value] to the cells [k < size] with
    [k mod (blockDim.x * gridDim.x) < blockDim.x] and to no other: launched
    with one block, as [init_pheromone] does, it initialises every cell of
    the memory; with more blocks the cells in between stay as they were. *)
Theorem phmem_init_cells (cells : nat -> Q) (size : nat) (value : Q)
        (block_dim grid_dim : nat) :
  0 < block_dim -> 0 < grid_dim ->
  (forall k,
     phmem_init cells size value block_dim grid_dim k =
     if (k <? size) && (k mod (block_dim * grid_dim) <? block_dim)
     then value else cells k) /\
  (forall k, k < size -> phmem_init cells size value block_dim 1 k = value).
Proof.
  intros Hb Hg.
  assert (Hgrid : forall g n s c k,
            0 < g ->
            fold_left
              (fun c (_ : nat) =>
                 fold_left
                   (fun c tid =>
                      fold_left (fun c i => write c i value)
                                (stride tid (block_dim * g) size) c)
                   (seq 0 block_dim) c)
              (seq s n) c k =
            if (0 <? n) && ((k <? size) && (k mod (block_dim * g) <? block_dim))
            then value else c k).
  { intros g n s c k Hg0. revert s c.
    induction n as [|n IH]; intros s c; [reflexivity|].
    cbn [seq fold_left]. rewrite IH.
    rewrite phmem_init_block by nia.
    set (cond := (k <? size) && (k mod (block_dim * g) <? block_dim)).
    destruct n, cond; reflexivity. }
  split.
  - intros k. unfold phmem_init. rewrite Hgrid by exact Hg.
    apply Nat.ltb_lt in Hg. now rewrite Hg.
  - intros k Hk. unfold phmem_init. rewrite Hgrid by lia.
    rewrite Nat.mul_1_r.
    assert (E : (k mod block_dim <? block_dim) = true)
      by (apply Nat.ltb_lt, Nat.mod_upper_bound; lia).
    apply Nat.ltb_lt in Hk. rewrite E, Hk. reflexivity.
Qed.

Lemma phmem_init_cells_witness :
  phmem_init (fun _ => 0%Q) 10 1%Q 2 2 5 = 1%Q /\
  phmem_init (fun _ => 0%Q) 10 1%Q 2 2 6 = 0%Q.
Proof.
  destruct (phmem_init_cells (fun _ => 0%Q) 10 1%Q 2 2) as [H _]; [lia|lia|].
  split; [exact (H 5)|exact (H 6)].
Defined.

(** X6: a bitmask that was cleared and in which the nodes of a list were
    marked, all below the capacity of [MAX_VISITED_SIZE] words of 32 bits,
    reports as visited exactly the nodes of the list. *)
Theorem visited_bitmask_is_a_set (nodes : list nat) :
  (forall n, In n nodes -> n < MAX_VISITED_SIZE * 32) ->
  forall node,
    is_node_visited
      (fold_left set_node_visited nodes (repeat 0%Z MAX_VISITED_SIZE)) node = true
    <-> In node nodes.
Proof.
  intros Hcap node.
  assert (Hgen : forall l visited,
            length visited = MAX_VISITED_SIZE ->
            (forall n, In n l -> n < MAX_VISITED_SIZE * 32) ->
            is_node_visited (fold_left set_node_visited l visited) node =
            existsb (Nat.eqb node) l || is_node_visited visited node).
  { induction l as [|x l IH]; intros visited Hlen Hl; cbn [fold_left existsb].
    - reflexivity.
    - rewrite IH.
      + rewrite is_node_visited_set.
        * now rewrite orb_assoc, (orb_comm (existsb _ l)).
        * rewrite Hlen. apply Nat.Div0.div_lt_upper_bound.
          rewrite Nat.mul_comm. apply Hl. now left.
      + now rewrite set_node_visited_length.
      + intros n Hn. apply Hl. now right. }
  rewrite Hgen; [|apply repeat_length|exact Hcap].
  rewrite is_node_visited_clear, orb_false_r.
  rewrite existsb_exists. split.
  - intros [x [Hx E]]. apply Nat.eqb_eq in E. now subst.
  - intros H. exists node. split; [exact H|apply Nat.eqb_refl].
Qed.

Lemma visited_bitmask_is_a_set_witness :
  is_node_visited
    (fold_left set_node_visited [5; 40; 4000] (repeat 0%Z MAX_VISITED_SIZE)) 40 = true
  <-> In 40 [5; 40; 4000].
Proof.
  apply (visited_bitmask_is_a_set [5; 40; 4000]).
  intros n Hn. unfold MAX_VISITED_SIZE. simpl in Hn.
  destruct Hn as [<-|[<-|[<-|[]]]]; lia.
Defined.

(** X2: in a grid of at most [2^31] threads, [get_global_id] numbers the
    threads without gap or repetition: the identifier of thread [t] of
    block [b] is [b * blockDim.x + t], from which block and thread index
    are recovered by division and remainder, two threads with the same
    identifier are the same thread, and every number below
    [gridDim.x * blockDim.x] is the identifier of a thread. The 32-bit
    arithmetic repeats identifiers in larger grids: thread 5 of block
    4194304 of 1024 threads gets the identifier 5 of block 0. *)
Theorem get_global_id_numbers_threads (grid_dim block_dim : Z) :
  (0 < grid_dim)%Z -> (0 < block_dim)%Z ->
  (grid_dim * block_dim <= 2 ^ 31)%Z ->
  (forall b t, (0 <= b < grid_dim)%Z -> (0 <= t < block_dim)%Z ->
     get_global_id b block_dim t = (b * block_dim + t)%Z /\
     (0 <= get_global_id b block_dim t < grid_dim * block_dim)%Z /\
     (get_global_id b block_dim t / block_dim = b)%Z /\
     (get_global_id b block_dim t mod block_dim = t)%Z) /\
  (forall b t b' t',
     (0 <= b < grid_dim)%Z -> (0 <= t < block_dim)%Z ->
     (0 <= b' < grid_dim)%Z -> (0 <= t' < block_dim)%Z ->
     get_global_id b block_dim t = get_global_id b' block_dim t' ->
     b = b' /\ t = t') /\
  (forall id, (0 <= id < grid_dim * block_dim)%Z ->
     exists b t, (0 <= b < grid_dim)%Z /\ (0 <= t < block_dim)%Z /\
                 get_global_id b block_dim t = id) /\
  get_global_id 4194304 1024 5 = get_global_id 0 1024 5.
Proof.
  intros Hg Hb Hcap.
  assert (Hid : forall b t, (0 <= b < grid_dim)%Z -> (0 <= t < block_dim)%Z ->
            get_global_id b block_dim t = (b * block_dim + t)%Z /\
            (0 <= b * block_dim + t < grid_dim * block_dim)%Z).
  { intros b t Hb' Ht.
    assert (Hlt : (0 <= b * block_dim + t < grid_dim * block_dim)%Z) by nia.
    assert (Hprod : (0 <= b * block_dim < 2 ^ 32)%Z) by nia.
    split; [|exact Hlt].
    unfold get_global_id, uint32, to_int.
    rewrite (Z.mod_small (b * block_dim)) by exact Hprod.
    rewrite Z.mod_small by lia.
    destruct (Z.ltb_spec (b * block_dim + t) (2 ^ 31)); [reflexivity|lia]. }
  split; [|split; [|split]].
  - intros b t Hb' Ht. destruct (Hid b t Hb' Ht) as [E Hr]. rewrite E.
    split; [reflexivity|]. split; [exact Hr|]. split.
    + rewrite Z.div_add_l by lia. rewrite Z.div_small by lia. lia.
    + rewrite Z.add_comm, Z.mod_add by lia. apply Z.mod_small. lia.
  - intros b t b' t' Hb1 Ht1 Hb2 Ht2 E.
    destruct (Hid b t Hb1 Ht1) as [E1 _]. destruct (Hid b' t' Hb2 Ht2) as [E2 _].
    rewrite E1, E2 in E.
    assert (b = b') by nia. subst b'. split; [reflexivity|lia].
  - intros id Hid'. exists (id / block_dim)%Z, (id mod block_dim)%Z.
    pose proof (Z.div_mod id block_dim) as Hdm.
    pose proof (Z.mod_pos_bound id block_dim Hb) as Hm.
    assert (Hq : (0 <= id / block_dim < grid_dim)%Z).
    { split; [apply Z.div_pos; lia|].
      apply Z.div_lt_upper_bound; [lia|]. rewrite Z.mul_comm. lia. }
    split; [exact Hq|]. split; [exact Hm|].
    destruct (Hid (id / block_dim)%Z (id mod block_dim)%Z Hq Hm) as [E _].
    rewrite E. rewrite (Z.mul_comm (id / block_dim)). symmetry. apply Hdm. lia.
  - reflexivity.
Qed.

Lemma get_global_id_numbers_threads_witness :
  get_global_id 3 32 5 = (3 * 32 + 5)%Z /\
  (0 <= get_global_id 3 32 5 < 4 * 32)%Z /\
  (get_global_id 3 32 5 / 32 = 3)%Z /\
  (get_global_id 3 32 5 mod 32 = 5)%Z.
Proof.
  destruct (get_global_id_numbers_threads 4 32) as [H _]; [lia | lia | lia |].
  apply (H 3 5)%Z; lia.
Defined.

(** The threads of a launch, block after block, are the global
    identifiers in increasing order. *)
Lemma fold_left_seq_shift {T : Type} (f : T -> nat -> T) (a k : nat) (s : T) :
  fold_left (fun b t => f b (a + t)) (seq 0 k) s = fold_left f (seq a k) s.
Proof.
  revert s. replace (seq a k) with (map (fun t => a + t) (seq 0 k)).
  - induction (seq 0 k) as [|x l IH]; intros s; simpl; [reflexivity|apply IH].
  - clear. revert a. induction k as [|k IH]; intros a; [reflexivity|].
    cbn [seq map]. rewrite Nat.add_0_r. f_equal.
    rewrite <- seq_shift, map_map, <- (IH (S a)).
    apply map_ext. intros t. lia.
Qed.

Lemma fold_left_ext_fun {T B : Type} (f g : T -> B -> T) (l : list B) :
  (forall s x, f s x = g s x) ->
  forall s, fold_left f l s = fold_left g l s.
Proof.
  intros E. induction l as [|x l IH]; intros s; simpl; [reflexivity|].
  now rewrite E, IH.
Qed.

Lemma grid_threads_fold {T : Type} (f : T -> nat -> T)
      (block_dim grid_dim : nat) (s : T) :
  fold_left
    (fun b block_idx =>
       fold_left (fun b t => f b (block_idx * block_dim + t)) (seq 0 block_dim) b)
    (seq 0 grid_dim) s =
  fold_left f (seq 0 (grid_dim * block_dim)) s.
Proof.
  rewrite <- seq_blocks, fold_left_flat_map.
  revert s. induction (seq 0 grid_dim) as [|w l IH]; intros s; simpl; [reflexivity|].
  now rewrite IH, fold_left_seq_shift.
Qed.

Lemma nth_slice {A : Type} (l : list A) (from len k : nat) (d : A) :
  k < len -> nth k (slice l from len) d = nth (from + k) l d.
Proof.
  intros Hk. unfold slice. rewrite nth_firstn.
  apply Nat.ltb_lt in Hk. rewrite Hk. apply nth_skipn.
Qed.

Lemma slice_length {A : Type} (l : list A) (from len : nat) :
  from + len <= length l -> length (slice l from len) = len.
Proof.
  intros H. unfold slice. rewrite length_firstn, length_skipn. lia.
Qed.

Section AntInitFacts.

Variable dimension ants_count : nat.
Variable rand_uint : nat -> nat.
Hypothesis Hdim : 0 < dimension.

Let body (bufs : AntBuffers) (ant_id : nat) : AntBuffers :=
  acs_ant_init_thread dimension ants_count rand_uint 1 ant_id bufs 0.

Lemma acs_ant_init_grid_fold grid_dim block_dim bufs :
  acs_ant_init_grid dimension ants_count rand_uint grid_dim block_dim bufs =
  fold_left body (seq 0 (grid_dim * block_dim)) bufs.
Proof using Type.
  unfold acs_ant_init_grid. rewrite <- grid_threads_fold.
  apply fold_left_ext_fun. intros b block_idx.
  apply fold_left_ext_fun. intros b' t.
  unfold body, acs_ant_init_thread.
  rewrite Nat.mul_1_r, !Nat.add_0_r. reflexivity.
Qed.

Lemma acs_ant_init_threads n bufs :
  let bufs' := fold_left body (seq 0 n) bufs in
  length (dev_ant_values bufs') = length (dev_ant_values bufs) /\
  length (dev_ant_visited_count bufs') = length (dev_ant_visited_count bufs) /\
  length (dev_ant_visited bufs') = length (dev_ant_visited bufs) /\
  (forall a d, a < length (dev_ant_values bufs) ->
     nth a (dev_ant_values bufs') d =
     if a <? Nat.min n ants_count then 0%Q else nth a (dev_ant_values bufs) d) /\
  (forall a d, a < length (dev_ant_visited_count bufs) ->
     nth a (dev_ant_visited_count bufs') d =
     if a <? Nat.min n ants_count then 1 else nth a (dev_ant_visited_count bufs) d) /\
  (forall k d, k < length (dev_ant_visited bufs) ->
     nth k (dev_ant_visited bufs') d =
     if (k mod dimension =? 0) && (k / dimension <? Nat.min n ants_count)
     then rand_uint (k / dimension) mod dimension
     else nth k (dev_ant_visited bufs) d).
Proof using Hdim.
  induction n as [|n IH]; cbv zeta.
  - cbn [seq fold_left]. repeat split; try reflexivity.
    intros k d _. now rewrite andb_false_r.
  - rewrite seq_S, fold_left_app. cbn [fold_left Nat.add].
    set (b := fold_left body (seq 0 n) bufs) in *. cbv zeta in IH.
    destruct IH as [L1 [L2 [L3 [V [C R]]]]].
    unfold body at 1 2 3 4 5 6. unfold acs_ant_init_thread.
    rewrite Nat.mul_1_r, !Nat.add_0_r.
    destruct (Nat.ltb_spec n ants_count) as [Hlt|Hge].
    + cbn [dev_ant_values dev_ant_visited_count dev_ant_visited].
      rewrite !store_length.
      split; [exact L1|]. split; [exact L2|]. split; [exact L3|].
      split; [|split].
      * intros a d Ha. destruct (Nat.eq_dec a n) as [->|Hne].
        -- rewrite nth_store_same by lia.
           assert (E : (n <? Nat.min (S n) ants_count) = true)
             by (apply Nat.ltb_lt; lia).
           now rewrite E.
        -- rewrite nth_store_other by auto. rewrite V by exact Ha.
           destruct (Nat.ltb_spec a (Nat.min n ants_count)),
                    (Nat.ltb_spec a (Nat.min (S n) ants_count));
             try reflexivity; lia.
      * intros a d Ha. destruct (Nat.eq_dec a n) as [->|Hne].
        -- rewrite nth_store_same by lia.
           assert (E : (n <? Nat.min (S n) ants_count) = true)
             by (apply Nat.ltb_lt; lia).
           now rewrite E.
        -- rewrite nth_store_other by auto. rewrite C by exact Ha.
           destruct (Nat.ltb_spec a (Nat.min n ants_count)),
                    (Nat.ltb_spec a (Nat.min (S n) ants_count));
             try reflexivity; lia.
      * intros k d Hk. destruct (Nat.eq_dec k (n * dimension)) as [->|Hne].
        -- rewrite nth_store_same by lia.
           rewrite Nat.Div0.mod_mul, Nat.div_mul by lia.
           assert (E : (n <? Nat.min (S n) ants_count) = true)
             by (apply Nat.ltb_lt; lia).
           now rewrite E.
        -- rewrite nth_store_other by auto. rewrite R by exact Hk.
           destruct (Nat.eqb_spec (k mod dimension) 0) as [Hm|Hm];
             [|reflexivity]. cbn [andb].
           assert (Hkd : k / dimension <> n).
           { intros E. apply Hne. pose proof (Nat.div_mod_eq k dimension). nia. }
           destruct (Nat.ltb_spec (k / dimension) (Nat.min n ants_count)),
                    (Nat.ltb_spec (k / dimension) (Nat.min (S n) ants_count));
             try reflexivity; lia.
    + split; [exact L1|]. split; [exact L2|]. split; [exact L3|].
      replace (Nat.min (S n) ants_count) with (Nat.min n ants_count) by lia.
      auto.
Qed.

End AntInitFacts.

(** X5: when the launch has at least one thread per ant, [acs_ant_init] leaves
    for every ant the value 0, the visited count 1 and, in the first cell of
    its route, a start node below [dimension]; the other cells of the routes
    keep what they held, and so do the cells beyond [ants_count]. For each
    ant this is the single-route initialisation used by the construction
    kernels. *)
Theorem acs_ant_init_starts_every_ant
        (dimension ants_count : nat) (rand_uint : nat -> nat)
        (grid_dim block_dim : nat) (bufs : AntBuffers) :
  0 < dimension ->
  ants_count <= grid_dim * block_dim ->
  ants_count <= length (dev_ant_values bufs) ->
  ants_count <= length (dev_ant_visited_count bufs) ->
  ants_count * dimension <= length (dev_ant_visited bufs) ->
  let bufs' := acs_ant_init_grid dimension ants_count rand_uint
                                 grid_dim block_dim bufs in
  (forall ant_id, ant_id < ants_count ->
     nth ant_id (dev_ant_values bufs') 1%Q = 0%Q /\
     nth ant_id (dev_ant_visited_count bufs') 0 = 1 /\
     nth (ant_id * dimension) (dev_ant_visited bufs') dimension < dimension /\
     slice (dev_ant_visited bufs') (ant_id * dimension) dimension =
     acs_ant_init dimension (rand_uint ant_id)
                  (slice (dev_ant_visited bufs) (ant_id * dimension) dimension)) /\
  skipn ants_count (dev_ant_values bufs') = skipn ants_count (dev_ant_values bufs) /\
  skipn ants_count (dev_ant_visited_count bufs') =
    skipn ants_count (dev_ant_visited_count bufs) /\
  skipn (ants_count * dimension) (dev_ant_visited bufs') =
    skipn (ants_count * dimension) (dev_ant_visited bufs).
Proof.
  intros Hdim Hthreads Hv Hc Hr bufs'.
  unfold bufs'. rewrite acs_ant_init_grid_fold.
  destruct (acs_ant_init_threads dimension ants_count rand_uint Hdim
              (grid_dim * block_dim) bufs) as [L1 [L2 [L3 [V [C R]]]]].
  set (b := fold_left _ _ bufs) in *.
  replace (Nat.min (grid_dim * block_dim) ants_count) with ants_count in * by lia.
  split; [|split; [|split]].
  - intros a Ha.
    assert (Ea : (a <? ants_count) = true) by (apply Nat.ltb_lt; lia).
    split; [|split; [|split]].
    + rewrite V by lia. now rewrite Ea.
    + rewrite C by lia. now rewrite Ea.
    + rewrite R by nia.
      rewrite Nat.Div0.mod_mul, Nat.div_mul, Ea by lia. simpl.
      apply Nat.mod_upper_bound. lia.
    + apply nth_ext with (d := 0) (d' := 0).
      * unfold acs_ant_init. rewrite store_length, !slice_length; nia.
      * intros k Hk. rewrite slice_length in Hk by nia.
        rewrite nth_slice by exact Hk. rewrite R by nia.
        unfold acs_ant_init.
        destruct (Nat.eq_dec k 0) as [->|Hk0].
        -- rewrite Nat.add_0_r, Nat.Div0.mod_mul, Nat.div_mul, Ea by lia.
           simpl. rewrite nth_store_same; [reflexivity|].
           rewrite slice_length; nia.
        -- rewrite nth_store_other by auto. rewrite nth_slice by exact Hk.
           assert (Em : (a * dimension + k) mod dimension = k).
           { rewrite Nat.add_comm, Nat.Div0.mod_add. apply Nat.mod_small. lia. }
           rewrite Em. destruct (Nat.eqb_spec k 0); [contradiction|reflexivity].
  - apply nth_ext with (d := 0%Q) (d' := 0%Q); [rewrite !length_skipn; lia|].
    intros k Hk. rewrite length_skipn in Hk. rewrite !nth_skipn, V by lia.
    destruct (Nat.ltb_spec (ants_count + k) ants_count); [lia|reflexivity].
  - apply nth_ext with (d := 0) (d' := 0); [rewrite !length_skipn; lia|].
    intros k Hk. rewrite length_skipn in Hk. rewrite !nth_skipn, C by lia.
    destruct (Nat.ltb_spec (ants_count + k) ants_count); [lia|reflexivity].
  - apply nth_ext with (d := 0) (d' := 0); [rewrite !length_skipn; lia|].
    intros k Hk. rewrite length_skipn in Hk. rewrite !nth_skipn, R by lia.
    destruct (Nat.ltb_spec ((ants_count * dimension + k) / dimension) ants_count)
      as [Hlt|Hge]; [|now rewrite andb_false_r].
    exfalso. rewrite Nat.div_add_l in Hlt by lia. lia.
Qed.

Lemma acs_ant_init_starts_every_ant_witness :
  let bufs' := acs_ant_init_grid 3 2 (fun a => 7 + a) 2 32
                 (mkAntBuffers [5%Q; 5%Q] [9; 9] [8; 8; 8; 8; 8; 8]) in
  nth 1 (dev_ant_values bufs') 1%Q = 0%Q /\
  nth 1 (dev_ant_visited_count bufs') 0 = 1 /\
  nth (1 * 3) (dev_ant_visited bufs') 3 < 3 /\
  slice (dev_ant_visited bufs') (1 * 3) 3 =
  acs_ant_init 3 8 (slice [8; 8; 8; 8; 8; 8] (1 * 3) 3).
Proof.
  destruct (acs_ant_init_starts_every_ant 3 2 (fun a => 7 + a) 2 32
              (mkAntBuffers [5%Q; 5%Q] [9; 9] [8; 8; 8; 8; 8; 8])) as [H _];
    [lia | lia | simpl; lia | simpl; lia | simpl; lia |].
  exact (H 1 (Nat.lt_succ_diag_r 1)).
Defined.

Lemma holding_store (pcs : list LockPc) (t : nat) (old new : LockPc) :
  nth_error pcs t = Some old ->
  holding (store pcs t new) + (match old with Holding => 1 | Spinning => 0 end) =
  holding pcs + (match new with Holding => 1 | Spinning => 0 end).
Proof.
  unfold holding. revert t. induction pcs as [|pc pcs IH]; intros t Hopt.
  - destruct t; discriminate.
  - destruct t as [|t].
    + simpl in Hopt. injection Hopt as ->. simpl.
      destruct old, new; simpl; lia.
    + simpl in Hopt. specialize (IH t Hopt).
      simpl. destruct pc; simpl; lia.
Qed.

(** X1: threads that bracket a critical section by [lock] and [unlock], started
    with the mutex free, are never two between the return of [lock] and the
    call of [unlock], whatever the order of their atomic steps; the mutex
    holds 1 exactly while one of them is there. *)
Theorem lock_excludes_other_threads (threads : nat) (schedule : list nat) :
  let s := lock_run schedule (mkLockState 0 (repeat Spinning threads)) in
  holders s <= 1 /\
  (mutex_word s = 1%Z <-> holders s = 1) /\
  (mutex_word s = 0%Z <-> holders s = 0).
Proof.
  cbv zeta.
  assert (Hinv : forall sched s,
            (mutex_word s = 0%Z /\ holders s = 0) \/
            (mutex_word s = 1%Z /\ holders s = 1) ->
            (mutex_word (lock_run sched s) = 0%Z /\ holders (lock_run sched s) = 0) \/
            (mutex_word (lock_run sched s) = 1%Z /\ holders (lock_run sched s) = 1)).
  { induction sched as [|t sched IH]; intros s Hs; [exact Hs|].
    unfold lock_run. cbn [fold_left]. apply IH.
    destruct s as [m pcs]. unfold holders in *. cbn [mutex_word lock_pcs] in Hs.
    unfold lock_step. cbn [mutex_word lock_pcs].
    destruct (nth_error pcs t) as [pc|] eqn:E; [|exact Hs].
    destruct pc.
    - pose proof (holding_store pcs t Spinning Holding E) as Hst.
      cbv iota in Hst.
      unfold lock_turn, atomicCAS.
      destruct Hs as [[-> Hh]|[-> Hh]]; cbn [Z.eqb negb mutex_word lock_pcs].
      + right. split; [reflexivity|]. lia.
      + right. split; [reflexivity|exact Hh].
    - pose proof (holding_store pcs t Holding Spinning E) as Hst.
      cbv iota in Hst.
      cbn [mutex_word lock_pcs]. left. split; [reflexivity|].
      destruct Hs as [[Hm Hh]|[Hm Hh]]; lia. }
  assert (H0 : holders (mkLockState 0 (repeat Spinning threads)) = 0).
  { unfold holders, holding. cbn [lock_pcs].
    induction threads as [|n IHn]; [reflexivity|exact IHn]. }
  destruct (Hinv schedule (mkLockState 0 (repeat Spinning threads)))
    as [[Hm Hh]|[Hm Hh]]; [left; split; [reflexivity|exact H0]| |];
    rewrite Hm, Hh; repeat split; intros; try lia; try discriminate.
Qed.

(** ** Invariants of the global update on the raw matrix *)

Section GlobalUpdateInvariants.

Variable dimension : nat.
Variable rho : Q.
Variable best_route : list nat.

(** What holds of the matrix before the kernel and is kept by the update
    of one edge holds after the kernel, whatever the launch. *)
Lemma global_update_preserves (P : (nat -> Q) -> Prop) :
  (forall best_value pm i, i < dimension -> P pm ->
     P (global_update_edge dimension rho best_route (1 / best_value)%Q pm i)) ->
  forall pm best_value block_dim grid_dim,
    P pm ->
    P (acs_global_pheromone_update dimension rho best_route pm best_value
                                   block_dim grid_dim).
Proof using Type.
  intros Hstep pm best_value block_dim grid_dim.
  unfold acs_global_pheromone_update, global_update_thread.
  generalize (seq 0 block_dim). intros tids. revert pm.
  induction tids as [|tid tids IH]; intros pm HP; cbn [fold_left]; [exact HP|].
  apply IH. unfold stride.
  generalize dimension at 2 as fuel. intros fuel.
  revert pm HP. generalize tid as start.
  induction fuel as [|f IHf]; intros start pm HP; cbn [stride_loop fold_left];
    [exact HP|].
  destruct (Nat.ltb_spec start dimension) as [Hlt|Hge]; [|exact HP].
  cbn [fold_left]. apply IHf. apply Hstep; assumption.
Qed.

Hypothesis Hrange : forall x, In x best_route -> x < dimension.

Lemma best_route_nth_lt (i : nat) : 0 < dimension -> nth i best_route 0 < dimension.
Proof using Hrange.
  intros Hd. destruct (Nat.lt_ge_cases i (length best_route)) as [Hlt|Hge].
  - apply Hrange. now apply nth_In.
  - now rewrite nth_overflow.
Qed.

Lemma global_update_edge_symmetric (delta : Q) (pm : nat -> Q) (i : nat) :
  (forall a b, a < dimension -> b < dimension ->
     pm (cell dimension a b) = pm (cell dimension b a)) ->
  forall a b, a < dimension -> b < dimension ->
    global_update_edge dimension rho best_route delta pm i (cell dimension a b) =
    global_update_edge dimension rho best_route delta pm i (cell dimension b a).
Proof using Hrange.
  intros Hsym a b Ha Hb. unfold global_update_edge.
  assert (Hd : 0 < dimension) by lia.
  pose proof (best_route_nth_lt i Hd) as Hu.
  pose proof (best_route_nth_lt ((i + 1) mod dimension) Hd) as Hv.
  set (u := nth i best_route 0) in *.
  set (v := nth ((i + 1) mod dimension) best_route 0) in *.
  unfold write.
  destruct (Nat.eqb_spec (cell dimension a b) (cell dimension v u)) as [E1|N1];
    destruct (Nat.eqb_spec (cell dimension b a) (cell dimension v u)) as [E2|N2];
    try reflexivity.
  - apply cell_inj in E1; [|assumption|assumption]. destruct E1 as [-> ->].
    now rewrite Nat.eqb_refl.
  - apply cell_inj in E2; [|assumption|assumption]. destruct E2 as [-> ->].
    now rewrite Nat.eqb_refl.
  - destruct (Nat.eqb_spec (cell dimension a b) (cell dimension u v)) as [E3|N3];
      destruct (Nat.eqb_spec (cell dimension b a) (cell dimension u v)) as [E4|N4];
      try reflexivity.
    + apply cell_inj in E3; [|assumption|assumption]. destruct E3 as [-> ->].
      contradiction.
    + apply cell_inj in E4; [|assumption|assumption]. destruct E4 as [-> ->].
      contradiction.
    + now apply Hsym.
Qed.

End GlobalUpdateInvariants.

Lemma pheromone_rule_between (decay old deposit lo hi : Q) :
  (0 <= decay)%Q -> (decay <= 1)%Q ->
  (lo <= old)%Q -> (old <= hi)%Q -> (lo <= deposit)%Q -> (deposit <= hi)%Q ->
  (lo <= pheromone_rule decay old deposit)%Q /\
  (pheromone_rule decay old deposit <= hi)%Q.
Proof.
  intros H0 H1 Hlo Hhi Hdlo Hdhi. unfold pheromone_rule. split; nra.
Qed.

(** X18: launched with one block on a valid best route of at least three
    nodes (so that the threads write disjoint cells), the global update
    keeps a symmetric pheromone matrix symmetric: the cells [(a,b)] and
    [(b,a)] hold the same value after the kernel when they did before. *)
Theorem global_update_keeps_symmetry
        (dimension : nat) (rho best_value : Q) (best_route : list nat)
        (pheromone_matrix : nat -> Q) (block_dim : nat) :
  0 < block_dim <= 1024 ->
  3 <= dimension <= MAX_VISITED_SIZE * WARP_SIZE ->
  (0 < best_value)%Q ->
  is_valid_route best_route dimension = true ->
  (forall a b, a < dimension -> b < dimension ->
     pheromone_matrix (a * dimension + b) = pheromone_matrix (b * dimension + a)) ->
  let updated := acs_global_pheromone_update dimension rho best_route
                   pheromone_matrix best_value block_dim 1 in
  forall a b, a < dimension -> b < dimension ->
    updated (a * dimension + b) = updated (b * dimension + a).
Proof.
  intros _ _ _ Hvalid Hsym updated.
  destruct (valid_route_facts _ _ Hvalid) as [_ [_ Hrange]].
  unfold updated.
  apply (global_update_preserves dimension rho best_route
           (fun pm => forall a b, a < dimension -> b < dimension ->
              pm (a * dimension + b) = pm (b * dimension + a))).
  - intros bv pm i _ Hpm. now apply global_update_edge_symmetric.
  - exact Hsym.
Qed.

Lemma global_update_keeps_symmetry_witness :
  let updated := acs_global_pheromone_update 3 (1 # 10) [2; 0; 1] (fun _ => 1%Q)
                   (10 # 1) 128 1 in
  updated (0 * 3 + 2) = updated (2 * 3 + 0).
Proof.
  apply (global_update_keeps_symmetry 3 (1 # 10) (10 # 1) [2; 0; 1]
           (fun _ => 1%Q) 128).
  - lia.
  - unfold MAX_VISITED_SIZE, WARP_SIZE. lia.
  - reflexivity.
  - reflexivity.
  - reflexivity.
  - lia.
  - lia.
Defined.

(** X19: launched with one block on a valid best route of at least three
    nodes, the global update keeps the pheromone within bounds: when every
    cell and the deposit [1 / best_value] (of a positive best value) lie
    between [lo] and [hi] and [rho] is in [0,1], every cell lies between
    [lo] and [hi] after the kernel. *)
Theorem global_update_keeps_bounds
        (dimension : nat) (rho best_value : Q) (best_route : list nat)
        (pheromone_matrix : nat -> Q) (block_dim : nat) (lo hi : Q) :
  0 < block_dim <= 1024 ->
  3 <= dimension <= MAX_VISITED_SIZE * WARP_SIZE ->
  (0 < best_value)%Q ->
  is_valid_route best_route dimension = true ->
  (0 <= rho)%Q -> (rho <= 1)%Q ->
  (lo <= 1 / best_value)%Q -> (1 / best_value <= hi)%Q ->
  (forall k, (lo <= pheromone_matrix k)%Q /\ (pheromone_matrix k <= hi)%Q) ->
  forall k,
    (lo <= acs_global_pheromone_update dimension rho best_route
             pheromone_matrix best_value block_dim 1 k)%Q /\
    (acs_global_pheromone_update dimension rho best_route
       pheromone_matrix best_value block_dim 1 k <= hi)%Q.
Proof.
  intros _ _ _ _ H0 H1 Hlo Hhi Hpm.
  unfold acs_global_pheromone_update, global_update_thread.
  generalize (seq 0 block_dim). intros tids.
  assert (Hfold : forall l pm,
            (forall k, (lo <= pm k)%Q /\ (pm k <= hi)%Q) ->
            forall k,
              (lo <= fold_left (global_update_edge dimension rho best_route
                                  (1 / best_value)%Q) l pm k)%Q /\
              (fold_left (global_update_edge dimension rho best_route
                            (1 / best_value)%Q) l pm k <= hi)%Q).
  { induction l as [|i l IH]; intros pm Hb; cbn [fold_left]; [exact Hb|].
    apply IH. intros k. unfold global_update_edge, write.
    destruct (Hb (cell dimension (nth i best_route 0)
                       (nth ((i + 1) mod dimension) best_route 0))) as [B1 B2].
    pose proof (pheromone_rule_between rho _ (1 / best_value)%Q lo hi
                  H0 H1 B1 B2 Hlo Hhi).
    destruct (k =? _); [assumption|]. destruct (k =? _); [assumption|apply Hb]. }
  revert pheromone_matrix Hpm.
  induction tids as [|tid tids IH]; intros pm Hb; cbn [fold_left]; [exact Hb|].
  apply IH. now apply Hfold.
Qed.

Lemma global_update_keeps_bounds_witness :
  let updated := acs_global_pheromone_update 3 (1 # 10) [2; 0; 1] (fun _ => 1%Q)
                   (10 # 1) 128 1 (0 * 3 + 2) in
  Qle (1 # 20) updated /\ Qle updated 1.
Proof.
  apply (global_update_keeps_bounds 3 (1 # 10) (10 # 1) [2; 0; 1]
           (fun _ => 1%Q) 128 (1 # 20) 1).
  - lia.
  - unfold MAX_VISITED_SIZE, WARP_SIZE. lia.
  - reflexivity.
  - reflexivity.
  - discriminate.
  - discriminate.
  - discriminate.
  - discriminate.
  - intros k. split; discriminate.
Defined.

(** X20: launched with one block on a valid best route of at least three
    nodes, the global update touches the edges of the best route only: a
    cell that is neither [(u,v)] nor [(v,u)] for an edge of the route
    keeps its value (no evaporation elsewhere). *)
Theorem global_update_leaves_other_edges
        (dimension : nat) (rho best_value : Q) (best_route : list nat)
        (pheromone_matrix : nat -> Q) (block_dim : nat) (k : nat) :
  0 < block_dim <= 1024 ->
  3 <= dimension <= MAX_VISITED_SIZE * WARP_SIZE ->
  (0 < best_value)%Q ->
  is_valid_route best_route dimension = true ->
  (forall i, i < dimension ->
     let u := nth i best_route 0 in
     let v := nth ((i + 1) mod dimension) best_route 0 in
     k <> u * dimension + v /\ k <> v * dimension + u) ->
  acs_global_pheromone_update dimension rho best_route pheromone_matrix
                              best_value block_dim 1 k
  = pheromone_matrix k.
Proof.
  intros _ _ _ _ Hk.
  apply (global_update_preserves dimension rho best_route
           (fun pm => pm k = pheromone_matrix k)); [|reflexivity].
  intros bv pm i Hi Hpm. rewrite <- Hpm.
  apply global_update_edge_frame; apply (Hk i Hi).
Qed.

Lemma global_update_leaves_other_edges_witness :
  acs_global_pheromone_update 4 (1 # 10) [0; 1; 2; 3] (fun _ => 1%Q)
                              (10 # 1) 128 1 (0 * 4 + 2) = 1%Q.
Proof.
  apply (global_update_leaves_other_edges 4 (1 # 10) (10 # 1) [0; 1; 2; 3]
           (fun _ => 1%Q) 128 (0 * 4 + 2)).
  - lia.
  - unfold MAX_VISITED_SIZE, WARP_SIZE. lia.
  - reflexivity.
  - reflexivity.
  - intros i Hi.
    destruct i as [|[|[|[|i]]]]; [| | | |lia]; vm_compute; split; discriminate.
Defined.

(** ** Calls issued by the global update through the memory *)

Lemma global_update_calls_trace {M : Type} `{PhmemT M} (dimension : nat) (rho : Q)
      (best_value : Q) (best_route : list nat) (l : list nat) :
  forall t : Traced M,
    traced_calls (fold_left (global_update_call dimension rho best_route
                                                (1 / best_value)%Q) l t) =
    traced_calls t ++ map (global_update_call_of dimension rho best_value best_route) l.
Proof.
  induction l as [|i l IH]; intros t; cbn [fold_left map].
  - now rewrite app_nil_r.
  - rewrite IH. unfold global_update_call, global_update_call_of.
    cbn [ph_update_lockfree Traced_PhmemT traced_calls].
    now rewrite <- app_assoc.
Qed.

(** X17: the sequential device function issues one [update] per position of the
    best route, in route order; the kernel that goes through the memory,
    launched with one block as in [GPUACS::global_pheromone_update], issues
    the same calls up to their order: every edge of the best route, the
    closing edge included, is updated exactly once with [rho] and
    [1 / best_value]. *)
Theorem global_update_calls_once_per_edge
        {M : Type} `{PhmemT M}
        (dimension : nat) (rho best_value : Q) (best_route : list nat)
        (phmem : M) (block_dim : nat) :
  0 < block_dim ->
  let sequential :=
    traced_calls (global_pheromone_update dimension rho (mkTraced phmem [])
                                          best_value best_route) in
  let parallel :=
    traced_calls (acs_global_pheromone_update_phmem dimension rho
                    (mkTraced phmem []) best_value best_route block_dim 1) in
  sequential = map (global_update_call_of dimension rho best_value best_route)
                   (seq 0 dimension) /\
  Permutation parallel sequential.
Proof.
  intros Hb sequential parallel.
  assert (Hseq : sequential =
                 map (global_update_call_of dimension rho best_value best_route)
                     (seq 0 dimension)).
  { unfold sequential, global_pheromone_update.
    generalize (seq 0 dimension). intros l.
    change (map (global_update_call_of dimension rho best_value best_route) l)
      with (traced_calls (mkTraced phmem []) ++
            map (global_update_call_of dimension rho best_value best_route) l).
    generalize (mkTraced phmem []). induction l as [|i l IH]; intros t;
      cbn [fold_left map].
    - now rewrite app_nil_r.
    - rewrite IH. cbn [ph_update Traced_PhmemT traced_calls].
      now rewrite <- app_assoc. }
  split; [exact Hseq|]. rewrite Hseq.
  unfold parallel, acs_global_pheromone_update_phmem.
  rewrite <- (fold_left_flat_map
                (global_update_call dimension rho best_route (1 / best_value)%Q)
                (fun tid => stride tid (block_dim * 1) dimension)).
  rewrite global_update_calls_trace. cbn [traced_calls app].
  apply Permutation_map. rewrite Nat.mul_1_r. now apply block_strides_cover.
Qed.

Lemma global_update_calls_once_per_edge_witness :
  Permutation
    (traced_calls (acs_global_pheromone_update_phmem 3 (1 # 10)
                     (mkTraced (mkMatrixPhmem 3 (fun _ => 1%Q)) []) (10 # 1)
                     [2; 0; 1] 2 1))
    (traced_calls (global_pheromone_update 3 (1 # 10)
                     (mkTraced (mkMatrixPhmem 3 (fun _ => 1%Q)) []) (10 # 1)
                     [2; 0; 1])).
Proof.
  apply (global_update_calls_once_per_edge 3 (1 # 10) (10 # 1) [2; 0; 1]
           (mkMatrixPhmem 3 (fun _ => 1%Q)) 2). lia.
Defined.

(** ** Global update of the selective memory *)

Lemma spm_global_update_fold {SP : Type} `{SelectivePhmemT SP}
      (dimension : nat) (rho best_value : Q) (best_route : list nat) (l : list nat) :
  (forall i, In i l -> nth i best_route 0 < dimension /\
                       nth ((i + 1) mod dimension) best_route 0 < dimension) ->
  forall t : Traced SP,
  exists t',
    fold_left
      (fun mem i =>
         match mem with
         | None => None
         | Some m =>
             let u := nth i best_route 0 in
             let v := nth ((i + 1) mod dimension) best_route 0 in
             if (u <? dimension) && (v <? dimension)
             then Some (sp_unsafe_warp_update m u v rho (1 / best_value)%Q)
             else None
         end) l (Some t) = Some t' /\
    traced_calls t' =
    traced_calls t ++ map (global_update_call_of dimension rho best_value best_route) l.
Proof.
  induction l as [|i l IH]; intros Hl t; cbn [fold_left map].
  - exists t. now rewrite app_nil_r.
  - destruct (Hl i (or_introl eq_refl)) as [Hu Hv].
    apply Nat.ltb_lt in Hu, Hv. cbv zeta. rewrite Hu, Hv. cbn [andb].
    destruct (IH (fun j Hj => Hl j (or_intror Hj))
                 (sp_unsafe_warp_update t (nth i best_route 0)
                    (nth ((i + 1) mod dimension) best_route 0) rho
                    (1 / best_value)%Q)) as [t' [E Ht']].
    exists t'. split; [exact E|]. rewrite Ht'.
    cbn [sp_unsafe_warp_update Traced_SelectivePhmemT traced_calls].
    unfold global_update_call_of. now rewrite <- app_assoc.
Qed.

Lemma spm_global_update_fails {SP : Type} `{SelectivePhmemT SP}
      (dimension : nat) (rho delta : Q) (best_route : list nat) (l : list nat) :
  fold_left
    (fun mem i =>
       match mem with
       | None => None
       | Some m =>
           let u := nth i best_route 0 in
           let v := nth ((i + 1) mod dimension) best_route 0 in
           if (u <? dimension) && (v <? dimension)
           then Some (sp_unsafe_warp_update m u v rho delta)
           else None
       end) l (@None SP) = None.
Proof. induction l as [|i l IH]; [reflexivity|exact IH]. Qed.

(** X21: the global update of the selective memory gives one element of the
    best route to one block: whatever the number of blocks, every position
    of the route is handled by exactly one of them; on a route made of node
    indices no assertion fails and block [b] passes the edges at the
    positions [b, b + gridDim.x, ...] to [unsafe_warp_update], in that
    order, with [rho] and [1 / best_value]; a node outside [0,N) in the
    route stops the block that meets it. *)
Theorem spm_global_update_one_block_per_edge
        {SP : Type} `{SelectivePhmemT SP}
        (dimension : nat) (rho best_value : Q) (best_route : list nat)
        (memory : SP) (grid_dim : nat) :
  0 < grid_dim ->
  Permutation (flat_map (fun b => stride b grid_dim dimension) (seq 0 grid_dim))
              (seq 0 dimension) /\
  ((forall x, In x best_route -> x < dimension) ->
   forall block_idx,
   exists memory',
     acs_global_pheromone_update_spm (SP := Traced SP) dimension rho
       (mkTraced memory []) best_value best_route block_idx grid_dim
     = Some memory' /\
     traced_calls memory' =
     map (global_update_call_of dimension rho best_value best_route)
         (stride block_idx grid_dim dimension)) /\
  (forall i, i < dimension -> dimension <= nth i best_route 0 ->
     acs_global_pheromone_update_spm dimension rho memory best_value best_route
                                     (i mod grid_dim) grid_dim = None).
Proof.
  intros Hg. split; [now apply block_strides_cover|]. split.
  - intros Hrange block_idx. unfold acs_global_pheromone_update_spm.
    destruct (spm_global_update_fold dimension rho best_value best_route
                (stride block_idx grid_dim dimension)) with (t := mkTraced memory [])
      as [t' [E Ht']].
    + intros i Hi. apply stride_In in Hi; [|exact Hg]. destruct Hi as [Hi _].
      split; apply best_route_nth_lt; auto; lia.
    + exists t'. split; [exact E|exact Ht'].
  - intros i Hi Hbad. unfold acs_global_pheromone_update_spm.
    assert (Hin : In i (stride (i mod grid_dim) grid_dim dimension)).
    { apply stride_In; [exact Hg|]. split; [exact Hi|].
      exists (i / grid_dim). pose proof (Nat.div_mod_eq i grid_dim). lia. }
    apply in_split in Hin. destruct Hin as [l1 [l2 ->]].
    rewrite fold_left_app. cbn [fold_left].
    destruct (fold_left _ l1 (Some memory)) as [m|].
    + cbv zeta.
      assert (E : (nth i best_route 0 <? dimension) = false)
        by (apply Nat.ltb_ge; exact Hbad).
      rewrite E. cbn [andb]. apply spm_global_update_fails.
    + apply spm_global_update_fails.
Qed.

Lemma spm_global_update_one_block_per_edge_witness :
  exists memory',
    acs_global_pheromone_update_spm (SP := Traced SelectivePhmem) 3 (1 # 10)
      (mkTraced (mkSelectivePhmem 4 8 1 (fun _ => [])) []) (10 # 1) [2; 0; 1] 0 1
    = Some memory' /\
    traced_calls memory' =
    map (global_update_call_of 3 (1 # 10) (10 # 1) [2; 0; 1]) (stride 0 1 3).
Proof.
  destruct (spm_global_update_one_block_per_edge 3 (1 # 10) (10 # 1) [2; 0; 1]
              (mkSelectivePhmem 4 8 1 (fun _ => [])) 1) as [_ [H _]]; [lia|].
  apply (H ltac:(intros x Hx; simpl in Hx;
                 destruct Hx as [<-|[<-|[<-|[]]]]; lia) 0).
Defined.

(** ** Best record over a run *)

Lemma check_better_solution_cases dimension ants_count vals routes it ctx :
  let ctx' := check_better_solution dimension ants_count vals routes it ctx in
  let j := find_best_index vals ants_count in
  ((iteration_best ants_count vals < best_value_ ctx)%Q /\
   best_value_ ctx' = iteration_best ants_count vals /\
   best_route_ ctx' = slice routes (j * dimension) dimension /\
   best_found_iteration ctx' = it /\
   ant_routes_ ctx' = routes) \/
  ((best_value_ ctx <= iteration_best ants_count vals)%Q /\
   best_value_ ctx' = best_value_ ctx /\
   best_route_ ctx' = best_route_ ctx /\
   best_found_iteration ctx' = best_found_iteration ctx /\
   ant_routes_ ctx' = ant_routes_ ctx).
Proof.
  cbv zeta. unfold check_better_solution, iteration_best.
  destruct (Qltb _ (best_value_ ctx)) eqn:E; cbn.
  - left. apply Qltb_lt in E. auto.
  - right. apply Qltb_ge in E. auto.
Qed.

Lemma run_iterations_le dimension ants_count results :
  forall first ctx,
    (best_value_ (run_iterations dimension ants_count results first ctx)
     <= best_value_ ctx)%Q.
Proof.
  induction results as [|[vals routes] rest IH]; intros first ctx; cbn [run_iterations].
  - apply Qle_refl.
  - eapply Qle_trans; [apply IH|apply check_better_solution_le].
Qed.

(** X22: the recorded best length is a lower bound of every ant value the
    controller has seen: after the run it is at most the value of every ant
    of every iteration (and at most the value it started from). *)
Theorem best_value_bounds_every_ant (dimension ants_count : nat)
        (results : list (list Q * list nat)) (first : nat) (ctx : RunContext) :
  let ctx' := run_iterations dimension ants_count results first ctx in
  (best_value_ ctx' <= best_value_ ctx)%Q /\
  forall k ant_values routes j,
    nth_error results k = Some (ant_values, routes) ->
    j < ants_count ->
    (best_value_ ctx' <= nth j ant_values 0)%Q.
Proof.
  cbv zeta. split; [apply run_iterations_le|].
  revert first ctx.
  induction results as [|[vals routes] rest IH]; intros first ctx k ant_values r j Hk Hj.
  - destruct k; discriminate.
  - cbn [run_iterations]. destruct k as [|k].
    + injection Hk as -> ->.
      eapply Qle_trans; [apply run_iterations_le|].
      destruct (find_best_index_spec ant_values ants_count) as [_ [Hmin _]].
      destruct (check_better_solution_cases dimension ants_count ant_values r first ctx)
        as [[_ [E _]]|[Hle [E _]]]; rewrite E.
      * apply Hmin. exact Hj.
      * eapply Qle_trans; [exact Hle|]. apply Hmin. exact Hj.
    + apply (IH (S first) _ k ant_values r j Hk Hj).
Qed.

Lemma best_value_bounds_every_ant_witness :
  Qle (best_value_ (run_iterations 2 2 [([5%Q; 3%Q], [0; 1; 1; 0]);
                                        ([4%Q; 7%Q], [1; 0; 0; 1])] 0
                                   (init_run_context 2 2)))
      7.
Proof.
  pose proof (best_value_bounds_every_ant 2 2
                [([5%Q; 3%Q], [0; 1; 1; 0]); ([4%Q; 7%Q], [1; 0; 0; 1])] 0
                (init_run_context 2 2)) as H.
  cbv zeta in H. destruct H as [_ H].
  exact (H 1 [4%Q; 7%Q] [1; 0; 0; 1] 1 eq_refl (Nat.lt_succ_diag_r 1)).
Defined.

(** X23: what the record holds after a run. Either no iteration improved on the
    starting record, which is then unchanged; or the recorded length, route
    and iteration number come from one ant of one iteration: the first ant
    attaining the minimum of the earliest iteration whose minimum is the
    least of the run, strictly below the starting record. The host copy of
    the routes is the one fetched at that iteration. *)
Theorem best_record_comes_from_one_ant (dimension ants_count : nat)
        (results : list (list Q * list nat)) (first : nat) (ctx : RunContext) :
  let ctx' := run_iterations dimension ants_count results first ctx in
  (best_value_ ctx' = best_value_ ctx /\
   best_route_ ctx' = best_route_ ctx /\
   best_found_iteration ctx' = best_found_iteration ctx /\
   ant_routes_ ctx' = ant_routes_ ctx /\
   forall k ant_values routes,
     nth_error results k = Some (ant_values, routes) ->
     (best_value_ ctx <= iteration_best ants_count ant_values)%Q)
  \/
  (exists k ant_values routes,
     nth_error results k = Some (ant_values, routes) /\
     let best_index := find_best_index ant_values ants_count in
     best_index < Nat.max 1 ants_count /\
     best_value_ ctx' = nth best_index ant_values 0%Q /\
     best_route_ ctx' = slice routes (best_index * dimension) dimension /\
     best_found_iteration ctx' = first + k /\
     ant_routes_ ctx' = routes /\
     (best_value_ ctx' < best_value_ ctx)%Q /\
     (forall k' ant_values' routes',
        k' < k -> nth_error results k' = Some (ant_values', routes') ->
        (best_value_ ctx' < iteration_best ants_count ant_values')%Q) /\
     (forall k' ant_values' routes',
        nth_error results k' = Some (ant_values', routes') ->
        (best_value_ ctx' <= iteration_best ants_count ant_values')%Q)).
Proof.
  cbv zeta. revert first ctx.
  induction results as [|[vals routes] rest IH]; intros first ctx.
  - left. cbn [run_iterations]. repeat split; try reflexivity.
    intros k av r Hk. destruct k; discriminate.
  - cbn [run_iterations].
    set (ctx1 := check_better_solution dimension ants_count vals routes first ctx).
    pose proof (check_better_solution_cases dimension ants_count vals routes first ctx)
      as Hc. cbv zeta in Hc. fold ctx1 in Hc.
    destruct (IH (S first) ctx1) as
      [[Ev [Er [Ei [Ea Hall]]]] | [k [av [r [Hk [Hb [Ev [Er [Ei [Ea [Hlt [Hearly Hall]]]]]]]]]]]].
    + destruct Hc as [[Hc0 [Hc1 [Hc2 [Hc3 Hc4]]]]|[Hc0 [Hc1 [Hc2 [Hc3 Hc4]]]]].
      * right. exists 0, vals, routes. split; [reflexivity|].
        split; [apply find_best_index_spec|].
        rewrite Ev, Er, Ei, Ea, Hc1, Hc2, Hc3, Hc4, Nat.add_0_r.
        repeat split; try reflexivity; try assumption.
        -- intros k' av' r' Hk'. lia.
        -- intros k' av' r' Hk'. destruct k' as [|k'].
           ++ injection Hk' as <- <-. apply Qle_refl.
           ++ rewrite <- Hc1. apply (Hall k' av' r' Hk').
      * left. rewrite Ev, Er, Ei, Ea, Hc1, Hc2, Hc3, Hc4.
        repeat split; try reflexivity.
        intros k' av' r' Hk'. destruct k' as [|k'].
        -- injection Hk' as <- <-. exact Hc0.
        -- rewrite <- Hc1. apply (Hall k' av' r' Hk').
    + right. exists (S k), av, r. split; [exact Hk|].
      split; [exact Hb|]. split; [exact Ev|]. split; [exact Er|].
      split; [rewrite Ei; lia|]. split; [exact Ea|].
      assert (H1 : (best_value_ ctx1 <= best_value_ ctx)%Q)
        by apply check_better_solution_le.
      assert (H0 : (best_value_ ctx1 <= iteration_best ants_count vals)%Q).
      { destruct Hc as [[Hc0 [Hc1 _]]|[Hc0 [Hc1 _]]]; rewrite Hc1;
          [apply Qle_refl|exact Hc0]. }
      split; [eapply Qlt_le_trans; eauto|]. split.
      * intros k' av' r' Hlt' Hk'. destruct k' as [|k'].
        -- injection Hk' as <- <-. eapply Qlt_le_trans; eauto.
        -- apply (Hearly k' av' r'); [lia|exact Hk'].
      * intros k' av' r' Hk'. destruct k' as [|k'].
        -- injection Hk' as <- <-. apply Qlt_le_weak. eapply Qlt_le_trans; eauto.
        -- apply (Hall k' av' r' Hk').
Qed.

(** ** Roulette wheel: the lane selected *)

Lemma scan_from_nth_0 (acc : Q) (v : list Q) :
  v <> [] -> nth 0 (scan_from acc v) 0%Q = (acc + nth 0 v 0)%Q.
Proof. destruct v; [congruence|reflexivity]. Qed.

Lemma scan_from_nth_S (v : list Q) :
  forall acc i, S i < length v ->
    nth (S i) (scan_from acc v) 0%Q =
    (nth i (scan_from acc v) 0 + nth (S i) v 0)%Q.
Proof.
  induction v as [|x t IH]; intros acc i Hi; simpl in Hi; [lia|].
  destruct i as [|i].
  - destruct t as [|y t]; [simpl in Hi; lia|reflexivity].
  - cbn [scan_from nth]. apply IH. lia.
Qed.

(** The index computed by the roulette wheel is the number of lanes whose
    prefix sum is at most the scaled draw, capped at the last lane. *)
Lemma roulette_index_count (nn_know : list Q) (draw : Q) :
  length nn_know = WARP_SIZE ->
  (forall x, In x nn_know -> (0 <= x)%Q) ->
  let prefix_sums := warp_scan nn_know in
  let r := (draw * nth (WARP_SIZE - 1) prefix_sums 0)%Q in
  exists c,
    c <= WARP_SIZE /\
    roulette_index nn_know draw = Nat.min (WARP_SIZE - 1) c /\
    (forall i, i < c -> (nth i prefix_sums 0 <= r)%Q) /\
    (c < WARP_SIZE -> (r < nth c prefix_sums 0)%Q).
Proof.
  intros Hlen Hpos prefix_sums r.
  unfold roulette_index, warp_bcast. fold prefix_sums. fold r.
  set (votes := map (fun s => Qleb s r) prefix_sums).
  assert (Hlv : length votes = WARP_SIZE).
  { unfold votes, prefix_sums, warp_scan. now rewrite length_map, scan_from_length. }
  assert (Hvote : forall i, i < WARP_SIZE ->
            nth i votes false = Qleb (nth i prefix_sums 0%Q) r).
  { intros i Hi. unfold votes.
    rewrite (nth_indep _ false (Qleb 0%Q r)) by (fold votes; lia).
    apply (map_nth (fun s => Qleb s r)). }
  assert (Hclosed : forall i j, i <= j -> nth j votes false = true ->
                                nth i votes false = true).
  { intros i j Hij Hj.
    destruct (Nat.lt_ge_cases j WARP_SIZE) as [Hjw|Hjw].
    - rewrite Hvote in Hj |- * by lia. apply Qleb_le in Hj. apply Qleb_le.
      eapply Qle_trans; [|exact Hj].
      apply scan_from_mono; [exact Hpos|exact Hij|lia].
    - rewrite nth_overflow in Hj by lia. discriminate. }
  rewrite popc_ballot by (rewrite Hlv; unfold WARP_SIZE; lia).
  destruct (count_true_prefix votes Hclosed) as [Hbelow Hat].
  exists (count_true votes).
  assert (Hc : count_true votes <= WARP_SIZE).
  { unfold count_true. rewrite <- Hlv. apply filter_length_le. }
  split; [exact Hc|]. split; [reflexivity|]. split.
  - intros i Hi. apply Qleb_le. rewrite <- Hvote by lia. apply Hbelow. exact Hi.
  - intros Hlt. rewrite Hvote in Hat by exact Hlt.
    apply Qnot_le_lt. intros Hle. apply Qleb_le in Hle. congruence.
Qed.

Lemma roulette_selects_positive_score_aux (nn_know : list Q) (draw : Q) :
  length nn_know = WARP_SIZE ->
  (forall x, In x nn_know -> (0 <= x)%Q) ->
  (0 < nth (WARP_SIZE - 1) (warp_scan nn_know) 0)%Q ->
  (0 <= draw)%Q -> (draw < 1)%Q ->
  roulette_index nn_know draw < WARP_SIZE /\
  (0 < nth (roulette_index nn_know draw) nn_know 0)%Q.
Proof.
  intros Hlen Hpos Htot Hd0 Hd1.
  destruct (roulette_index_count nn_know draw Hlen Hpos) as [c [Hc [Eidx [Hbelow Hat]]]].
  set (total := nth (WARP_SIZE - 1) (warp_scan nn_know) 0%Q) in *.
  assert (Hr : (draw * total < total)%Q) by nra.
  assert (Hr0 : (0 <= draw * total)%Q) by nra.
  assert (Hc31 : c < WARP_SIZE).
  { destruct (Nat.eq_dec c WARP_SIZE) as [->|Hne]; [|lia].
    exfalso. specialize (Hbelow (WARP_SIZE - 1)).
    fold total in Hbelow. unfold WARP_SIZE in Hbelow.
    assert (Hle : (total <= draw * total)%Q) by (apply Hbelow; lia).
    revert Hr. apply Qle_not_lt. exact Hle. }
  rewrite Eidx, Nat.min_r by lia. split; [exact Hc31|].
  specialize (Hat Hc31). unfold warp_scan in *.
  destruct c as [|c].
  - rewrite scan_from_nth_0 in Hat
      by (intros E; rewrite E in Hlen; discriminate).
    nra.
  - rewrite scan_from_nth_S in Hat by lia.
    specialize (Hbelow c (Nat.lt_succ_diag_r c)). nra.
Qed.

(** X8: with a draw in [0,1) and a positive total, the roulette wheel selects a
    lane whose own score is positive; with a draw of 1 (or more) it selects
    the last lane, whatever its score. *)
Theorem roulette_selects_positive_score (nn_know : list Q) (draw : Q) :
  length nn_know = WARP_SIZE ->
  (forall x, In x nn_know -> (0 <= x)%Q) ->
  let total := nth (WARP_SIZE - 1) (warp_scan nn_know) 0%Q in
  ((0 < total)%Q -> (0 <= draw)%Q -> (draw < 1)%Q ->
   (0 < nth (roulette_index nn_know draw) nn_know 0)%Q) /\
  ((1 <= draw)%Q -> roulette_index nn_know draw = WARP_SIZE - 1).
Proof.
  intros Hlen Hpos total. split.
  - intros Htot Hd0 Hd1.
    now apply roulette_selects_positive_score_aux.
  - intros Hd.
    destruct (roulette_index_count nn_know draw Hlen Hpos)
      as [c [Hc [Eidx [Hbelow Hat]]]].
    fold total in Hbelow, Hat.
    assert (Htot0 : (0 <= total)%Q).
    { unfold total, warp_scan. apply scan_from_ge; [exact Hpos|].
      rewrite Hlen. unfold WARP_SIZE. lia. }
    assert (Hc32 : c = WARP_SIZE).
    { destruct (Nat.eq_dec c WARP_SIZE) as [E|Hne]; [exact E|]. exfalso.
      assert (Hlt : c < WARP_SIZE) by lia. specialize (Hat Hlt).
      assert (Hle : (nth c (warp_scan nn_know) 0 <= total)%Q).
      { unfold total, warp_scan. apply scan_from_mono; [exact Hpos| |].
        - unfold WARP_SIZE in *. lia.
        - rewrite Hlen. unfold WARP_SIZE. lia. }
      nra. }
    rewrite Eidx, Hc32. unfold WARP_SIZE. reflexivity.
Qed.

Lemma roulette_selects_positive_score_witness :
  Qlt 0 (nth (roulette_index (repeat 0%Q 30 ++ [2%Q; 0%Q]) (1 # 2))
             (repeat 0%Q 30 ++ [2%Q; 0%Q]) 0%Q).
Proof.
  destruct (roulette_selects_positive_score (repeat 0%Q 30 ++ [2%Q; 0%Q]) (1 # 2))
    as [H _].
  - reflexivity.
  - intros x Hx. apply in_app_or in Hx. destruct Hx as [Hx|Hx].
    + apply repeat_spec in Hx. subst x. discriminate.
    + simpl in Hx. destruct Hx as [<-|[<-|[]]]; discriminate.
  - apply H; reflexivity || discriminate.
Defined.

(** ** The first warp's selection *)

(** X9: when a nearest neighbour of the current node is unvisited and the draw
    of the roulette wheel is in [0,1), the first warp of [acs_calc_solution]
    and of [acs_select_next_node] selects an unvisited nearest neighbour:
    the scan over all the nodes is not entered. Unvisited nodes have a
    positive score and the neighbour list holds node indices. *)
Theorem first_warp_selects_unvisited_neighbour
        {M : Type} `{PhmemT M}
        (q0 : Q) (dimension : nat) (heuristic_matrix : nat -> Q)
        (nn_lists : nat -> nat) (NN_SIZE : nat) (draws : nat -> Q)
        (visited : nat -> bool) (curr : nat) (phmem : M) (rng : nat) :
  (forall n, n < dimension -> visited n = false ->
     (0 < heuristic_matrix (dimension * curr + n)%nat
          * ph_get phmem (dimension * curr + n)%nat)%Q) ->
  (forall tid, tid < WARP_SIZE -> nn_lists (curr * NN_SIZE + tid) < dimension) ->
  any_lane (map (nn_unvisited nn_lists NN_SIZE visited curr) (seq 0 WARP_SIZE)) = true ->
  (0 <= draws (S rng))%Q -> (draws (S rng) < 1)%Q ->
  let next := fst (select_from_nn q0 dimension heuristic_matrix nn_lists NN_SIZE
                                  draws visited curr phmem rng) in
  next < dimension /\ visited next = false /\
  exists tid, tid < WARP_SIZE /\ next = nn_id nn_lists NN_SIZE curr tid.
Proof.
  intros Hscore Hnn Hany Hd0 Hd1 next.
  set (know := nn_know dimension heuristic_matrix nn_lists NN_SIZE visited curr phmem).
  assert (Hknow0 : forall tid, tid < WARP_SIZE -> (0 <= know tid)%Q).
  { intros tid Ht. unfold know, nn_know, nn_unvisited.
    destruct (visited (nn_id nn_lists NN_SIZE curr tid)) eqn:Ev; cbn [negb].
    - apply Qle_refl.
    - apply Qlt_le_weak. apply Hscore; [apply Hnn; exact Ht|exact Ev]. }
  assert (Hknow1 : forall tid, tid < WARP_SIZE -> (0 < know tid)%Q ->
            visited (nn_id nn_lists NN_SIZE curr tid) = false).
  { intros tid Ht Hp. unfold know, nn_know, nn_unvisited in Hp.
    destruct (visited (nn_id nn_lists NN_SIZE curr tid)); [|reflexivity].
    cbn [negb] in Hp. exfalso. revert Hp. apply Qlt_irrefl. }
  assert (Hsome : exists tid, tid < WARP_SIZE /\ (0 < know tid)%Q).
  { unfold any_lane in Hany. apply existsb_exists in Hany.
    destruct Hany as [b [Hb ->]]. apply in_map_iff in Hb.
    destruct Hb as [tid [Hunv Htid]]. apply in_seq in Htid.
    exists tid. split; [lia|]. unfold know, nn_know. rewrite Hunv.
    apply Hscore; [apply Hnn; lia|].
    unfold nn_unvisited in Hunv. now apply negb_true_iff in Hunv. }
  unfold next, select_from_nn. rewrite Hany.
  destruct (Qltb (draws rng) q0).
  - cbn [fst]. unfold warp_reduce_arg_max.
    set (lanes := map (fun tid => (nn_id nn_lists NN_SIZE curr tid,
                                   nn_know dimension heuristic_matrix nn_lists NN_SIZE
                                           visited curr phmem tid))
                      (seq 0 WARP_SIZE)).
    assert (Hne : lanes <> []) by (unfold lanes, WARP_SIZE; simpl; discriminate).
    destruct (warp_reduce_arg_max_ext_spec (dimension, 0%Q) lanes Hne) as [Hin Hmax].
    destruct Hsome as [tid [Htid Hp]].
    assert (Hpos : (0 < snd (warp_reduce_arg_max_ext (dimension, 0%Q) lanes))%Q).
    { eapply Qlt_le_trans; [exact Hp|].
      apply (Hmax (nn_id nn_lists NN_SIZE curr tid, know tid)).
      unfold lanes. apply (in_map (fun t => (nn_id nn_lists NN_SIZE curr t, know t))).
      apply in_seq. lia. }
    apply in_map_iff in Hin. destruct Hin as [t [Et Ht]]. apply in_seq in Ht.
    rewrite <- Et in Hpos |- *. cbn [fst snd] in Hpos |- *.
    split; [apply Hnn; lia|]. split; [apply Hknow1; [lia|exact Hpos]|].
    exists t. split; [lia|reflexivity].
  - cbn [fst].
    set (scores := map know (seq 0 WARP_SIZE)).
    assert (Hlen : length scores = WARP_SIZE)
      by (unfold scores; now rewrite length_map, length_seq).
    assert (Hnonneg : forall x, In x scores -> (0 <= x)%Q).
    { intros x Hx. apply in_map_iff in Hx. destruct Hx as [t [<- Ht]].
      apply in_seq in Ht. apply Hknow0. lia. }
    assert (Htotal : (0 < nth (WARP_SIZE - 1) (warp_scan scores) 0)%Q).
    { destruct Hsome as [tid [Htid Hp]].
      assert (Hs : (know tid <= nth tid (warp_scan scores) 0)%Q).
      { unfold warp_scan. destruct tid as [|tid].
        - rewrite scan_from_nth_0
            by (intros E; rewrite E in Hlen; discriminate).
          unfold scores. rewrite nth_map_seq by exact Htid. lra.
        - rewrite scan_from_nth_S by lia.
          assert (H0 : (0 <= nth tid (scan_from 0 scores) 0)%Q)
            by (apply scan_from_ge; [exact Hnonneg|lia]).
          unfold scores at 2. rewrite nth_map_seq by exact Htid. lra. }
      eapply Qlt_le_trans; [exact Hp|]. eapply Qle_trans; [exact Hs|].
      unfold warp_scan. apply scan_from_mono; [exact Hnonneg| |].
      - unfold WARP_SIZE in *. lia.
      - rewrite Hlen. unfold WARP_SIZE. lia. }
    destruct (roulette_selects_positive_score_aux scores (draws (S rng)) Hlen Hnonneg
                Htotal Hd0 Hd1) as [Hidx Hp].
    fold know. fold scores.
    set (best_idx := roulette_index scores (draws (S rng))) in *.
    unfold warp_bcast. rewrite nth_map_seq by exact Hidx.
    unfold scores in Hp. rewrite nth_map_seq in Hp by exact Hidx.
    rewrite (Hknow1 best_idx Hidx Hp).
    split; [apply Hnn; exact Hidx|]. split; [apply Hknow1; assumption|].
    exists best_idx. split; [exact Hidx|reflexivity].
Qed.

(** X12: the sum left in the value slot by [acs_calc_solution] and
    [acs_spm_calc_solution] adds up the partial sums of the complete warps
    only ([num_warps = blockDim.x / 32]): it is the sum of the edges at the
    positions [i] with [i mod blockDim.x < num_warps * 32]. A block smaller
    than a warp reports the length 0 for every route. *)
Theorem route_length_counts_complete_warps
        (dimension : nat) (dist_matrix : nat -> Q) (route : list nat)
        (block_dim : nat) :
  0 < block_dim <= 4 * WARP_SIZE ->
  (block_route_length dimension dist_matrix route block_dim ==
   Qsum (map (edge_length dimension dist_matrix route)
             (filter (fun i => i mod block_dim <? block_dim / WARP_SIZE * WARP_SIZE)
                     (seq 0 dimension))))%Q /\
  (block_dim < WARP_SIZE ->
   block_route_length dimension dist_matrix route block_dim = 0%Q).
Proof.
  intros [Hb _]. split.
  - unfold block_route_length.
    set (num_warps := block_dim / WARP_SIZE).
    assert (Hnw : num_warps * WARP_SIZE <= block_dim).
    { unfold num_warps, WARP_SIZE. pose proof (Nat.div_mod_eq block_dim 32). lia. }
    rewrite fold_left_add_map. fold (Qsum (map
      (fun w => warp_reduce
         (map (thread_length dimension dist_matrix route block_dim dimension)
              (seq (w * WARP_SIZE) WARP_SIZE))) (seq 0 num_warps))).
    unfold warp_reduce. rewrite Qsum_map_flat_map, seq_blocks.
    assert (E : map (thread_length dimension dist_matrix route block_dim dimension)
                    (seq 0 (num_warps * WARP_SIZE)) =
                map (fun tid => Qsum (map (edge_length dimension dist_matrix route)
                                          (stride tid block_dim dimension)))
                    (seq 0 (num_warps * WARP_SIZE))).
    { apply map_ext. intros tid. unfold thread_length.
      now rewrite fold_left_add_map. }
    rewrite E, Qsum_map_flat_map.
    apply Qsum_Permutation, Permutation_map, NoDup_Permutation.
    + now apply block_strides_NoDup.
    + apply NoDup_filter, seq_NoDup.
    + intros k. rewrite block_strides_In by assumption.
      rewrite filter_In, in_seq, Nat.ltb_lt. lia.
  - intros Hsmall. unfold block_route_length.
    rewrite Nat.div_small by exact Hsmall. reflexivity.
Qed.

Lemma route_length_counts_complete_warps_witness :
  block_route_length 4 (fun _ => 1%Q) [0; 1; 2; 3] 16 = 0%Q.
Proof.
  apply (route_length_counts_complete_warps 4 (fun _ => 1%Q) [0; 1; 2; 3] 16).
  - unfold WARP_SIZE. lia.
  - unfold WARP_SIZE. lia.
Defined.

(** X11: with a block smaller than a warp no thread takes part in the final
    reduction of the scan over all the nodes: once the nearest neighbours of
    the current node are all visited, [acs_calc_solution] commits the value
    [dimension], which is no node, as the next node of the route. *)
Theorem small_block_commits_no_node
        {M : Type} `{PhmemT M}
        (q0 phi initial_pheromone : Q) (dimension : nat)
        (heuristic_matrix : nat -> Q) (nn_lists : nat -> nat)
        (NN_SIZE pher_mem_update_freq block_dim : nat) (draws : nat -> Q)
        (st : BlockState (M := M)) (iter : nat) :
  block_dim < WARP_SIZE ->
  iter < length (route st) ->
  any_lane (map (nn_unvisited nn_lists NN_SIZE (is_node_visited (was_visited st))
                              (curr_pos st))
                (seq 0 WARP_SIZE)) = false ->
  let st' := calc_step q0 phi initial_pheromone dimension heuristic_matrix
                       nn_lists NN_SIZE pher_mem_update_freq block_dim draws
                       st iter in
  curr_pos st' = dimension /\ nth iter (route st') 0 = dimension /\
  rng st' = rng st.
Proof.
  intros Hsmall Hiter Hnone. cbv zeta.
  unfold calc_step, calc_next, select_from_nn. rewrite Hnone.
  rewrite Nat.eqb_refl. unfold fallback_scan.
  rewrite (Nat.div_small block_dim WARP_SIZE Hsmall).
  cbn [seq map curr_pos route rng].
  split; [reflexivity|]. split; [|reflexivity].
  now apply nth_store_same.
Qed.

Lemma small_block_commits_no_node_witness :
  let st' := calc_step (M := MatrixPhmem) (1 # 2) (1 # 10) 1 3 (fun _ => 1%Q)
               (fun _ => 0) 32 1 16 (fun _ => 0%Q)
               (calc_init [0; 0; 0] (mkMatrixPhmem 3 (fun _ => 1%Q)) 0) 1 in
  curr_pos st' = 3 /\ nth 1 (route st') 0 = 3 /\ rng st' = 0.
Proof.
  apply (small_block_commits_no_node (M := MatrixPhmem) (1 # 2) (1 # 10) 1 3
           (fun _ => 1%Q) (fun _ => 0) 32 1 16 (fun _ => 0%Q)
           (calc_init [0; 0; 0] (mkMatrixPhmem 3 (fun _ => 1%Q)) 0) 1).
  - unfold WARP_SIZE. lia.
  - simpl. lia.
  - vm_compute. reflexivity.
Defined.

(** ** Launches of the per-step kernel *)

Section LaunchFacts.

Context {M : Type} `{PhmemT M}.

Variable q0 phi initial_pheromone : Q.
Variable dimension : nat.
Variable heuristic_matrix : nat -> Q.
Variable nn_lists : nat -> nat.
Variable NN_SIZE block_dim : nat.
Variable draws : nat -> Q.

Let launch := acs_select_next_node (M := M) q0 phi initial_pheromone dimension
                heuristic_matrix nn_lists NN_SIZE block_dim draws.

(** What a launch that passes its assertions does to the buffers of the
    ant. *)
Lemma launch_effect (freq : nat) (st st' : AntState) :
  launch freq st = Some st' ->
  0 < ant_visited_count st < dimension /\
  ant_visited_count st' = S (ant_visited_count st) /\
  exists next_node,
    ant_route st' = store (ant_route st) (ant_visited_count st) next_node /\
    ant_phmem st' =
    (let pos := nth (ant_visited_count st - 1) (ant_route st) 0 in
     let ph1 := ph_update (ant_phmem st) pos next_node phi initial_pheromone in
     if S (ant_visited_count st) =? dimension
     then ph_update ph1 next_node (nth 0 (ant_route st') 0) phi initial_pheromone
     else ph1).
Proof using Type.
  unfold launch, acs_select_next_node.
  destruct ((0 <? ant_visited_count st) && (ant_visited_count st <? dimension))
    eqn:Ea; cbn [negb]; [|discriminate].
  apply andb_true_iff in Ea. destruct Ea as [E1 E2].
  apply Nat.ltb_lt in E1, E2.
  destruct (nth (ant_visited_count st - 1) (ant_route st) 0 <? dimension);
    cbn [negb]; [|discriminate].
  destruct (select_from_nn _ _ _ _ _ _ _ _ _ _) as [next0 rng1].
  destruct (next0 =? dimension).
  - destruct ((0 <? block_dim / WARP_SIZE) && (_ =? dimension)); [discriminate|].
    intros E. injection E as <-. cbn [ant_visited_count ant_route ant_phmem].
    split; [lia|]. split; [reflexivity|]. eexists. split; reflexivity.
  - intros E. injection E as <-. cbn [ant_visited_count ant_route ant_phmem].
    split; [lia|]. split; [reflexivity|]. eexists. split; reflexivity.
Qed.

Lemma launches_count (freq : nat) (launches : nat) :
  forall st st',
    select_next_nodes q0 phi initial_pheromone dimension heuristic_matrix
                      nn_lists NN_SIZE block_dim draws freq launches st = Some st' ->
    ant_visited_count st' = ant_visited_count st + launches /\
    (0 < launches -> ant_visited_count st' <= dimension).
Proof using Type.
  induction launches as [|n IH]; intros st st'; cbn [select_next_nodes].
  - intros E. injection E as <-. split; lia.
  - fold launch. destruct (launch freq st) as [st1|] eqn:E1; [|discriminate].
    intros E. apply launch_effect in E1. destruct E1 as [Hc [Hs _]].
    destruct (IH st1 st' E) as [Hn Hle]. split; [lia|].
    intros _. destruct n as [|n]; [|apply Hle; lia].
    cbn [select_next_nodes] in E. injection E as <-. lia.
Qed.

End LaunchFacts.

(** X15: every launch of [acs_select_next_node] that passes its assertions
    appends exactly one node to the route of the ant, so a route of [N]
    nodes is complete after [N - 1] launches and no sequence of launches
    writes past the end of the route buffer: a launch on a complete route
    stops at the first assertion. *)
Theorem per_step_launches_are_bounded
        {M : Type} `{PhmemT M}
        (q0 phi initial_pheromone : Q) (dimension : nat)
        (heuristic_matrix : nat -> Q) (nn_lists : nat -> nat)
        (NN_SIZE block_dim pher_mem_update_freq : nat) (draws : nat -> Q)
        (route0 : list nat) (phmem0 : M) (rng0 : nat) (launches : nat) :
  (forall st,
     select_next_nodes q0 phi initial_pheromone dimension heuristic_matrix
       nn_lists NN_SIZE block_dim draws pher_mem_update_freq launches
       (separate_init dimension route0 phmem0 rng0) = Some st ->
     ant_visited_count st = 1 + launches /\
     (0 < launches -> launches < dimension)) /\
  (0 < launches -> dimension <= launches ->
   select_next_nodes q0 phi initial_pheromone dimension heuristic_matrix
     nn_lists NN_SIZE block_dim draws pher_mem_update_freq launches
     (separate_init dimension route0 phmem0 rng0) = None) /\
  (forall st, ant_visited_count st = dimension ->
     acs_select_next_node q0 phi initial_pheromone dimension heuristic_matrix
       nn_lists NN_SIZE block_dim draws pher_mem_update_freq st = None).
Proof.
  assert (Hsome : forall st,
     select_next_nodes q0 phi initial_pheromone dimension heuristic_matrix
       nn_lists NN_SIZE block_dim draws pher_mem_update_freq launches
       (separate_init dimension route0 phmem0 rng0) = Some st ->
     ant_visited_count st = 1 + launches /\
     (0 < launches -> launches < dimension)).
  { intros st E. apply launches_count in E. cbn [separate_init ant_visited_count] in E.
    destruct E as [E1 E2]. split; [exact E1|]. intros Hl. specialize (E2 Hl). lia. }
  split; [exact Hsome|]. split.
  - intros Hpos Hge.
    destruct (select_next_nodes _ _ _ _ _ _ _ _ _ _ _ _) as [st|];
      [|reflexivity].
    destruct (Hsome st eq_refl) as [_ E]. specialize (E Hpos). lia.
  - intros st Hfull. unfold acs_select_next_node. rewrite Hfull.
    rewrite Nat.ltb_irrefl, andb_false_r. reflexivity.
Qed.

Lemma per_step_launches_are_bounded_witness :
  select_next_nodes (M := MatrixPhmem) (1 # 2) (1 # 10) 1 3 (fun _ => 1%Q)
    (fun k => k mod 3) 32 32 (fun _ => 0%Q) 1 3
    (separate_init 3 [0; 0; 0] (mkMatrixPhmem 3 (fun _ => 1%Q)) 0) = None.
Proof.
  destruct (per_step_launches_are_bounded (M := MatrixPhmem) (1 # 2) (1 # 10) 1 3
              (fun _ => 1%Q) (fun k => k mod 3) 32 32 1 (fun _ => 0%Q)
              [0; 0; 0] (mkMatrixPhmem 3 (fun _ => 1%Q)) 0 3) as [_ [H _]].
  apply H; lia.
Defined.

Lemma matrix_update_between (m : MatrixPhmem) (u v : nat) (decay deposit lo hi : Q) :
  (0 <= decay)%Q -> (decay <= 1)%Q -> (lo <= deposit)%Q -> (deposit <= hi)%Q ->
  (forall k, (lo <= mp_cells m k)%Q /\ (mp_cells m k <= hi)%Q) ->
  forall k, (lo <= mp_cells (matrix_update m u v decay deposit) k)%Q /\
            (mp_cells (matrix_update m u v decay deposit) k <= hi)%Q.
Proof.
  intros H0 H1 Hlo Hhi Hb k. unfold matrix_update. cbn [mp_cells]. unfold write.
  destruct (Hb (cell (mp_dimension m) u v)) as [B1 B2].
  pose proof (pheromone_rule_between decay _ deposit lo hi H0 H1 B1 B2 Hlo Hhi).
  destruct (k =? _); [assumption|]. destruct (k =? _); [assumption|apply Hb].
Qed.

(** ** Local updates in a dense memory *)

Section LocalUpdateFacts.

Context {M : Type} `{PhmemT M}.

Variable q0 phi initial_pheromone : Q.
Variable dimension : nat.
Variable heuristic_matrix dist_matrix : nat -> Q.
Variable nn_lists : nat -> nat.
Variable NN_SIZE pher_mem_update_freq block_dim : nat.
Variable draws : nat -> Q.

(** A property of the memory that every local update keeps. *)
Variable P : M -> Prop.
Hypothesis HP_update :
  forall m u v, P m -> P (ph_update m u v phi initial_pheromone).

Lemma calc_solution_keeps (route0 : list nat) (phmem0 : M) (rng0 : nat) :
  P phmem0 ->
  P (res_phmem (acs_calc_solution q0 phi initial_pheromone dimension
                  heuristic_matrix dist_matrix nn_lists NN_SIZE
                  pher_mem_update_freq block_dim draws route0 phmem0 rng0)).
Proof using HP_update.
  intros HP0. unfold acs_calc_solution. cbn [res_phmem].
  assert (Hloop : forall l st, P (phmem st) ->
            P (phmem (fold_left
                        (calc_step q0 phi initial_pheromone dimension
                           heuristic_matrix nn_lists NN_SIZE pher_mem_update_freq
                           block_dim draws) l st))).
  { induction l as [|iter l IH]; intros st Hst; cbn [fold_left]; [exact Hst|].
    apply IH. unfold calc_step. destruct (calc_next _ _ _ _ _ _ _ _) as [n r].
    cbn [phmem]. destruct (_ =? 0); [now apply HP_update|exact Hst]. }
  set (st := calc_loop _ _ _ _ _ _ _ _ _ _ _).
  assert (Hst : P (phmem st)) by (unfold st, calc_loop; apply Hloop; exact HP0).
  unfold calc_closing_update.
  destruct (_ =? 0); [|exact Hst].
  generalize (seq 0 block_dim). intros l. revert Hst. generalize (phmem st).
  induction l as [|x l IH]; intros m Hm; cbn [fold_left]; [exact Hm|].
  apply IH. now apply HP_update.
Qed.

Lemma select_next_nodes_keep (freq launches : nat) :
  forall st st',
    select_next_nodes q0 phi initial_pheromone dimension heuristic_matrix
      nn_lists NN_SIZE block_dim draws freq launches st = Some st' ->
    P (ant_phmem st) -> P (ant_phmem st').
Proof using HP_update.
  induction launches as [|n IH]; intros st st'; cbn [select_next_nodes].
  - intros E. injection E as <-. auto.
  - destruct (acs_select_next_node _ _ _ _ _ _ _ _ _ _ st) as [st1|] eqn:E1;
      [|discriminate].
    intros E Hst. apply (IH st1 st' E).
    apply launch_effect in E1. destruct E1 as [_ [_ [next [_ Eph]]]].
    rewrite Eph. cbv zeta. destruct (_ =? dimension); auto.
Qed.

End LocalUpdateFacts.

(** X14: the local updates keep the pheromone of a dense memory within bounds:
    when every cell and the initial pheromone lie between [lo] and [hi] and
    [phi] is in [0,1], every cell lies between [lo] and [hi] after the
    construction of a route, by the monolithic kernel and by any number of
    launches of the per-step kernel. In a memory filled with the initial
    pheromone ([lo = hi]) the local updates change no value. *)
Theorem local_updates_keep_bounds
        (q0 phi initial_pheromone : Q) (dimension : nat)
        (heuristic_matrix dist_matrix : nat -> Q) (nn_lists : nat -> nat)
        (NN_SIZE pher_mem_update_freq block_dim : nat) (draws : nat -> Q)
        (route0 : list nat) (phmem0 : MatrixPhmem) (rng0 : nat) (lo hi : Q) :
  (0 <= phi)%Q -> (phi <= 1)%Q ->
  (lo <= initial_pheromone)%Q -> (initial_pheromone <= hi)%Q ->
  (forall k, (lo <= mp_cells phmem0 k)%Q /\ (mp_cells phmem0 k <= hi)%Q) ->
  (forall k,
     let m := res_phmem (acs_calc_solution q0 phi initial_pheromone dimension
                           heuristic_matrix dist_matrix nn_lists NN_SIZE
                           pher_mem_update_freq block_dim draws route0 phmem0 rng0) in
     (lo <= mp_cells m k)%Q /\ (mp_cells m k <= hi)%Q) /\
  (forall launches st,
     select_next_nodes q0 phi initial_pheromone dimension heuristic_matrix
       nn_lists NN_SIZE block_dim draws pher_mem_update_freq launches
       (separate_init dimension route0 phmem0 rng0) = Some st ->
     forall k, (lo <= mp_cells (ant_phmem st) k)%Q /\
               (mp_cells (ant_phmem st) k <= hi)%Q).
Proof.
  intros H0 H1 Hlo Hhi Hcells.
  set (P := fun m : MatrixPhmem =>
              forall k, (lo <= mp_cells m k)%Q /\ (mp_cells m k <= hi)%Q).
  assert (HP : forall m u v, P m -> P (ph_update m u v phi initial_pheromone)).
  { intros m u v Hm. unfold P. cbn [ph_update MatrixPhmem_PhmemT].
    now apply matrix_update_between. }
  split.
  - cbv zeta. apply (calc_solution_keeps q0 phi initial_pheromone dimension
                       heuristic_matrix dist_matrix nn_lists NN_SIZE
                       pher_mem_update_freq block_dim draws P HP).
    exact Hcells.
  - intros launches st E.
    apply (select_next_nodes_keep q0 phi initial_pheromone dimension
             heuristic_matrix nn_lists NN_SIZE block_dim draws P HP
             pher_mem_update_freq launches _ st E).
    exact Hcells.
Qed.

Lemma local_updates_keep_bounds_witness :
  let m := res_phmem (acs_calc_solution (1 # 2) (1 # 10) 1 3 (fun _ => 1%Q)
                        (fun _ => 1%Q) (fun k => k mod 3) 32 1 32 (fun _ => 0%Q)
                        [0; 0; 0] (mkMatrixPhmem 3 (fun _ => 1%Q)) 0) in
  Qle 1 (mp_cells m 1) /\ Qle (mp_cells m 1) 1.
Proof.
  destruct (local_updates_keep_bounds (1 # 2) (1 # 10) 1 3 (fun _ => 1%Q)
              (fun _ => 1%Q) (fun k => k mod 3) 32 1 32 (fun _ => 0%Q)
              [0; 0; 0] (mkMatrixPhmem 3 (fun _ => 1%Q)) 0 1 1) as [H _];
    try discriminate.
  - intros k. split; discriminate.
  - exact (H 1).
Defined.

(** ** The per-step strategy from the host *)



Lemma first_warp_selects_unvisited_neighbour_witness :
  let next := fst (select_from_nn (1 # 2) 3 (fun _ => 1%Q) (fun k => k mod 3) 32
                     (fun _ => (1 # 2)%Q) (fun n => n =? 0) 0
                     (mkMatrixPhmem 3 (fun _ => 1%Q)) 0) in
  next < 3 /\ (next =? 0) = false /\
  exists tid, tid < WARP_SIZE /\ next = nn_id (fun k => k mod 3) 32 0 tid.
Proof.
  apply (first_warp_selects_unvisited_neighbour (M := MatrixPhmem) (1 # 2) 3
           (fun _ => 1%Q) (fun k => k mod 3) 32 (fun _ => (1 # 2)%Q)
           (fun n => n =? 0) 0 (mkMatrixPhmem 3 (fun _ => 1%Q)) 0).
  - intros n _ _. reflexivity.
  - intros tid _. apply Nat.mod_upper_bound. lia.
  - reflexivity.
  - discriminate.
  - reflexivity.
Defined.

(** ** The start node *)

Lemma nth_0_store_above {A : Type} (l : list A) (i : nat) (x d : A) :
  0 < i -> nth 0 (store l i x) d = nth 0 l d.
Proof. intros Hi. apply nth_store_other. lia. Qed.

(** X13: the construction never overwrites the start node: the route left by
    each of the three strategies begins with the node that [acs_ant_init]
    put in [route[0]]. *)
Theorem construction_keeps_start_node
        {M : Type} `{PhmemT M} {SP : Type} `{SelectivePhmemT SP}
        (q0 phi initial_pheromone : Q) (dimension : nat)
        (heuristic_matrix dist_matrix : nat -> Q) (nn_lists : nat -> nat)
        (NN_SIZE pher_mem_update_freq block_dim : nat) (draws : nat -> Q)
        (uninitialised : nat -> nat)
        (route0 : list nat) (phmem0 : M) (memory : SP) (rng0 : nat) :
  nth 0 (res_route (acs_calc_solution q0 phi initial_pheromone dimension
                      heuristic_matrix dist_matrix nn_lists NN_SIZE
                      pher_mem_update_freq block_dim draws route0 phmem0 rng0)) 0
  = nth 0 route0 0 /\
  (forall launches st,
     select_next_nodes q0 phi initial_pheromone dimension heuristic_matrix
       nn_lists NN_SIZE block_dim draws pher_mem_update_freq launches
       (separate_init dimension route0 phmem0 rng0) = Some st ->
     nth 0 (ant_route st) 0 = nth 0 route0 0) /\
  (forall res,
     acs_spm_calc_solution q0 phi dimension memory heuristic_matrix dist_matrix
       nn_lists NN_SIZE pher_mem_update_freq block_dim draws uninitialised
       route0 rng0 = Some res ->
     nth 0 (spm_res_route res) 0 = nth 0 route0 0).
Proof.
  split; [|split].
  - unfold acs_calc_solution, calc_loop. cbn [res_route].
    change (nth 0 route0 0) with (nth 0 (route (calc_init route0 phmem0 rng0)) 0).
    generalize (calc_init route0 phmem0 rng0).
    assert (Hl : forall x, In x (seq 1 (dimension - 1)) -> 0 < x)
      by (intros x Hx; apply in_seq in Hx; lia).
    revert Hl. generalize (seq 1 (dimension - 1)).
    induction l as [|iter l IH]; intros Hl st; cbn [fold_left]; [reflexivity|].
    rewrite IH by (intros x Hx; apply Hl; now right).
    unfold calc_step. destruct (calc_next _ _ _ _ _ _ _ _) as [n r].
    cbn [route]. apply nth_0_store_above. apply Hl. now left.
  - intros launches.
    change (nth 0 route0 0)
      with (nth 0 (ant_route (separate_init dimension route0 phmem0 rng0)) 0).
    generalize (separate_init dimension route0 phmem0 rng0).
    induction launches as [|n IH]; intros st0 st; cbn [select_next_nodes].
    + intros E. now injection E as <-.
    + destruct (acs_select_next_node _ _ _ _ _ _ _ _ _ _ st0) as [st1|] eqn:E1;
        [|discriminate].
      intros E. rewrite (IH st1 st E).
      apply launch_effect in E1. destruct E1 as [Hc [_ [next [Er _]]]].
      rewrite Er. apply nth_0_store_above. lia.
  - intros res. unfold acs_spm_calc_solution, spm_calc_solution, spm_loop.
    set (step := spm_step _ _ _ _ _ _ _ _ _ _ _).
    destruct (fold_left step _ _) as [st|] eqn:E; [|discriminate].
    intros Er. injection Er as <-. cbn [spm_res_route].
    change (nth 0 route0 0)
      with (nth 0 (spm_route (spm_init route0 memory rng0)) 0).
    revert E. generalize (spm_init route0 memory rng0).
    assert (Hl : forall x, In x (seq 1 (dimension - 1)) -> 0 < x)
      by (intros x Hx; apply in_seq in Hx; lia).
    revert Hl. generalize (seq 1 (dimension - 1)).
    assert (Hnone : forall l, fold_left step l None = None)
      by (induction l as [|x l IHl]; [reflexivity|exact IHl]).
    induction l as [|iter l IH]; intros Hl st0; cbn [fold_left].
    + intros E. now injection E as <-.
    + destruct (step (Some st0) iter) as [st1|] eqn:E1;
        [|rewrite Hnone; discriminate].
      intros E. rewrite (IH (fun x Hx => Hl x (or_intror Hx)) st1 E).
      unfold step, spm_step in E1.
      destruct (spm_select_from_nn _ _ _ _ _ _ _ _ _ _ _ _) as [[n0 r1]|];
        [|discriminate].
      injection E1 as <-. cbn [spm_route].
      apply nth_0_store_above. apply Hl. now left.
Qed.

(** ** What the selection maximises *)

(** X7: in the exploitation branch ([q < q0]) the first warp selects the
    nearest neighbour whose score is the largest of the 32 lanes, and one
    draw of the generator is consumed. *)
Theorem exploitation_selects_best_neighbour
        {M : Type} `{PhmemT M}
        (q0 : Q) (dimension : nat) (heuristic_matrix : nat -> Q)
        (nn_lists : nat -> nat) (NN_SIZE : nat) (draws : nat -> Q)
        (visited : nat -> bool) (curr : nat) (phmem : M) (rng : nat) :
  any_lane (map (nn_unvisited nn_lists NN_SIZE visited curr) (seq 0 WARP_SIZE)) = true ->
  (draws rng < q0)%Q ->
  let selection := select_from_nn q0 dimension heuristic_matrix nn_lists NN_SIZE
                                  draws visited curr phmem rng in
  let know := nn_know dimension heuristic_matrix nn_lists NN_SIZE visited curr phmem in
  snd selection = S rng /\
  exists tid, tid < WARP_SIZE /\
              fst selection = nn_id nn_lists NN_SIZE curr tid /\
              forall t, t < WARP_SIZE -> (know t <= know tid)%Q.
Proof.
  intros Hany Hq selection know. unfold selection, select_from_nn.
  rewrite Hany. apply Qltb_lt in Hq. rewrite Hq. cbn [fst snd].
  split; [reflexivity|]. unfold warp_reduce_arg_max.
  set (lanes := map (fun tid => (nn_id nn_lists NN_SIZE curr tid,
                                 nn_know dimension heuristic_matrix nn_lists NN_SIZE
                                         visited curr phmem tid))
                    (seq 0 WARP_SIZE)).
  assert (Hne : lanes <> []) by (unfold lanes, WARP_SIZE; simpl; discriminate).
  destruct (warp_reduce_arg_max_ext_spec (dimension, 0%Q) lanes Hne) as [Hin Hmax].
  apply in_map_iff in Hin. destruct Hin as [tid [Et Ht]]. apply in_seq in Ht.
  exists tid. split; [lia|]. rewrite <- Et. cbn [fst]. split; [reflexivity|].
  intros t Hlt. specialize (Hmax (nn_id nn_lists NN_SIZE curr t, know t)).
  rewrite <- Et in Hmax. cbn [snd] in Hmax. apply Hmax.
  unfold lanes. apply (in_map (fun t => (nn_id nn_lists NN_SIZE curr t, know t))).
  apply in_seq. lia.
Qed.

Lemma exploitation_selects_best_neighbour_witness :
  let selection := select_from_nn (1 # 2) 3 (fun _ => 1%Q) (fun k => k mod 3) 32
                     (fun _ => 0%Q) (fun n => n =? 0) 0
                     (mkMatrixPhmem 3 (fun _ => 1%Q)) 0 in
  snd selection = 1 /\
  exists tid, tid < WARP_SIZE /\
              fst selection = nn_id (fun k => k mod 3) 32 0 tid /\
              forall t, t < WARP_SIZE ->
                Qle (nn_know 3 (fun _ => 1%Q) (fun k => k mod 3) 32
                             (fun n => n =? 0) 0
                             (mkMatrixPhmem 3 (fun _ => 1%Q)) t)
                    (nn_know 3 (fun _ => 1%Q) (fun k => k mod 3) 32
                             (fun n => n =? 0) 0
                             (mkMatrixPhmem 3 (fun _ => 1%Q)) tid).
Proof.
  apply (exploitation_selects_best_neighbour (M := MatrixPhmem) (1 # 2) 3
           (fun _ => 1%Q) (fun k => k mod 3) 32 (fun _ => 0%Q)
           (fun n => n =? 0) 0 (mkMatrixPhmem 3 (fun _ => 1%Q)) 0).
  - reflexivity.
  - reflexivity.
Defined.

Section FallbackFacts.

Context {M : Type} `{PhmemT M}.

Variable dimension : nat.
Variable heuristic_matrix : nat -> Q.
Variable visited : nat -> bool.
Variable curr : nat.
Variable phmem : M.

Let score (n : nat) : Q :=
  (heuristic_matrix (dimension * curr + n) * ph_get phmem (dimension * curr + n))%Q.

(** The value held by a thread of the scan is the score of the node it
    holds. *)
Lemma scan_node_value (l : list nat) :
  forall acc,
    ((0 < snd acc)%Q -> snd acc = score (fst acc)) ->
    let r := fold_left (scan_node dimension heuristic_matrix visited curr phmem) l acc in
    (0 < snd r)%Q -> snd r = score (fst r).
Proof using Type.
  induction l as [|i l IH]; intros acc Hacc; cbn [fold_left]; [exact Hacc|].
  apply IH. unfold scan_node. destruct acc as [id mx]. cbn [fst snd] in Hacc.
  destruct (visited i); cbn [negb fst snd]; [exact Hacc|].
  unfold fmax. rewrite (Nat.add_comm i).
  destruct (Qltb mx _); cbn [fst snd]; [reflexivity|exact Hacc].
Qed.

Lemma two_level_reduce_max d (thread : nat -> nat * Q) (num_warps : nat) :
  0 < num_warps ->
  let warp w := warp_reduce_arg_max_ext d (map thread (seq (w * WARP_SIZE) WARP_SIZE)) in
  let partials := map warp (seq 0 num_warps) in
  forall tid, tid < num_warps * WARP_SIZE ->
    (snd (thread tid) <= snd (warp_reduce_arg_max_ext d partials))%Q.
Proof using Type.
  intros Hw warp partials tid Htid.
  assert (Hlanes : forall w, map thread (seq (w * WARP_SIZE) WARP_SIZE) <> []).
  { intros w. unfold WARP_SIZE. simpl. discriminate. }
  assert (Hne : partials <> []).
  { unfold partials. destruct num_warps; [lia|]. simpl. discriminate. }
  destruct (warp_reduce_arg_max_ext_spec d partials Hne) as [_ Hmax].
  set (w := tid / WARP_SIZE).
  assert (Hwlt : w < num_warps).
  { unfold w. apply Nat.Div0.div_lt_upper_bound. unfold WARP_SIZE in *. lia. }
  assert (Hin_lane : In (thread tid) (map thread (seq (w * WARP_SIZE) WARP_SIZE))).
  { apply in_map, in_seq. unfold w, WARP_SIZE.
    pose proof (Nat.div_mod_eq tid 32). pose proof (Nat.mod_upper_bound tid 32). lia. }
  destruct (warp_reduce_arg_max_ext_spec d _ (Hlanes w)) as [_ Hwmax].
  eapply Qle_trans; [apply Hwmax; exact Hin_lane|].
  apply Hmax. unfold partials. apply (in_map warp), in_seq. lia.
Qed.

Hypothesis Hscore : forall n, n < dimension -> visited n = false -> (0 < score n)%Q.

Variable num_warps : nat.
Hypothesis Hwarps : 0 < num_warps.
Hypothesis Hsome : exists n, n < dimension /\ visited n = false.

Lemma fallback_scan_best :
  let next := fallback_scan dimension (num_warps * WARP_SIZE)
                (scan_node dimension heuristic_matrix visited curr phmem) in
  next < dimension /\ visited next = false /\
  forall n, n < dimension -> visited n = false -> (score n <= score next)%Q.
Proof using Hscore Hwarps Hsome.
  cbv zeta.
  destruct (fallback_scan_valid dimension heuristic_matrix visited curr phmem
              Hscore num_warps Hwarps Hsome) as [Hlt Hv].
  split; [exact Hlt|]. split; [exact Hv|].
  intros n Hn Hnv. unfold fallback_scan.
  rewrite Nat.div_mul by (unfold WARP_SIZE; lia).
  set (block_dim := num_warps * WARP_SIZE).
  set (thread := fun tid =>
         fold_left (scan_node dimension heuristic_matrix visited curr phmem)
                   (stride tid block_dim dimension) (dimension, 0%Q)).
  assert (Hb : 0 < block_dim) by (unfold block_dim, WARP_SIZE; lia).
  assert (Hn_thread : (score n <= snd (thread (n mod block_dim)))%Q).
  { apply (scan_node_good dimension heuristic_matrix visited curr phmem
             (stride (n mod block_dim) block_dim dimension)).
    - intros i Hi. apply stride_In in Hi; [tauto|exact Hb].
    - split; cbn [fst snd]; [apply Qle_refl|].
      intros Hlt0. exfalso. revert Hlt0. apply Qlt_irrefl.
    - apply stride_In; [exact Hb|]. split; [exact Hn|].
      exists (n / block_dim). pose proof (Nat.div_mod_eq n block_dim). lia.
    - exact Hnv. }
  assert (Hex : exists tid, tid < num_warps * WARP_SIZE /\ (0 < snd (thread tid))%Q).
  { exists (n mod block_dim). split; [apply Nat.mod_upper_bound; lia|].
    eapply Qlt_le_trans; [apply (Hscore n Hn Hnv)|exact Hn_thread]. }
  pose proof (two_level_reduce (dimension, 0%Q) thread num_warps Hwarps Hex) as Hred.
  cbv zeta in Hred. destruct Hred as [Hne [[tid [_ Etid]] Hpos]].
  pose proof (two_level_reduce_max (dimension, 0%Q) thread num_warps Hwarps
                (n mod block_dim)) as Hmax.
  cbv zeta in Hmax.
  rewrite (match_nonempty _ _ _ Hne). unfold warp_reduce_arg_max.
  eapply Qle_trans; [exact Hn_thread|].
  eapply Qle_trans; [apply Hmax; apply Nat.mod_upper_bound; lia|].
  rewrite Etid in Hpos |- *.
  assert (Eval : snd (thread tid) = score (fst (thread tid))).
  { apply (scan_node_value (stride tid block_dim dimension) (dimension, 0%Q));
      [|exact Hpos].
    cbn [fst snd]. intros Hlt0. exfalso. revert Hlt0. apply Qlt_irrefl. }
  rewrite Eval. apply Qle_refl.
Qed.

End FallbackFacts.

(** X10: when the 32 nearest neighbours of the current node are all visited,
    the scan over all the nodes is greedy: the node it returns, in
    [acs_calc_solution] and in [acs_select_next_node], is an unvisited node
    whose score (heuristic value times pheromone) is the largest among the
    unvisited nodes; no random draw is involved. *)
Theorem fallback_selects_best_node
        {M : Type} `{PhmemT M}
        (dimension : nat) (heuristic_matrix : nat -> Q)
        (visited : nat -> bool) (curr : nat) (phmem : M) (num_warps : nat) :
  let score n := (heuristic_matrix (dimension * curr + n)%nat
                  * ph_get phmem (dimension * curr + n)%nat)%Q in
  (forall n, n < dimension -> visited n = false -> (0 < score n)%Q) ->
  0 < num_warps <= 4 ->
  (exists n, n < dimension /\ visited n = false) ->
  let next := fallback_scan dimension (num_warps * WARP_SIZE)
                (scan_node dimension heuristic_matrix visited curr phmem) in
  (next < dimension /\ visited next = false /\
   forall n, n < dimension -> visited n = false -> (score n <= score next)%Q) /\
  fallback_scan dimension (num_warps * WARP_SIZE)
    (scan_node_step dimension heuristic_matrix visited curr phmem) = next.
Proof.
  intros score Hscore [Hwarps _] Hsome next. split.
  - apply (fallback_scan_best dimension heuristic_matrix visited curr phmem
             Hscore num_warps Hwarps Hsome).
  - unfold next, fallback_scan.
    assert (Ew : forall w,
      map (fun tid => fold_left (scan_node_step dimension heuristic_matrix visited curr phmem)
                        (stride tid (num_warps * WARP_SIZE) dimension) (dimension, 0%Q))
          (seq (w * WARP_SIZE) WARP_SIZE) =
      map (fun tid => fold_left (scan_node dimension heuristic_matrix visited curr phmem)
                        (stride tid (num_warps * WARP_SIZE) dimension) (dimension, 0%Q))
          (seq (w * WARP_SIZE) WARP_SIZE)).
    { intros w. apply map_ext. intros tid. apply scan_node_step_same. apply Qle_refl. }
    rewrite (map_ext _ _ (fun w => f_equal (warp_reduce_arg_max_ext (dimension, 0%Q)) (Ew w))).
    reflexivity.
Qed.

Lemma fallback_selects_best_node_witness :
  let next := fallback_scan 3 (1 * WARP_SIZE)
                (scan_node 3 (fun k => inject_Z (Z.of_nat (S k))) (fun n => n =? 0) 0
                           (mkMatrixPhmem 3 (fun _ => 1%Q))) in
  next < 3 /\ (next =? 0) = false.
Proof.
  destruct (fallback_selects_best_node (M := MatrixPhmem) 3
              (fun k => inject_Z (Z.of_nat (S k))) (fun n => n =? 0) 0
              (mkMatrixPhmem 3 (fun _ => 1%Q)) 1) as [[H1 [H2 _]] _].
  - intros n _ _. cbn [ph_get MatrixPhmem_PhmemT mp_cells].
    unfold Qlt. simpl. lia.
  - lia.
  - exists 1. split; [lia|reflexivity].
  - split; assumption.
Defined.

(** ** The other two strategies from the host *)

(** X24: on a well-formed instance [GPUACS::build_ant_solutions] leaves,
    for a block of one to four complete warps, a route that is a permutation
    of [0,N), the visited count [N] and a hot cache whose cells all hold
    [dimension], and for a block of one warp the length of that route (the
    sum over all [i] of [dist_matrix(route[i], route[(i+1) mod N])]);
    [GPUACSSelectiveMemory::build_ant_solutions] leaves such a route, its
    length and the count whatever number of threads per block the run was
    asked for, since it always launches 32. *)
Theorem host_strategies_build_valid_tours
        {SP : Type} `{SelectivePhmemT SP}
        (q0 phi initial_pheromone : Q) (dimension : nat)
        (heuristic_matrix dist_matrix : nat -> Q) (nn_lists : nat -> nat)
        (NN_SIZE pher_mem_update_freq num_warps threads_per_block_ : nat)
        (draws : nat -> Q) (uninitialised : nat -> nat)
        (dev_nn_hot_cache : list nat)
        (rand_uint : nat) (stale_route : list nat)
        (phmem0 : MatrixPhmem) (dev_phmem : SP) (rng0 : nat) :
  0 < dimension <= MAX_VISITED_SIZE * WARP_SIZE ->
  0 < num_warps <= 4 ->
  (0 <= phi)%Q -> (phi <= 1)%Q ->
  (0 < initial_pheromone)%Q ->
  (forall k, (0 < mp_cells phmem0 k)%Q) ->
  (0 < sp_default_pheromone dev_phmem)%Q ->
  (forall u v, u < dimension -> v < dimension -> u <> v ->
               (0 < heuristic_matrix (dimension * u + v)%nat)%Q) ->
  (forall u tid, u < dimension -> tid < WARP_SIZE ->
                 nn_lists (u * NN_SIZE + tid) < dimension) ->
  length stale_route = dimension ->
  length dev_nn_hot_cache = dimension ->
  let route0 := acs_ant_init dimension rand_uint stale_route in
  (let built :=
     GPUACS_build_ant_solutions q0 phi initial_pheromone dimension
       heuristic_matrix dist_matrix nn_lists NN_SIZE pher_mem_update_freq
       (num_warps * WARP_SIZE) draws dev_nn_hot_cache route0 phmem0 rng0 in
   let res := snd built in
   fst built = repeat dimension dimension /\
   Permutation (res_route res) (seq 0 dimension) /\
   res_visited_count res = dimension /\
   (num_warps = 1 ->
    (res_value res == spec_tour_length dimension dist_matrix (res_route res))%Q)) /\
  (exists res,
     GPUACSSelectiveMemory_build_ant_solutions q0 phi dimension dev_phmem
       heuristic_matrix dist_matrix nn_lists NN_SIZE pher_mem_update_freq
       threads_per_block_ draws uninitialised route0 rng0 = Some res /\
     Permutation (spm_res_route res) (seq 0 dimension) /\
     (spm_res_value res
      == spec_tour_length dimension dist_matrix (spm_res_route res))%Q /\
     spm_res_visited_count res = dimension).
Proof.
  intros Hdim Hwarps Hphi0 Hphi1 Htau Hcells Hdefault Hheur Hnn Hlen Hcache route0.
  destruct (acs_ant_init_start dimension rand_uint stale_route Hlen) as [Hlen0 Hfirst];
    [lia|]. fold route0 in Hlen0, Hfirst.
  set (P := fun m : MatrixPhmem => forall k, (0 < mp_cells m k)%Q).
  assert (HP_update : forall m u v, P m -> P (ph_update m u v phi initial_pheromone)).
  { intros m u v Hm. unfold P. simpl. now apply matrix_update_positive. }
  assert (HP_pos : forall m k, P m -> (0 < ph_get m k)%Q) by (intros m k Hm; apply Hm).
  split.
  - unfold GPUACS_build_ant_solutions. cbv zeta. cbn [fst snd].
    split; [|split; [|split]].
    + rewrite fill_prefix by lia. rewrite <- Hcache at 3.
      now rewrite skipn_all, app_nil_r.
    + unfold acs_calc_solution. cbn [res_route].
      apply (calc_loop_route q0 phi initial_pheromone dimension heuristic_matrix
               nn_lists NN_SIZE pher_mem_update_freq num_warps draws P);
        auto; lia.
    + reflexivity.
    + intros ->. unfold acs_calc_solution. cbn [res_value res_route].
      change (1 * WARP_SIZE) with WARP_SIZE. apply one_warp_route_length.
  - unfold GPUACSSelectiveMemory_build_ant_solutions, acs_spm_calc_solution,
      spm_calc_solution. cbv zeta.
    destruct (spm_loop_route q0 phi (sp_default_pheromone dev_phmem) dimension
                heuristic_matrix nn_lists NN_SIZE pher_mem_update_freq 1 draws
                uninitialised Hdefault Hheur Hnn (proj2 Hdim) Nat.lt_0_1
                route0 dev_phmem rng0 Hlen0 Hfirst) as [st [E HP]].
    change (1 * WARP_SIZE) with 32 in E. rewrite E.
    eexists. split; [reflexivity|]. cbn [spm_res_route spm_res_value
                                         spm_res_visited_count].
    split; [exact HP|]. split; [|reflexivity].
    apply (one_warp_route_length dimension dist_matrix (spm_route st)).
Qed.

Lemma host_strategies_build_valid_tours_witness :
  (let res := snd (GPUACS_build_ant_solutions (1 # 2) (1 # 10) 1 3
                     (fun _ => 1%Q) (fun _ => 1%Q) (fun k => k mod 3) 32 1
                     (1 * WARP_SIZE) (fun _ => 0%Q) [9; 9; 9]
                     (acs_ant_init 3 7 [0; 0; 0])
                     (mkMatrixPhmem 3 (fun _ => 1%Q)) 0) in
   Qeq (res_value res) (spec_tour_length 3 (fun _ => 1%Q) (res_route res))) /\
  exists res,
    GPUACSSelectiveMemory_build_ant_solutions (1 # 2) (1 # 10) 3
      (mkSelectivePhmem 4 8 1 (fun _ => [])) (fun _ => 1%Q) (fun _ => 1%Q)
      (fun k => k mod 3) 32 1 77 (fun _ => 0%Q) (fun _ => 0)
      (acs_ant_init 3 7 [0; 0; 0]) 0 = Some res /\
    Permutation (spm_res_route res) (seq 0 3) /\
    Qeq (spm_res_value res) (spec_tour_length 3 (fun _ => 1%Q) (spm_res_route res)) /\
    spm_res_visited_count res = 3.
Proof.
  destruct (host_strategies_build_valid_tours (1 # 2) (1 # 10) 1 3
              (fun _ => 1%Q) (fun _ => 1%Q) (fun k => k mod 3) 32 1 1 77
              (fun _ => 0%Q) (fun _ => 0) [9; 9; 9] 7 [0; 0; 0]
              (mkMatrixPhmem 3 (fun _ => 1%Q))
              (mkSelectivePhmem 4 8 1 (fun _ => [])) 0) as [[_ [_ [_ Hv]]] Hs].
  - unfold MAX_VISITED_SIZE, WARP_SIZE. lia.
  - lia.
  - discriminate.
  - discriminate.
  - reflexivity.
  - intros k. reflexivity.
  - reflexivity.
  - intros u v _ _ _. reflexivity.
  - intros u tid _ _. apply Nat.mod_upper_bound. lia.
  - reflexivity.
  - reflexivity.
  - split; [exact (Hv eq_refl)|exact Hs].
Defined.
